(** * Verification of the scraper and e-mail archiving scripts

    A shallow embedding of the Python scripts of the repository:
    - [gmail_backup_and_clean/1_files_from_mbox.py]   (module [MboxExport])
    - [gmail_backup_and_clean/2_consolidate_files_into_single_pdf.py],
      the monthly JSON file                           (module [EmailSearch])
    - [gmail_backup_and_clean/4_pdf_compress.py]      (module [PdfCompress])
    - [gmail_backup_and_clean/5_json_consolidater.py] and
      [gmail_backup_and_clean/json_email_search.py]   (module [EmailSearch])
    - [cia_reading_room_scraper/cia_rdp96_app.py]     (module [CiaScraper])
    - [state_department/state_dep_allowances.py] and
      [gmail_backup_and_clean/3_pdf_repair.py]        (module [Resume])
    - [fbi_vault_scraper/app.py]                      (module [FbiVault])
    - the command lines of all scripts                (module [Cli])
    - the labels of [extract_tags] and the report text of [clean_text]
                                                      (module [Labels])
    - the file names the FBI and FRED scripts make    (module [SafeName])
    - [fed_res_eco_data/fed_reserve_scrape_app.py], the dialogue of [main]
                                                      (module [FredApp])
    - the copy loop of [5_json_consolidater.py]       (module [JsonCopy])
    - the keys of [create_cia_json]                   (module [CiaJson])
    - [sanitize_filename] of the consolidation script (module [ConsolidateNames])

    Python strings are sequences of Unicode code points; where the code
    slices or measures them they are [list N], elsewhere (dictionary keys,
    URLs, file names compared for equality) they are [string].  Files are
    finite maps from path to content.  Everything the outside world decides
    (the browser, Ghostscript, the OCR engine, the user at the prompt) is an
    oracle argument of the function that consults it. *)

From Stdlib Require Import ZArith NArith QArith Ascii String.
From Equations Require Import Equations.
From stdpp Require Import gmap strings list fin_maps pretty.

#[local] Set Warnings "-register-all,-clear-no-such-hyp".
#[local] Open Scope Z_scope.

(** A directory: file name (or path below a fixed root) to file content. *)
Abbreviation directory := (gmap string string).

(** ** Python strings as code-point sequences *)

Module PyStr.

Definition pystr := list N.

(** An ASCII literal as a code-point sequence. *)
Definition cp (s : string) : pystr :=
  map N_of_ascii (list_ascii_of_string s).

Definition char_in (c : N) (set : pystr) : bool :=
  existsb (N.eqb c) set.

(** [s.rfind(c)]: index of the last occurrence, [-1] when there is none. *)
Fixpoint rfind_from (c : N) (s : pystr) (i : Z) (last : Z) : Z :=
  match s with
  | [] => last
  | x :: s' => rfind_from c s' (i + 1) (if N.eqb x c then i else last)
  end.

Definition rfind (c : N) (s : pystr) : Z := rfind_from c s 0 (-1).

(** Slices [s[:n]], [s[n:]] and [s[a:b]] for non-negative bounds. *)
Definition slice_to (s : pystr) (n : Z) : pystr := take (Z.to_nat n) s.
Definition slice_from (s : pystr) (n : Z) : pystr := drop (Z.to_nat n) s.
Definition slice (s : pystr) (a b : Z) : pystr :=
  take (Z.to_nat b - Z.to_nat a)%nat (drop (Z.to_nat a) s).

Definition len (s : pystr) : Z := Z.of_nat (length s).

Definition pystr_eqb (a b : pystr) : bool :=
  bool_decide (a = b).

(** [s.strip(chars)] *)
Fixpoint lstrip (chars : pystr) (s : pystr) : pystr :=
  match s with
  | [] => []
  | x :: s' => if char_in x chars then lstrip chars s' else s
  end.

Definition rstrip (chars : pystr) (s : pystr) : pystr :=
  rev (lstrip chars (rev s)).

Definition strip (chars : pystr) (s : pystr) : pystr :=
  rstrip chars (lstrip chars s).

(** [os.path.splitext], CPython's [genericpath._splitext]: the extension
    starts at the last dot of the last path component, unless that
    component has only dots before it.  Both separators of [ntpath] are
    honoured; [posixpath] has only the slash. *)
Definition sep : N := 92.      (* backslash *)
Definition altsep : N := 47.   (* / *)
Definition extsep : N := 46.   (* . *)

Definition splitext (p : pystr) : pystr * pystr :=
  let sepIndex := Z.max (rfind sep p) (rfind altsep p) in
  let dotIndex := rfind extsep p in
  if (dotIndex >? sepIndex)
     && existsb (fun c => negb (N.eqb c extsep))
                (slice p (sepIndex + 1) dotIndex)
  then (slice_to p dotIndex, slice_from p dotIndex)
  else (p, []).

(** [s.upper()].  Python maps every code point separately through the
    Unicode full upper-case mapping.  The ASCII part is written out; the
    mapping of the other code points is the table [unicode_upper] of the
    Unicode database. *)
Definition ascii_upper (c : N) : N :=
  if (97 <=? c)%N && (c <=? 122)%N then (c - 32)%N else c.

Definition upper (unicode_upper : N -> pystr) (s : pystr) : pystr :=
  flat_map (fun c => if (c <? 128)%N then [ascii_upper c] else unicode_upper c) s.

End PyStr.

(** ** 1_files_from_mbox.py *)

Module MboxExport.
Import PyStr.

(** First [re.sub]: each of the nine characters the comment calls invalid
    on Windows (less-than, greater-than, colon, double quote, slash,
    backslash, bar, question mark, star) becomes an underscore. *)
Definition invalid_chars : pystr := [60; 62; 58; 34; 47; 92; 124; 63; 42]%N.
Definition underscore : N := 95.

Definition sub_invalid (s : pystr) : pystr :=
  map (fun c => if char_in c invalid_chars then underscore else c) s.

(** Second [re.sub]: the characters 0x00-0x1f and 0x7f are deleted. *)
Definition is_control (c : N) : bool := (c <=? 31)%N || (c =? 127)%N.

Definition sub_control (s : pystr) : pystr :=
  filter (fun c => is_control c = false) s.

(** Third [re.sub]: every run of underscores becomes one underscore. *)
Fixpoint sub_underscores (s : pystr) : pystr :=
  match s with
  | [] => []
  | x :: s' =>
      if N.eqb x underscore
      then match s' with
           | y :: _ => if N.eqb y underscore then sub_underscores s'
                       else x :: sub_underscores s'
           | [] => [x]
           end
      else x :: sub_underscores s'
  end.

Definition reserved : list pystr :=
  map cp ["CON"; "PRN"; "AUX"; "NUL"; "COM1"; "COM2"; "COM3"; "COM4";
          "COM5"; "COM6"; "COM7"; "COM8"; "COM9"; "LPT1"; "LPT2";
          "LPT3"; "LPT4"; "LPT5"; "LPT6"; "LPT7"; "LPT8"; "LPT9"]%string.

Definition in_reserved (s : pystr) : bool :=
  existsb (pystr_eqb s) reserved.

Section Sanitize.
Variable unicode_upper : N -> pystr.

Definition sanitize_filename (filename : pystr) : pystr :=
  if bool_decide (filename = []) then cp "unnamed" else
  let filename := sub_invalid filename in
  let filename := sub_control filename in
  let filename := sub_underscores filename in
  let filename := strip (cp " .") filename in
  let filename := if bool_decide (filename = []) then cp "unnamed" else filename in
  let name_without_ext := upper unicode_upper (fst (splitext filename)) in
  let filename :=
    if in_reserved name_without_ext then underscore :: filename else filename in
  if len filename >? 100
  then let '(name, ext) := splitext filename in
       slice_to name 95 ++ cp "..." ++ ext
  else filename.

End Sanitize.

End MboxExport.

(** ** Calls that may end in an uncaught exception *)

Module Outcome.

Inductive outcome (A : Type) :=
| Returned (a : A)
| Raised.            (* an uncaught exception ends the script *)
Arguments Returned {A} a.
Arguments Raised {A}.

#[export] Instance outcome_ret : MRet outcome := @Returned.
#[export] Instance outcome_bind : MBind outcome := fun A B f m =>
  match m with Returned a => f a | Raised => Raised end.

End Outcome.

(** ** JSON values, as [json.load] returns them and [json.dump] writes them

    A Python [dict] keeps its keys unique and in insertion order, and
    [json.dump] writes them in that order, so an object is an association
    list handled only through [dict_get] and [dict_set]. *)

Module Json.

Inductive json :=
| JNull
| JBool (b : bool)
| JNum (z : Z)
| JStr (s : string)
| JList (l : list json)
| JObj (kvs : list (string * json)).

Definition pydict := list (string * json).

(** [d.get(k)] *)
Fixpoint dict_get (k : string) (d : pydict) : option json :=
  match d with
  | [] => None
  | (k', v) :: d' => if String.eqb k k' then Some v else dict_get k d'
  end.

(** [d[k] = v]: an existing key keeps its position. *)
Fixpoint dict_set (k : string) (v : json) (d : pydict) : pydict :=
  match d with
  | [] => [(k, v)]
  | (k', v') :: d' =>
      if String.eqb k k' then (k, v) :: d' else (k', v') :: dict_set k v d'
  end.

Definition dict_keys (d : pydict) : list string := map fst d.

(** Python truth value of a decoded JSON value. *)
Definition truthy (j : json) : bool :=
  match j with
  | JNull => false
  | JBool b => b
  | JNum z => negb (z =? 0)
  | JStr s => negb (String.eqb s "")
  | JList l => match l with [] => false | _ => true end
  | JObj d => match d with [] => false | _ => true end
  end.

End Json.

(** ** 5_json_consolidater.py and json_email_search.py *)

Module EmailSearch.
Import Outcome Json.

(** The values [process_mbox] of 1_files_from_mbox.py has in hand when it
    writes the per-e-mail JSON file. *)
Record email_record := {
  from_ : string;
  to_ : string;
  date : string;                       (* date.strftime(...) *)
  subject : string;
  tags : list string;
  email_body : string;
  attachment_list : list string;
  pdf_filename : string;
  date_str : option string;            (* message.get('Date') *)
  folder_name : string
}.

Definition json_opt_str (o : option string) : json :=
  match o with Some s => JStr s | None => JNull end.

(** The dictionary passed to [json.dump] in [process_mbox]. *)
Definition email_fields (r : email_record) : pydict :=
       [ ("from", JStr (from_ r));
         ("to", JStr (to_ r));
         ("date", JStr (date r));
         ("subject", JStr (subject r));
         ("tags", JList (map JStr (tags r)));
         ("body", JStr (email_body r));
         ("attachments", JList (map JStr (attachment_list r)));
         ("attachment_count", JNum (Z.of_nat (length (attachment_list r))));
         ("email_pdf", JStr (pdf_filename r));
         ("original_date_string", json_opt_str (date_str r));
         ("folder", JStr (folder_name r)) ]%string.

Definition email_json (r : email_record) : json := JObj (email_fields r).

(** *** 2_consolidate_files_into_single_pdf.py, [process_month]

    The metadata of one e-mail folder after the three assignments
    [meta['pdf_file']], [meta['original_folder']], [meta['attachments']],
    and the dictionary written to <month>_consolidated.json (the list is
    taken in the order [consolidated.sort] leaves it in). *)
Definition consolidated_meta (meta : pydict) (new_pdf_name folder_name : string)
    (attachments : list string) : pydict :=
  dict_set "attachments" (JList (map JStr attachments))
    (dict_set "original_folder" (JStr folder_name)
       (dict_set "pdf_file" (JStr new_pdf_name) meta)).

Definition month_json (month_name generated : string) (consolidated : list json) : json :=
  JObj [ ("month", JStr month_name);
         ("generated", JStr generated);
         ("total_emails", JNum (Z.of_nat (length consolidated)));
         ("emails", JList consolidated) ]%string.

Definition SOURCE_DIR : string := "gmail_consolidated".
Definition DEST_DIR : string := "gmail_pdf_fixed".

(** The metadata part of the loop of [main] in 5_json_consolidater.py:
    [json_files] pairs each relative path with what [load_json_file]
    returned for it ([None] when loading failed). *)
Fixpoint collect_metadata (json_files : list (string * option json))
    (all_metadata : pydict) : pydict :=
  match json_files with
  | [] => all_metadata
  | (rel_path, metadata) :: rest =>
      let all_metadata :=
        match metadata with
        | Some m => if truthy m then dict_set rel_path m all_metadata
                    else all_metadata
        | None => all_metadata
        end in
      collect_metadata rest all_metadata
  end.

(** [create_master_json]: the value written to master_metadata.json. *)
Definition create_master_json (now : string) (all_metadata : pydict) : json :=
  let files :=
    fold_left (fun files '(rel_path, metadata) => dict_set rel_path metadata files)
              all_metadata [] in
  JObj [ ("generated", JStr now);
         ("source_directory", JStr SOURCE_DIR);
         ("destination_directory", JStr DEST_DIR);
         ("total_json_files", JNum (Z.of_nat (length all_metadata)));
         ("files", JObj files) ]%string.

Definition consolidate (now : string) (json_files : list (string * option json)) : json :=
  create_master_json now (collect_metadata json_files []).

(** *** json_email_search.py *)

(** [x.get(k, default)]: only a dict has [get]. *)
Definition py_get (x : json) (k : string) (default : json) : outcome json :=
  match x with
  | JObj d => Returned (match dict_get k d with Some v => v | None => default end)
  | _ => Raised
  end.

(** What a [for] loop over a decoded JSON value visits. *)
Definition py_iter (x : json) : outcome (list json) :=
  match x with
  | JList l => Returned l
  | JObj d => Returned (map (fun kv => JStr (fst kv)) d)
  | JStr s => Returned (map (fun c => JStr (String c EmptyString)) (list_ascii_of_string s))
  | _ => Raised
  end.

Definition as_str (x : json) : outcome string :=
  match x with JStr s => Returned s | _ => Raised end.

Fixpoint mapM {A B} (f : A -> outcome B) (l : list A) : outcome (list B) :=
  match l with
  | [] => Returned []
  | a :: l' => b ← f a; bs ← mapM f l'; Returned (b :: bs)
  end.

(** [sep.join(parts)] *)
Fixpoint join (sep : string) (parts : list string) : string :=
  match parts with
  | [] => ""
  | [p] => p
  | p :: rest => p +:+ sep +:+ join sep rest
  end.

(** [term in text] *)
Definition contains (term text : string) : bool :=
  match String.index 0 term text with Some _ => true | None => false end.

Section Search.
(** [str.lower], the Unicode lower-casing of the Python runtime. *)
Variable lower : string -> string.

Definition searchable_text (email : json) : outcome string :=
  subject ← (v ← py_get email "subject" (JStr ""); as_str v);
  body ← (v ← py_get email "body" (JStr ""); as_str v);
  from ← (v ← py_get email "from" (JStr ""); as_str v);
  to ← (v ← py_get email "to" (JStr ""); as_str v);
  tags ← (v ← py_get email "tags" (JList []);
           l ← py_iter v; mapM as_str l);
  Returned (lower (join " " [subject; body; from; to; join " " tags])).

Fixpoint search_emails (search_terms_lower : list string) (emails : list json)
    (matches : list json) : outcome (list json) :=
  match emails with
  | [] => Returned matches
  | email :: rest =>
      searchable ← searchable_text email;
      let matches :=
        if forallb (fun term => contains term searchable) search_terms_lower
        then matches ++ [email] else matches in
      search_emails search_terms_lower rest matches
  end.

Fixpoint search_files (search_terms_lower : list string) (files : list (string * json))
    (matches : list json) : outcome (list json) :=
  match files with
  | [] => Returned matches
  | (filename, file_data) :: rest =>
      emails ← py_get file_data "emails" (JList []);
      emails ← py_iter emails;
      matches ← search_emails search_terms_lower emails matches;
      search_files search_terms_lower rest matches
  end.

(** The module-level search loop; [data] is the decoded master file. *)
Definition search (data : json) (search_terms : list string) : outcome (list json) :=
  let search_terms_lower := map lower search_terms in
  files ← py_get data "files" (JObj []);
  match files with
  | JObj files => search_files search_terms_lower files []
  | _ => Raised                       (* no [items] method *)
  end.

End Search.

(** [str.lower] on ASCII text. *)
Definition lower_char (c : ascii) : ascii :=
  let n := nat_of_ascii c in
  if (65 <=? n)%nat && (n <=? 90)%nat then ascii_of_nat (n + 32) else c.

Fixpoint lower_ascii (s : string) : string :=
  match s with
  | EmptyString => EmptyString
  | String c s' => String (lower_char c) (lower_ascii s')
  end.

End EmailSearch.

(** ** String methods used on file names and URLs *)

Module StrUtil.

(** [s.endswith(suffix)] *)
Definition endswith (s suffix : string) : bool :=
  (String.length suffix <=? String.length s)%nat
  && String.eqb (substring (String.length s - String.length suffix)
                           (String.length suffix) s) suffix.

(** [s.replace(old, new)] for a non-empty [old]: the occurrences are
    found from left to right and do not overlap.  [skip] counts the
    characters of the occurrence just replaced that are still to be
    passed over. *)
Fixpoint replace_go (old new : string) (skip : nat) (s : string) : string :=
  match s with
  | EmptyString => EmptyString
  | String c s' =>
      match skip with
      | S k => replace_go old new k s'
      | O => if String.prefix old s
             then new +:+ replace_go old new (String.length old - 1) s'
             else String c (replace_go old new 0 s')
      end
  end.

Definition replace (old new s : string) : string := replace_go old new 0 s.

(** [s.split(c)] for a one-character separator: never empty. *)
Fixpoint split (c : ascii) (s : string) : list string :=
  match s with
  | EmptyString => [EmptyString]
  | String x s' =>
      if Ascii.eqb x c then EmptyString :: split c s'
      else match split c s' with
           | h :: t => String x h :: t
           | [] => [String x EmptyString]
           end
  end.

End StrUtil.

(** ** cia_reading_room_scraper/cia_rdp96_app.py *)

Module CiaScraper.
Import StrUtil.


Inductive loop_end := Stopped | FuelExhausted.

(** *** Layer 0: [scrape_search_pages]

    [driver_get page_no] is what the [try] block meets for that page:
    [Some source] when the page was fetched and written, [None] when
    anything in the block raised.  The loop is [while True]; [fuel]
    bounds the iterations the model follows. *)
Definition first_page : Z := 4092.

Definition layer_0_file (page_no : Z) : string :=
  "page_" +:+ pretty page_no +:+ ".html".

Fixpoint scrape_search_loop (driver_get : Z -> option string) (fuel : nat)
    (page_no : Z) (layer_0 : directory) : loop_end * Z * directory :=
  match fuel with
  | O => (FuelExhausted, page_no, layer_0)
  | S fuel' =>
      match driver_get page_no with
      | Some page_source =>
          scrape_search_loop driver_get fuel' (page_no + 1)
            (<[layer_0_file page_no := page_source]> layer_0)
      | None => (Stopped, page_no, layer_0)      (* except: ... break *)
      end
  end.

Definition scrape_search_pages (driver_get : Z -> option string) (fuel : nat)
    (layer_0 : directory) : loop_end * Z * directory :=
  scrape_search_loop driver_get fuel first_page layer_0.

(** *** Layer 1: [scrape_document_pages] *)

(** [url.split('/')[-1]] *)
Definition doc_id (url : string) : string :=
  List.last (split "/" url) EmptyString.

(** The set built from [os.listdir("output/layer_1")]. *)
Definition downloaded_ids (layer_1 : directory) : gset string :=
  list_to_set
    (map (fun filename => replace ".html" "" filename)
         (filter (fun filename => endswith filename ".html" = true)
                 (elements (dom layer_1)))).

Definition urls_to_scrape (urls : list string) (layer_1 : directory) : list string :=
  filter (fun url => doc_id url ∉ downloaded_ids layer_1) urls.

Definition layer_1_file (url : string) : string := doc_id url +:+ ".html".

(** The scraping loop.  [driver_get i url] is what the [try] block of
    iteration [i] meets: [Some source] when the page was fetched and
    written, [None] when it raised.  [requested] lists the URLs handed to
    the browser, in order. *)
Fixpoint scrape_loop (driver_get : nat -> string -> option string) (i : nat)
    (urls : list string) (layer_1 : directory) (requested : list string)
    : directory * list string :=
  match urls with
  | [] => (layer_1, requested)
  | url :: rest =>
      let requested := requested ++ [url] in
      match driver_get i url with
      | Some page_source =>
          scrape_loop driver_get (S i) rest
            (<[layer_1_file url := page_source]> layer_1) requested
      | None =>                                   (* except Exception: print *)
          scrape_loop driver_get (S i) rest layer_1 requested
      end
  end.

Definition scrape_document_pages (driver_get : nat -> string -> option string)
    (urls : list string) (layer_1 : directory) : directory * list string :=
  scrape_loop driver_get 0 (urls_to_scrape urls layer_1) layer_1 [].

End CiaScraper.

(** ** Skipping finished items: state_dep_allowances.py and 3_pdf_repair.py *)

Module Resume.

(** *** [layer_0] of state_dep_allowances.py

    For a date that has no CSV yet the page is opened and the form
    submitted outside any [try]: [navigate d = false] stands for an
    exception there, which ends [layer_0].  [read_table d] is the [try]
    block: [None] when it raised, [Some None] when [pd.read_html] found
    no table, [Some (Some csv)] for the CSV text written. *)
Definition csv_path (date_val : string) : string :=
  "output/tables/" +:+ date_val +:+ ".csv".

Fixpoint layer_0 (navigate : string -> bool)
    (read_table : string -> option (option string))
    (date_values : list string) (fs : directory) (visited : list string)
    : bool * directory * list string :=
  match date_values with
  | [] => (true, fs, visited)
  | date_val :: rest =>
      if bool_decide (is_Some (fs !! csv_path date_val))
      then layer_0 navigate read_table rest fs visited          (* continue *)
      else
        let visited := visited ++ [date_val] in
        if navigate date_val then
          match read_table date_val with
          | Some (Some csv) =>
              layer_0 navigate read_table rest (<[csv_path date_val := csv]> fs) visited
          | _ => layer_0 navigate read_table rest fs visited
          end
        else (false, fs, visited)
  end.

(** *** [main] of 3_pdf_repair.py

    Paths are relative to the source and to the destination directory;
    [dst] is the destination tree.  A fix method returns whether it
    succeeded and what it left at the output path ([None]: nothing
    written). *)
Definition already_done (dst : directory) (rel_path : string) : bool :=
  match dst !! rel_path with
  | Some content => (1024 <? String.length content)%nat
  | None => false
  end.

Definition pdfs_to_process (dst : directory) (all_pdfs : list string) : list string :=
  filter (fun pdf => already_done dst pdf = false) all_pdfs.

Definition fix_method := string -> bool * option string.

Fixpoint try_methods (methods : list fix_method) (rel_path : string)
    (dst : directory) : bool * directory :=
  match methods with
  | [] => (false, dst)
  | m :: rest =>
      let '(ok, written) := m rel_path in
      let dst := match written with
                 | Some content => <[rel_path := content]> dst
                 | None => dst
                 end in
      if ok then (true, dst) else try_methods rest rel_path dst
  end.

Fixpoint repair_loop (methods : list fix_method) (todo : list string)
    (dst : directory) (processed failed : list string)
    : directory * list string * list string :=
  match todo with
  | [] => (dst, processed, failed)
  | rel_path :: rest =>
      let '(success, dst) := try_methods methods rel_path dst in
      if success && already_done dst rel_path
      then repair_loop methods rest dst (processed ++ [rel_path]) failed
      else repair_loop methods rest dst processed (failed ++ [rel_path])
  end.

Definition repair_main (methods : list fix_method) (all_pdfs : list string)
    (dst : directory) : directory * list string * list string :=
  repair_loop methods (pdfs_to_process dst all_pdfs) dst [] [].

End Resume.

(** ** gmail_backup_and_clean/4_pdf_compress.py *)

Module PdfCompress.
Import Outcome.

(** A [pathlib] path relative to its root, as its components. *)
Definition path := list string.
Abbreviation tree := (gmap path string).

Definition name (p : path) : string := List.last p EmptyString.

(** The name split at its last dot: the part before it and the part from
    the dot on.  [None] when the name has no dot. *)
Fixpoint rsplit_dot (s : string) : option (string * string) :=
  match s with
  | EmptyString => None
  | String c s' =>
      match rsplit_dot s' with
      | Some (a, b) => Some (String c a, b)
      | None => if Ascii.eqb c "." then Some (EmptyString, s) else None
      end
  end.

(** [PurePath.suffix]: [name[i:]] for [i = name.rfind('.')] when
    [0 < i < len(name) - 1], else empty. *)
Definition suffix (p : path) : string :=
  match rsplit_dot (name p) with
  | Some (a, b) =>
      if negb (String.eqb a EmptyString) && (1 <? String.length b)%nat
      then b else EmptyString
  | None => EmptyString
  end.

(** [PurePath.with_suffix]: [ValueError] for a path without a name. *)
Definition with_suffix (p : path) (new_suffix : string) : outcome path :=
  let nm := name p in
  if String.eqb nm EmptyString then Raised else
  let old_suffix := suffix p in
  let stem := substring 0 (String.length nm - String.length old_suffix) nm in
  Returned (removelast p ++ [stem +:+ new_suffix]).

Definition ALWAYS_KEEP_SMALLEST : bool := true.

(** [get_file_size_mb]: the size in bytes over 2^20.  The division is by
    a power of two, so the floating-point quotient of the script is this
    rational exactly for every size below 2^53 bytes. *)
Definition get_file_size_mb (content : string) : Q :=
  inject_Z (Z.of_nat (String.length content)) / inject_Z (1024 * 1024).

Definition size_lt (a b : Q) : bool :=
  if Qlt_le_dec a b then true else false.

Record stats := {
  successful : nat;
  failed : nat;
  kept_original : nat;
  compressed_smaller : nat;
  timed_out : nat
}.

(** One call of [compress_with_ghostscript]: its return value, what the
    Ghostscript process left at the temporary path ([None]: it did not
    touch it), and whether the call took the whole timeout. *)
Record gs_run := {
  gs_success : bool;
  gs_written : option string;
  gs_elapsed_ge_timeout : bool
}.

Definition unlink_if_exists (p : path) (dst : tree) : tree :=
  match dst !! p with Some _ => delete p dst | None => dst end.

(** The body of the loop of [main] for one PDF.  [src] is the source
    tree, [dst] the destination tree; [output_path] is [dst / rel_path]. *)
Definition process_pdf (gs : gs_run) (rel_path : path) (src dst : tree)
    (st : stats) : outcome (tree * stats) :=
  match src !! rel_path with
  | None => Raised                                (* stat() on a missing file *)
  | Some original =>
    let output_path := rel_path in
    let original_size := get_file_size_mb original in
    match dst !! output_path with
    | Some existing =>
        let final_size := get_file_size_mb existing in
        let st := {| successful := S (successful st); failed := failed st;
                     kept_original := if size_lt final_size original_size
                                      then kept_original st else S (kept_original st);
                     compressed_smaller := if size_lt final_size original_size
                                      then S (compressed_smaller st) else compressed_smaller st;
                     timed_out := timed_out st |} in
        Returned (dst, st)                         (* continue *)
    | None =>
      match with_suffix output_path ".temp.pdf" with
      | Raised => Raised
      | Returned temp_path =>
        let dst := match gs_written gs with
                   | Some c => <[temp_path := c]> dst
                   | None => dst
                   end in
        match gs_success gs, dst !! temp_path with
        | true, Some compressed =>
            let compressed_size := get_file_size_mb compressed in
            if size_lt compressed_size original_size || negb ALWAYS_KEEP_SMALLEST
            then
              (* shutil.move(temp_path, output_path) *)
              let dst := <[output_path := compressed]> (delete temp_path dst) in
              let st := {| successful := S (successful st); failed := failed st;
                           kept_original := if size_lt compressed_size original_size
                                            then kept_original st else S (kept_original st);
                           compressed_smaller := if size_lt compressed_size original_size
                                            then S (compressed_smaller st)
                                            else compressed_smaller st;
                           timed_out := timed_out st |} in
              Returned (dst, st)
            else
              (* shutil.copy2(pdf_path, output_path), then unlink the temp file *)
              let dst := <[output_path := original]> dst in
              let st := {| successful := S (successful st); failed := failed st;
                           kept_original := S (kept_original st);
                           compressed_smaller := compressed_smaller st;
                           timed_out := timed_out st |} in
              Returned (unlink_if_exists temp_path dst, st)
        | _, _ =>
            let st := {| successful := successful st;
                         failed := if gs_elapsed_ge_timeout gs then failed st
                                   else S (failed st);
                         kept_original := kept_original st;
                         compressed_smaller := compressed_smaller st;
                         timed_out := if gs_elapsed_ge_timeout gs then S (timed_out st)
                                      else timed_out st |} in
            let dst := <[output_path := original]> dst in
            Returned (unlink_if_exists temp_path dst, st)
        end
      end
    end
  end.

(** The loop over [all_pdfs]; [gs i p] is the Ghostscript run of
    iteration [i]. *)
Fixpoint main_loop (gs : nat -> path -> gs_run) (i : nat) (all_pdfs : list path)
    (src dst : tree) (st : stats) : outcome (tree * stats) :=
  match all_pdfs with
  | [] => Returned (dst, st)
  | rel_path :: rest =>
      match process_pdf (gs i rel_path) rel_path src dst st with
      | Returned (dst, st) => main_loop gs (S i) rest src dst st
      | Raised => Raised
      end
  end.

End PdfCompress.

(** ** fbi_vault_scraper/app.py: the download and OCR phases *)

Module FbiVault.
Import Json.

(** What the handlers look at in an exception: whether its text contains
    [invalid session id]. *)
Inductive exn := InvalidSession | OtherError.

(** A call returns, raises, or the model ran out of [fuel] in one of the
    [while True] loops. *)
Inductive result (A : Type) :=
| Ok (a : A)
| Exc (e : exn)
| OutOfFuel.
Arguments Ok {A} a.
Arguments Exc {A} e.
Arguments OutOfFuel {A}.

(** The tracking file downloaded_<term>.json: absent, not decodable, or
    a JSON array. *)
Inductive tracking :=
| NoFile
| Garbage
| TrackingList (l : list json).

Inductive event :=
| EvAttempt (retry_count : nat)          (* one iteration of the retry loop *)
| EvDownload                             (* a call of [download_pdf] *)
| EvAppend (entry : json)                (* [downloaded_pdfs.append] *)
| EvWriteTracking (content : list json)  (* [json.dump(downloaded_pdfs, f)] *)
| EvDownloadPhaseComplete                (* the log line after the verification pass *)
| EvOcrPass (ocr_attempts : nat)         (* one pass of the [for] loop of the OCR phase *)
| EvOcr (pdf_path : json)                (* [extract_text_from_pdf(pdf_info['path'])] *)
| EvSetOcr (idx : nat) (status : string) (* [pdf_info['ocr'] = status] *)
| EvResult (document : json)             (* [self.results.append] *)
| EvSaveResults
| EvRemoveTracking.

(** The objects the methods share.  [pdfs] is the list [downloaded_pdfs]
    created in [run]; [ocr_pdfs] is the local [downloaded_pdfs] of
    [process_ocr_phase], which is the same object as [pdfs] exactly when
    [ocr_aliased]; [missing_urls] is the set [downloaded_urls] of
    [download_missing_documents].  [clock] counts the questions put to the
    outside world. *)
Record state := {
  clock : nat;
  pdfs : list json;
  ocr_pdfs : list json;
  ocr_aliased : bool;
  missing_urls : list json;
  tracking_file : tracking;
  results : list json;
  trace : list event
}.

Definition initial_state (file : tracking) : state :=
  {| clock := 0; pdfs := []; ocr_pdfs := []; ocr_aliased := false;
     missing_urls := []; tracking_file := file; results := []; trace := [] |}.

Definition set_clock (n : nat) (s : state) : state :=
  {| clock := n; pdfs := pdfs s; ocr_pdfs := ocr_pdfs s;
     ocr_aliased := ocr_aliased s; missing_urls := missing_urls s;
     tracking_file := tracking_file s; results := results s; trace := trace s |}.
Definition set_pdfs (l : list json) (s : state) : state :=
  {| clock := clock s; pdfs := l; ocr_pdfs := ocr_pdfs s;
     ocr_aliased := ocr_aliased s; missing_urls := missing_urls s;
     tracking_file := tracking_file s; results := results s; trace := trace s |}.
Definition set_ocr_pdfs (l : list json) (aliased : bool) (s : state) : state :=
  {| clock := clock s; pdfs := if aliased then l else pdfs s; ocr_pdfs := l;
     ocr_aliased := aliased; missing_urls := missing_urls s;
     tracking_file := tracking_file s; results := results s; trace := trace s |}.
Definition set_missing_urls (l : list json) (s : state) : state :=
  {| clock := clock s; pdfs := pdfs s; ocr_pdfs := ocr_pdfs s;
     ocr_aliased := ocr_aliased s; missing_urls := l;
     tracking_file := tracking_file s; results := results s; trace := trace s |}.
Definition set_tracking_file (f : tracking) (s : state) : state :=
  {| clock := clock s; pdfs := pdfs s; ocr_pdfs := ocr_pdfs s;
     ocr_aliased := ocr_aliased s; missing_urls := missing_urls s;
     tracking_file := f; results := results s; trace := trace s |}.
Definition set_results (l : list json) (s : state) : state :=
  {| clock := clock s; pdfs := pdfs s; ocr_pdfs := ocr_pdfs s;
     ocr_aliased := ocr_aliased s; missing_urls := missing_urls s;
     tracking_file := tracking_file s; results := l; trace := trace s |}.
Definition add_event (ev : event) (s : state) : state :=
  {| clock := clock s; pdfs := pdfs s; ocr_pdfs := ocr_pdfs s;
     ocr_aliased := ocr_aliased s; missing_urls := missing_urls s;
     tracking_file := tracking_file s; results := results s;
     trace := trace s ++ [ev] |}.

(** *** The monad of the methods *)

Definition M (A : Type) : Type := state -> result A * state.

#[export] Instance M_ret : MRet M := fun A a s => (Ok a, s).
#[export] Instance M_bind : MBind M := fun A B f m s =>
  match m s with
  | (Ok a, s') => f a s'
  | (Exc e, s') => (Exc e, s')
  | (OutOfFuel, s') => (OutOfFuel, s')
  end.

Definition get_state : M state := fun s => (Ok s, s).
Definition modify (f : state -> state) : M unit := fun s => (Ok tt, f s).
Definition raise {A} (e : exn) : M A := fun s => (Exc e, s).
Definition out_of_fuel {A} : M A := fun s => (OutOfFuel, s).
Definition emit (ev : event) : M unit := modify (add_event ev).

(** [try: m except Exception as e: h e] *)
Definition try_catch {A} (m : M A) (h : exn -> M A) : M A := fun s =>
  match m s with
  | (Exc e, s') => h e s'
  | r => r
  end.

(** A question to the outside world, answered by the oracle at the
    current clock value. *)
Definition ask {A} (f : nat -> A) : M A := fun s =>
  (Ok (f (clock s)), set_clock (S (clock s)) s).

Definition ask_raise {A} (f : nat -> A + exn) : M A := fun s =>
  match f (clock s) with
  | inl a => (Ok a, set_clock (S (clock s)) s)
  | inr e => (Exc e, set_clock (S (clock s)) s)
  end.

(** *** The outside world *)

Record link := { href : option string; link_text : string }.

(** The value [extract_text_from_pdf] returns (it catches every
    exception and strips the text) with [len(body_text.strip())]. *)
Record ocr_output := { body_text : string; stripped_len : nat }.

Record world := {
  setup_driver_w : nat -> unit + exn;
  driver_get_w : nat -> unit + exn;               (* driver.get / driver.back *)
  result_links_w : nat -> list link + exn;        (* get_result_links *)
  navigate_next_w : nat -> bool;                  (* navigate_to_next_page *)
  driver_health_w : nat -> bool;                  (* check_driver_health *)
  recover_w : nat -> bool;                        (* recover_driver_session *)
  current_url_w : nat -> string + exn;            (* driver.current_url *)
  extract_pdf_url_w : nat -> option string;       (* extract_pdf_url_from_page *)
  download_pdf_w : nat -> option string + exn;    (* download_pdf *)
  path_exists_w : nat -> bool;                    (* os.path.exists(pdf_path) *)
  results_file_w : nat -> option (option (list json));
      (* fbi_vault_<term>.json: absent, not decodable, or its content *)
  extract_text_w : nat -> ocr_output;             (* extract_text_from_pdf *)
  doc_details_w : nat -> string + exn;            (* extract_document_details()['title'] *)
  today_w : nat -> string;                        (* datetime.now().strftime("%Y-%m-%d") *)
  input_yes_w : nat -> bool                       (* input(...).lower() == 'y' *)
}.

(** *** Dictionary access on tracking entries *)

(** [pdf[k]]: [KeyError] or [TypeError] unless [pdf] is a dict with [k]. *)
Definition entry_item (pdf : json) (k : string) : M json :=
  match pdf with
  | JObj d => match dict_get k d with Some v => mret v | None => raise OtherError end
  | _ => raise OtherError
  end.

(** [pdf.get(k)]: [AttributeError] unless [pdf] is a dict. *)
Definition entry_get (pdf : json) (k : string) : M json :=
  match pdf with
  | JObj d => mret (match dict_get k d with Some v => v | None => JNull end)
  | _ => raise OtherError
  end.

Definition json_is_str (v : json) (s : string) : bool :=
  match v with JStr s' => String.eqb s' s | _ => false end.

Definition json_opt_str (o : option string) : json :=
  match o with Some s => JStr s | None => JNull end.

(** [v == link_url] for the value of [link.get_attribute('href')]. *)
Definition url_eq (v : json) (link_url : option string) : bool :=
  match v, link_url with
  | JStr a, Some b => String.eqb a b
  | JNull, None => true
  | _, _ => false
  end.

(** [os.path.basename(p)]: [TypeError] unless [p] is a string. *)
Definition basename_check (p : json) : M unit :=
  match p with JStr _ => mret tt | _ => raise OtherError end.

Definition new_entry (pdf_path : string) (link_url : option string)
    (link_text : string) : json :=
  JObj [ ("path", JStr pdf_path);
         ("url", json_opt_str link_url);
         ("title", JStr link_text);
         ("ocr", JStr "pending") ]%string.

Definition max_retries : nat := 3.
Definition max_verification_attempts : nat := 3.
Definition max_ocr_attempts : nat := 3.

Section Scraper.
Variable w : world.

Definition driver_get : M unit := ask_raise (driver_get_w w).
Definition driver_back : M unit := ask_raise (driver_get_w w).
Definition get_result_links : M (list link) := ask_raise (result_links_w w).
Definition navigate_to_next_page : M bool := ask (navigate_next_w w).
Definition check_driver_health : M bool := ask (driver_health_w w).
Definition recover_driver_session : M bool := ask (recover_w w).
Definition current_url : M string := ask_raise (current_url_w w).
Definition extract_pdf_url_from_page : M (option string) := ask (extract_pdf_url_w w).

(** [download_pdf(pdf_url, pdf_filename)] followed by the test
    [pdf_path and os.path.exists(pdf_path)]: the path when it holds. *)
Definition download_pdf : M (option string) :=
  _ ← emit EvDownload;
  pdf_path ← ask_raise (download_pdf_w w);
  match pdf_path with
  | Some p =>
      if String.eqb p "" then mret None
      else ex ← ask (path_exists_w w); mret (if ex : bool then Some p else None)
  | None => mret None
  end.

Definition append_entry (entry : json) : M unit :=
  _ ← modify (fun s => set_pdfs (pdfs s ++ [entry]) s);
  emit (EvAppend entry).

(** [json.dump(downloaded_pdfs, f, indent=2)] on the tracking file. *)
Definition write_tracking (content : state -> list json) : M unit :=
  s ← get_state;
  _ ← modify (set_tracking_file (TrackingList (content s)));
  emit (EvWriteTracking (content s)).

(** [initialize_download_phase] *)
Definition initialize_download_phase : M unit :=
  s ← get_state;
  match tracking_file s with
  | TrackingList l => modify (set_pdfs l)
  | _ => modify (set_pdfs [])
  end.

(** [any(pdf['url'] == link_url for pdf in downloaded_pdfs)] *)
Fixpoint any_url_eq (link_url : option string) (l : list json) : M bool :=
  match l with
  | [] => mret false
  | pdf :: l' =>
      v ← entry_item pdf "url";
      if url_eq v link_url then mret true else any_url_eq link_url l'
  end.

(** The body of the [while retry_count < max_retries] loop of
    [process_single_document_download]: [Some r] when the method returns
    [r], [None] when the iteration ends with [retry_count] one higher. *)
Definition attempt_body (link_url : option string) (link_text : string)
    (documents_processed retry_count max_retries : nat) : M (option (nat * bool)) :=
  try_catch
    (healthy ← check_driver_health;
     _ ← (if healthy : bool then mret tt
          else _ ← recover_driver_session; _ ← current_url; mret tt);
     _ ← driver_get;
     pdf_url ← extract_pdf_url_from_page;
     match pdf_url with
     | None => _ ← driver_get; mret None
     | Some _ =>
         pdf_path ← download_pdf;
         match pdf_path with
         | Some p =>
             _ ← append_entry (new_entry p link_url link_text);
             _ ← write_tracking pdfs;
             _ ← driver_get;
             mret (Some (S documents_processed, true))
         | None => mret None
         end
     end)
    (fun e =>
       _ ← match e with
           | InvalidSession => _ ← recover_driver_session; _ ← current_url; mret tt
           | OtherError => mret tt
           end;
       _ ← (if (S retry_count <? max_retries)%nat
            then try_catch driver_get (fun _ => mret tt)
            else mret tt);
       mret None).

(** One iteration, recorded in the trace. *)
Definition download_attempt (link_url : option string) (link_text : string)
    (documents_processed retry_count max_retries : nat) : M (option (nat * bool)) :=
  _ ← emit (EvAttempt retry_count);
  attempt_body link_url link_text documents_processed retry_count max_retries.

Equations retry_loop (link_url : option string) (link_text : string)
    (max_retries retry_count documents_processed : nat) (s : state)
    : result (nat * bool) * state by wf (max_retries - retry_count)%nat lt :=
  retry_loop link_url link_text max_retries retry_count documents_processed s
    with lt_dec retry_count max_retries := {
    | right _ => (Ok (documents_processed, false), s)
    | left Hlt
        with download_attempt link_url link_text documents_processed
                              retry_count max_retries s := {
        | (Ok (Some r), s') => (Ok r, s')
        | (Ok None, s') =>
            retry_loop link_url link_text max_retries (S retry_count)
                       documents_processed s'
        | (Exc e, s') => (Exc e, s')
        | (OutOfFuel, s') => (OutOfFuel, s') } }.
Next Obligation. lia. Qed.

(** [process_single_document_download] *)
Definition process_single_document_download (l : link)
    (documents_processed : nat) : M (nat * bool) :=
  let link_url := href l in
  let link_text := if String.eqb (link_text l) "" then "Unknown Document"%string
                   else link_text l in
  s ← get_state;
  already ← any_url_eq link_url (pdfs s);
  if already : bool then mret (documents_processed, true)
  else retry_loop link_url link_text max_retries 0 documents_processed.

(** [max_documents and documents_processed >= max_documents] *)
Definition reached_maximum (max_documents : option Z) (documents_processed : nat) : bool :=
  match max_documents with
  | Some m => negb (m =? 0) && (m <=? Z.of_nat documents_processed)
  | None => false
  end.

(** [process_page_downloads]: [n] links of the page remain, [i] is the
    loop index. *)
Fixpoint page_loop (max_documents : option Z) (n i documents_processed : nat)
    : M (nat * bool) :=
  match n with
  | O => mret (documents_processed, false)
  | S n' =>
      if reached_maximum max_documents documents_processed
      then mret (documents_processed, true)
      else
        current_links ← get_result_links;
        match current_links !! i with
        | None => mret (documents_processed, false)            (* break *)
        | Some l =>
            r ← process_single_document_download l documents_processed;
            page_loop max_documents n' (S i) (fst r)
        end
  end.

Definition process_page_downloads (max_documents : option Z)
    (documents_processed : nat) : M (nat * bool) :=
  result_links ← get_result_links;
  page_loop max_documents (length result_links) 0 documents_processed.

(** The main download loop of [run]. *)
Fixpoint download_pages (fuel : nat) (max_documents : option Z)
    (documents_processed : nat) : M unit :=
  match fuel with
  | O => out_of_fuel
  | S fuel' =>
      result_links ← get_result_links;
      match result_links with
      | [] => mret tt
      | _ =>
          _ ← current_url;
          r ← process_page_downloads max_documents documents_processed;
          if snd r : bool then mret tt
          else more ← navigate_to_next_page;
               if more : bool then download_pages fuel' max_documents (fst r)
               else mret tt
      end
  end.

(** [download_missing_documents] *)
Definition hashable_url (pdf : json) : M json :=
  v ← entry_item pdf "url";
  match v with
  | JList _ | JObj _ => raise OtherError
  | _ => mret v
  end.

Fixpoint collect_urls (l : list json) : M (list json) :=
  match l with
  | [] => mret []
  | pdf :: l' => v ← hashable_url pdf; vs ← collect_urls l'; mret (v :: vs)
  end.

Definition download_missing_link (l : link) : M unit :=
  s ← get_state;
  if existsb (fun v => url_eq v (href l)) (missing_urls s) then mret tt
  else
    let link_text := if String.eqb (link_text l) "" then "Unknown"%string
                     else link_text l in
    try_catch
      (_ ← driver_get;
       pdf_url ← extract_pdf_url_from_page;
       _ ← match pdf_url with
           | Some _ =>
               pdf_path ← download_pdf;
               match pdf_path with
               | Some p =>
                   _ ← append_entry (new_entry p (href l) link_text);
                   _ ← modify (fun s =>
                         set_missing_urls (missing_urls s ++ [json_opt_str (href l)]) s);
                   write_tracking pdfs
               | None => mret tt
               end
           | None => mret tt
           end;
       driver_back)
      (fun _ => mret tt).

Fixpoint download_missing_links (links : list link) : M unit :=
  match links with
  | [] => mret tt
  | l :: rest => _ ← download_missing_link l; download_missing_links rest
  end.

Fixpoint download_missing_pages (fuel : nat) : M unit :=
  match fuel with
  | O => out_of_fuel
  | S fuel' =>
      result_links ← get_result_links;
      _ ← download_missing_links result_links;
      more ← navigate_to_next_page;
      if more : bool then download_missing_pages fuel' else mret tt
  end.

Definition download_missing_documents (fuel : nat) : M unit :=
  s ← get_state;
  urls ← collect_urls (pdfs s);
  _ ← modify (set_missing_urls urls);
  _ ← driver_get;
  download_missing_pages fuel.

(** [verify_downloads_complete] *)
Fixpoint count_available (fuel : nat) (total_available : nat) : M nat :=
  match fuel with
  | O => out_of_fuel
  | S fuel' =>
      result_links ← get_result_links;
      let total_available := (total_available + length result_links)%nat in
      more ← navigate_to_next_page;
      if more : bool then count_available fuel' total_available
      else mret total_available
  end.

Fixpoint verify_loop (fuel : nat) (remaining attempt : nat) : M bool :=
  match remaining with
  | O => mret false
  | S remaining' =>
      _ ← driver_get;
      total_available ← count_available fuel 0;
      s ← get_state;
      if (total_available <=? length (pdfs s))%nat then mret true
      else
        _ ← (if (attempt <? max_verification_attempts)%nat
             then download_missing_documents fuel else mret tt);
        verify_loop fuel remaining' (S attempt)
  end.

Definition verify_downloads_complete (fuel : nat) : M bool :=
  verify_loop fuel max_verification_attempts 1.

(** *** The OCR phase *)

Definition document (today : string) (title : json) (body : string)
    (url pdf_path : json) : json :=
  JObj [ ("date", JStr today); ("title", title); ("body", JStr body);
         ("url", url); ("pdf_path", pdf_path) ]%string.

(** [pdf_info['ocr'] = status] for the entry at [idx] of the local list. *)
Definition set_ocr (idx : nat) (status : string) : M unit :=
  s ← get_state;
  match ocr_pdfs s !! idx with
  | Some (JObj d) =>
      _ ← modify (set_ocr_pdfs
                    (<[idx := JObj (dict_set "ocr" (JStr status) d)]> (ocr_pdfs s))
                    (ocr_aliased s));
      emit (EvSetOcr idx status)
  | _ => raise OtherError
  end.

Definition save_results : M unit := emit EvSaveResults.

Definition append_result (doc : json) : M unit :=
  _ ← modify (fun s => set_results (results s ++ [doc]) s);
  emit (EvResult doc).

(** The body of the [for] loop of [process_ocr_phase] for index [idx]. *)
Definition ocr_one (idx ocr_attempts : nat) : M unit :=
  s ← get_state;
  match ocr_pdfs s !! idx with
  | None => mret tt
  | Some pdf_info =>
      status ← entry_get pdf_info "ocr";
      if json_is_str status "complete" then mret tt
      else if json_is_str status "failed" && (max_ocr_attempts <=? ocr_attempts)%nat
      then mret tt
      else
        p ← entry_item pdf_info "path";
        _ ← basename_check p;
        try_catch
          (p ← entry_item pdf_info "path";
           _ ← emit (EvOcr p);
           out ← ask (extract_text_w w);
           doc_title ← entry_item pdf_info "title";
           doc_url ← entry_item pdf_info "url";
           doc_title ← try_catch
             (_ ← driver_get;
              title ← ask_raise (doc_details_w w);
              mret (if String.eqb title "" then doc_title else JStr title))
             (fun _ => mret doc_title);
           _ ← (if negb (String.eqb (body_text out) "") && (50 <? stripped_len out)%nat
                then today ← ask (today_w w);
                     _ ← append_result (document today doc_title (body_text out) doc_url p);
                     set_ocr idx "complete"
                else set_ocr idx "failed");
           _ ← write_tracking ocr_pdfs;
           save_results)
          (fun _ =>
             _ ← set_ocr idx "failed";
             write_tracking ocr_pdfs)
  end.

Fixpoint ocr_for (n idx ocr_attempts : nat) : M unit :=
  match n with
  | O => mret tt
  | S n' => _ ← ocr_one idx ocr_attempts; ocr_for n' (S idx) ocr_attempts
  end.

(** [sum(1 for pdf in downloaded_pdfs if pdf.get('ocr') == status)] *)
Fixpoint count_status (status : string) (l : list json) : M nat :=
  match l with
  | [] => mret O
  | pdf :: l' =>
      v ← entry_get pdf "ocr";
      n ← count_status status l';
      mret (if json_is_str v status then S n else n)
  end.

(** The [while True] loop of [process_ocr_phase]. *)
Fixpoint ocr_loop (fuel : nat) (ocr_attempts : nat) : M unit :=
  match fuel with
  | O => out_of_fuel
  | S fuel' =>
      s ← get_state;
      ocr_complete ← count_status "complete" (ocr_pdfs s);
      ocr_failed ← count_status "failed" (ocr_pdfs s);
      _ ← count_status "pending" (ocr_pdfs s);
      let total_pdfs := length (ocr_pdfs s) in
      if (ocr_complete =? total_pdfs)%nat then mret tt
      else
        stop ← (if (max_ocr_attempts <=? ocr_attempts)%nat && (0 <? ocr_failed)%nat
                then yes ← ask (input_yes_w w); mret (negb yes)
                else mret false);
        if stop : bool then mret tt
        else
          _ ← emit (EvOcrPass ocr_attempts);
          _ ← ocr_for total_pdfs 0 ocr_attempts;
          let ocr_attempts := S ocr_attempts in
          s ← get_state;
          ocr_complete ← count_status "complete" (ocr_pdfs s);
          _ ← count_status "failed" (ocr_pdfs s);
          _ ← count_status "pending" (ocr_pdfs s);
          stop ← (if (ocr_complete <? total_pdfs)%nat
                  then if (ocr_attempts <? max_ocr_attempts)%nat then mret false
                       else yes ← ask (input_yes_w w); mret (negb yes)
                  else mret false);
          if stop : bool then mret tt else ocr_loop fuel' ocr_attempts
  end.

(** [process_ocr_phase] *)
Definition process_ocr_phase (fuel : nat) : M unit :=
  s ← get_state;
  _ ← match tracking_file s with
      | TrackingList l => modify (set_ocr_pdfs l false)
      | _ => modify (set_ocr_pdfs (pdfs s) true)
      end;
  existing ← ask (results_file_w w);
  _ ← match existing with
      | Some (Some l) => modify (set_results l)
      | Some None => modify (set_results [])
      | None => mret tt
      end;
  ocr_loop fuel 0.

(** [verify_all_ocr_complete] *)
Fixpoint incomplete_entries (l : list json) : M (list json) :=
  match l with
  | [] => mret []
  | pdf :: l' =>
      v ← entry_get pdf "ocr";
      rest ← incomplete_entries l';
      mret (if json_is_str v "complete" then rest else pdf :: rest)
  end.

Fixpoint warn_incomplete (l : list json) : M unit :=
  match l with
  | [] => mret tt
  | pdf :: l' =>
      p ← entry_item pdf "path"; _ ← basename_check p;
      _ ← entry_get pdf "ocr";
      warn_incomplete l'
  end.

Definition verify_all_ocr_complete : M bool :=
  s ← get_state;
  match tracking_file s with
  | NoFile => mret true
  | Garbage => raise OtherError
  | TrackingList l =>
      incomplete ← incomplete_entries l;
      match incomplete with
      | [] => mret true
      | _ =>
          _ ← warn_incomplete incomplete;
          yes ← ask (input_yes_w w);
          mret (yes : bool)
      end
  end.

(** [run] *)
Definition run_body (fuel : nat) (max_documents : option Z) : M unit :=
  _ ← ask_raise (setup_driver_w w);
  _ ← driver_get;                                          (* search *)
  _ ← initialize_download_phase;
  s ← get_state;
  _ ← download_pages fuel max_documents (length (pdfs s));
  _ ← verify_downloads_complete fuel;
  _ ← emit EvDownloadPhaseComplete;
  s ← get_state;
  _ ← match pdfs s with
      | [] => mret tt
      | _ =>
          _ ← process_ocr_phase fuel;
          ok ← verify_all_ocr_complete;
          if ok : bool then mret tt else process_ocr_phase fuel
      end;
  s ← get_state;
  match tracking_file s with
  | NoFile => mret tt
  | _ =>
      ok ← verify_all_ocr_complete;
      if ok : bool then
        _ ← modify (set_tracking_file NoFile); emit EvRemoveTracking
      else mret tt
  end.

Definition run (fuel : nat) (max_documents : option Z) : M unit :=
  try_catch (run_body fuel max_documents) (fun _ => save_results).

End Scraper.

End FbiVault.

(** ** The command lines of the scripts *)

Module Cli.
Import Json.

(** The twelve source files. *)
Inductive script :=
| CiaRdp96App | CiaJsonSearch | FbiVaultApp | FedReserveScrapeApp
| FilesFromMbox | ConsolidateFilesIntoSinglePdf | PdfRepair | PdfCompressScript
| JsonConsolidater | JsonEmailSearch | StateDepAllowances | SummarizeGermData.

Inductive value_type := TStr | TInt.

Inductive arg_kind :=
| Positional                    (* [add_argument('term')] *)
| ArgvDefault                   (* [sys.argv[i]] read when present *)
| ValueOption (ty : value_type) (* [add_argument('--max', type=int)] *)
| FlagOption.                   (* [action='store_true'] *)

Record argument := { arg_name : string; dest : string; kind : arg_kind }.

(** The four [add_argument] calls of [main] in fbi_vault_scraper/app.py. *)
Definition fbi_parser : list argument :=
  [ {| arg_name := "term"; dest := "term"; kind := Positional |};
    {| arg_name := "--max"; dest := "max"; kind := ValueOption TInt |};
    {| arg_name := "--download-dir"; dest := "download_dir"; kind := ValueOption TStr |};
    {| arg_name := "--skip-deps"; dest := "skip_deps"; kind := FlagOption |} ].

(** The command-line arguments each script reads. *)
Definition cli_arguments (sc : script) : list argument :=
  match sc with
  | FbiVaultApp => fbi_parser
  | ConsolidateFilesIntoSinglePdf =>
      [ {| arg_name := "source"; dest := "source"; kind := ArgvDefault |};
        {| arg_name := "dest"; dest := "dest"; kind := ArgvDefault |} ]
  | _ => []
  end.

(** Whether the script calls [input]. *)
Definition prompts (sc : script) : bool :=
  match sc with
  | FedReserveScrapeApp | FbiVaultApp => true
  | _ => false
  end.

(** *** [parser.parse_args] for a parser made of such arguments

    Long options are matched by their exact name, an option with a value
    takes the next word, other words fill the positionals in order.
    [None] stands for the error exit of [argparse]. *)
Fixpoint digits_value (s : string) (acc : Z) : option Z :=
  match s with
  | EmptyString => Some acc
  | String c s' =>
      let n := Z.of_N (N_of_ascii c) in
      if (48 <=? n) && (n <=? 57) then digits_value s' (10 * acc + (n - 48))
      else None
  end.

Definition parse_int (s : string) : option Z :=
  match s with
  | EmptyString => None
  | String "-" s' => if String.eqb s' "" then None else Z.opp <$> digits_value s' 0
  | _ => digits_value s 0
  end.

Definition convert (ty : value_type) (word : string) : option json :=
  match ty with
  | TStr => Some (JStr word)
  | TInt => JNum <$> parse_int word
  end.

Definition is_option_word (word : string) : bool := String.prefix "--" word.

Definition find_option (parser : list argument) (word : string) : option argument :=
  List.find (fun a => String.eqb (arg_name a) word) parser.

Definition default_value (a : argument) : option json :=
  match kind a with
  | Positional | ArgvDefault => None
  | ValueOption _ => Some JNull
  | FlagOption => Some (JBool false)
  end.

Definition defaults (parser : list argument) : gmap string json :=
  fold_right (fun a ns => match default_value a with
                          | Some v => <[dest a := v]> ns
                          | None => ns
                          end) ∅ parser.

Fixpoint parse_words (parser positionals : list argument) (argv : list string)
    (ns : gmap string json) : option (gmap string json) :=
  match argv with
  | [] => match positionals with [] => Some ns | _ => None end
  | word :: rest =>
      if is_option_word word then
        match find_option parser word with
        | Some a =>
            match kind a with
            | FlagOption => parse_words parser positionals rest (<[dest a := JBool true]> ns)
            | ValueOption ty =>
                match rest with
                | value :: rest' =>
                    match convert ty value with
                    | Some v => parse_words parser positionals rest' (<[dest a := v]> ns)
                    | None => None
                    end
                | [] => None
                end
            | _ => None
            end
        | None => None
        end
      else
        match positionals with
        | a :: positionals' =>
            parse_words parser positionals' rest (<[dest a := JStr word]> ns)
        | [] => None
        end
  end.

Definition is_positional (a : argument) : bool :=
  match kind a with Positional => true | _ => false end.

Definition parse_args (parser : list argument) (argv : list string)
    : option (gmap string json) :=
  parse_words parser (List.filter is_positional parser) argv (defaults parser).

End Cli.

(** ** Whitespace, labels and report text

    [extract_tags] of 1_files_from_mbox.py (the consolidation script has
    the same function) and [clean_text] of json_email_search.py. *)

Module Labels.
Import PyStr.

(** The code points for which [str.isspace] holds; [str.strip()] without
    argument and the class [\s] of [re] on [str] patterns use the same
    set. *)
Definition whitespace : pystr :=
  [9; 10; 11; 12; 13; 28; 29; 30; 31; 32; 133; 160; 5760;
   8192; 8193; 8194; 8195; 8196; 8197; 8198; 8199; 8200; 8201; 8202;
   8232; 8233; 8239; 8287; 12288]%N.

Definition isspace (c : N) : bool := char_in c whitespace.

Definition space : N := 32.
Definition comma : N := 44.

(** [s.split(c)] for a one-character separator: never empty. *)
Fixpoint split_on (c : N) (s : pystr) : list pystr :=
  match s with
  | [] => [[]]
  | x :: s' =>
      if N.eqb x c then [] :: split_on c s'
      else match split_on c s' with
           | h :: t => (x :: h) :: t
           | [] => [[x]]
           end
  end.

(** [s.startswith(prefix)] *)
Fixpoint startswith (s prefix : pystr) : bool :=
  match prefix, s with
  | [], _ => true
  | p :: prefix', x :: s' => N.eqb x p && startswith s' prefix'
  | _ :: _, [] => false
  end.

Definition exclude_labels : list pystr :=
  map cp ["Inbox"; "Sent"; "Draft"; "Spam"; "Trash"; "Important"; "Starred"; "Chat"]%string.

Definition kept_label (tag : pystr) : bool :=
  negb (existsb (pystr_eqb tag) exclude_labels)
  && negb (startswith tag (cp "Category_")).

(** [extract_tags]; [x_labels] is [message.get('X-Gmail-Labels', '')]. *)
Definition extract_tags (x_labels : pystr) : list pystr :=
  let tags :=
    if bool_decide (x_labels = []) then []
    else
      let raw_tags := map (strip whitespace) (split_on comma x_labels) in
      List.filter kept_label raw_tags in
  if bool_decide (tags = []) then [cp "Unfiled"] else tags.

(** [re.sub(r'\s+', ' ', s)]: every run of whitespace becomes one space. *)
Fixpoint sub_spaces (s : pystr) : pystr :=
  match s with
  | [] => []
  | x :: s' =>
      if isspace x
      then match s' with
           | y :: _ => if isspace y then sub_spaces s' else space :: sub_spaces s'
           | [] => [space]
           end
      else x :: sub_spaces s'
  end.

(** [clean_text] for a string argument. *)
Definition clean_text (text : pystr) : pystr :=
  if bool_decide (text = []) then []
  else strip whitespace (sub_spaces text).

End Labels.

(** ** File names made from titles and search terms

    [create_pdf_filename] and [save_results] of fbi_vault_scraper/app.py,
    the name [process_ocr_phase] reads the results from, and the file
    name and the titles of [search_fred_and_display] in
    fed_reserve_scrape_app.py. *)

Module SafeName.
Import PyStr Labels.

Section Alnum.
(** [str.isalnum] of one character.  The ASCII part is written out; for
    the other code points it is the table [unicode_alnum] of the Unicode
    database. *)
Variable unicode_alnum : N -> bool.

Definition isalnum (c : N) : bool :=
  if (c <? 128)%N
  then ((48 <=? c) && (c <=? 57) || (65 <=? c) && (c <=? 90)
        || (97 <=? c) && (c <=? 122))%N
  else unicode_alnum c.

(** [c.isalnum() or c in (' ', '-', '_')] *)
Definition allowed (c : N) : bool := isalnum c || char_in c [32; 45; 95]%N.

(** ["".join(c for c in s if ...).rstrip()] *)
Definition safe (s : pystr) : pystr :=
  rstrip whitespace (List.filter allowed s).

(** [create_pdf_filename]; [stamp1] and [stamp2] are the two readings of
    [datetime.now().strftime('%Y%m%d_%H%M%S')]. *)
Definition create_pdf_filename (title stamp1 stamp2 : pystr) : pystr :=
  let safe_title := safe title in
  let safe_title :=
    if bool_decide (safe_title = []) then cp "document_" ++ stamp1 else safe_title in
  safe_title ++ cp "_" ++ stamp2 ++ cp ".pdf".

(** The file [save_results] writes. *)
Definition saved_results_name (search_term : pystr) : pystr :=
  cp "fbi_vault_" ++ safe search_term ++ cp ".json".

(** The file [process_ocr_phase] loads the earlier results from. *)
Definition loaded_results_name (search_term : pystr) : pystr :=
  cp "fbi_vault_" ++ search_term ++ cp ".json".

(** The CSV file of [search_fred_and_display]. *)
Definition search_results_filename (search_term timestamp : pystr) : pystr :=
  let safe_term := safe search_term in
  let safe_term := slice_to safe_term 50 in
  if bool_decide (safe_term = []) then cp "search_" ++ timestamp ++ cp ".csv"
  else safe_term ++ cp "_" ++ timestamp ++ cp ".csv".

End Alnum.

(** The title as [search_fred_and_display] lists it. *)
Definition display_title (title : pystr) : pystr :=
  if len title >? 60 then slice_to title 57 ++ cp "..." else title.

End SafeName.

(** ** fed_res_eco_data/fed_reserve_scrape_app.py: the dialogue of [main] *)

Module FredApp.

Inductive fred_event :=
| EvSearch (search_term : string)            (* the request of [search_fred_and_display] *)
| EvDownloadSeries (series_id : string).     (* a call of [download_series_by_id] *)

(** How the script ends: one of the two [break]s, [EOFError] from
    [input] when standard input is used up, or another exception that
    nothing catches. *)
Inductive ending := Goodbye | EndOfInput | Crashed.

Section Main.
(** [str.strip], [str.upper] and [str.lower] of the runtime. *)
Variables strip upper lower : string -> string.

(** The ids of the series that a search returns, for the number of
    events before it and the term: [Some []] when nothing is found or the
    request fails, [None] when an exception other than
    [RequestException] escapes. *)
Variable search_fred : nat -> string -> option (list string).

(** Whether [download_series_by_id] returns ([false]: it raises), for
    the number of events before the call and the series id. *)
Variable download_returns : nat -> string -> bool.

(** The loop of [main]; [inputs] are the lines that standard input still
    holds. *)
Fixpoint main (inputs : list string) (trace : list fred_event)
    : ending * list fred_event :=
  match inputs with
  | [] => (EndOfInput, trace)
  | line1 :: rest1 =>
    let search_term := strip line1 in
    if String.eqb search_term "" then main rest1 trace
    else
      let search_results := search_fred (length trace) search_term in
      let trace := trace ++ [EvSearch search_term] in
      match search_results with
      | None => (Crashed, trace)
      | Some [] => main rest1 trace
      | Some valid_ids =>
        match rest1 with
        | [] => (EndOfInput, trace)
        | line2 :: rest2 =>
          let series_input := upper (strip line2) in
          if String.eqb series_input "EXIT" then (Goodbye, trace)
          else if String.eqb series_input "NEW" then main rest2 trace
          else if bool_decide (series_input ∈ valid_ids) then
            let returns := download_returns (length trace) series_input in
            let trace := trace ++ [EvDownloadSeries series_input] in
            if returns then
              match rest2 with
              | [] => (EndOfInput, trace)
              | line3 :: rest3 =>
                  if String.eqb (lower (strip line3)) "y" then main rest3 trace
                  else (Goodbye, trace)
              end
            else (Crashed, trace)
          else
            match rest2 with
            | [] => (EndOfInput, trace)
            | line3 :: rest3 =>
              if String.eqb (lower (strip line3)) "y" then
                let returns := download_returns (length trace) series_input in
                let trace := trace ++ [EvDownloadSeries series_input] in
                if returns then
                  match rest3 with
                  | [] => (EndOfInput, trace)
                  | line4 :: rest4 =>
                      if String.eqb (lower (strip line4)) "y" then main rest4 trace
                      else (Goodbye, trace)
                  end
                else (Crashed, trace)
              else
                match rest3 with
                | [] => (EndOfInput, trace)
                | line4 :: rest4 =>
                    if String.eqb (lower (strip line4)) "y" then main rest4 trace
                    else (Goodbye, trace)
                end
            end
        end
      end
  end.

End Main.

End FredApp.

(** ** 5_json_consolidater.py: the loop of [main] *)

Module JsonCopy.
Import Json EmailSearch.

Record copy_stats := {
  copied_count : nat;
  skipped_count : nat;
  error_count : nat
}.

(** What [shutil.copy2] does for a file: it copies it, or it raises
    after leaving [left] at the destination ([None]: nothing). *)
Inductive copy_result := CopyOk | CopyFails (left : option string).

Section Main.
(** [json.load] on the text of a file: [None] when it raises. *)
Variable decode : string -> option json.
Variable copy2 : string -> copy_result.

(** [load_json_file]: [None] for a file that cannot be read or decoded. *)
Definition load_json_file (src : directory) (rel_path : string) : option json :=
  match src !! rel_path with
  | Some text => decode text
  | None => None
  end.

(** The loop over [json_files]; paths are relative to the source and to
    the destination directory. *)
Fixpoint copy_loop (json_files : list string) (src dst : directory)
    (st : copy_stats) (all_metadata : pydict) : directory * copy_stats * pydict :=
  match json_files with
  | [] => (dst, st, all_metadata)
  | rel_path :: rest =>
      let all_metadata :=
        match load_json_file src rel_path with
        | Some metadata =>
            if truthy metadata then dict_set rel_path metadata all_metadata
            else all_metadata
        | None => all_metadata
        end in
      match dst !! rel_path with
      | Some _ =>
          copy_loop rest src dst
            {| copied_count := copied_count st;
               skipped_count := S (skipped_count st);
               error_count := error_count st |} all_metadata
      | None =>
          match src !! rel_path, copy2 rel_path with
          | Some text, CopyOk =>
              copy_loop rest src (<[rel_path := text]> dst)
                {| copied_count := S (copied_count st);
                   skipped_count := skipped_count st;
                   error_count := error_count st |} all_metadata
          | _, CopyFails (Some partial) =>
              copy_loop rest src (<[rel_path := partial]> dst)
                {| copied_count := copied_count st;
                   skipped_count := skipped_count st;
                   error_count := S (error_count st) |} all_metadata
          | _, _ =>
              copy_loop rest src dst
                {| copied_count := copied_count st;
                   skipped_count := skipped_count st;
                   error_count := S (error_count st) |} all_metadata
          end
      end
  end.

(** [main] from the test of [json_files] on: [None] when there is no
    JSON file and [main] returns before the loop; else the destination
    tree as the loop leaves it, the counters of the summary and the
    value written to master_metadata.json. *)
Definition copy_and_consolidate (now : string) (json_files : list string)
    (src dst : directory) : option (directory * copy_stats * json) :=
  match json_files with
  | [] => None
  | _ =>
      let '(dst, st, all_metadata) :=
        copy_loop json_files src dst
          {| copied_count := 0; skipped_count := 0; error_count := 0 |} [] in
      Some (dst, st, create_master_json now all_metadata)
  end.

End Main.

End JsonCopy.

(** ** cia_rdp96_app.py: the document id in [create_cia_json] *)

Module CiaJson.
Import StrUtil.

(** [doc_id = filename.replace(".html", "")], the key under which
    [create_cia_json] files the title and body of a saved page. *)
Definition json_doc_id (filename : string) : string := replace ".html" "" filename.

End CiaJson.

(** ** 2_consolidate_files_into_single_pdf.py: [sanitize_filename] *)

Module ConsolidateNames.
Import PyStr MboxExport.

(** The shorter [sanitize_filename] of the consolidation script, used
    for the names of the pages it makes for attachments. *)
Definition sanitize_filename (filename : pystr) : pystr :=
  let filename := sub_invalid filename in
  let filename := sub_underscores filename in
  let filename := strip (cp " .") filename in
  if bool_decide (filename = []) then cp "unnamed" else filename.

End ConsolidateNames.

(** * Part II: properties *)

(** ** sanitize_filename *)

Module MboxExportFacts.
Import PyStr MboxExport.

(** *** What holds of every result *)

(** Neither one of the nine invalid characters nor a control character. *)
Definition clean (c : N) : Prop :=
  char_in c invalid_chars = false /\ is_control c = false.

Lemma clean_cp_unnamed : Forall clean (cp "unnamed").
Proof. repeat constructor. Qed.

Lemma clean_cp_dots : Forall clean (cp "...").
Proof. repeat constructor. Qed.

Lemma clean_underscore : clean underscore.
Proof. by split. Qed.

Lemma sub_invalid_valid (s : pystr) :
  Forall (fun c => char_in c invalid_chars = false) (sub_invalid s).
Proof.
  unfold sub_invalid. apply Forall_fmap, Forall_forall. intros c _.
  unfold compose. destruct (char_in c invalid_chars) eqn:Hc; [reflexivity | exact Hc].
Qed.

Lemma sub_control_clean (s : pystr) :
  Forall (fun c => char_in c invalid_chars = false) s -> Forall clean (sub_control s).
Proof.
  intros Hs. unfold sub_control. apply Forall_forall. intros c Hc.
  apply list_elem_of_filter in Hc as [Hctl Hin].
  split; [|exact Hctl]. by eapply Forall_forall in Hs.
Qed.

Lemma sub_underscores_Forall (P : N -> Prop) (s : pystr) :
  Forall P s -> Forall P (sub_underscores s).
Proof.
  induction 1 as [|x s Hx Hs IH]; simpl; [constructor|].
  destruct (N.eqb x underscore); [|by constructor].
  destruct s as [|y s']; [by repeat constructor|].
  destruct (N.eqb y underscore); [exact IH | by constructor].
Qed.

Lemma lstrip_Forall (P : N -> Prop) chars (s : pystr) :
  Forall P s -> Forall P (lstrip chars s).
Proof.
  induction 1 as [|x s Hx Hs IH]; simpl; [constructor|].
  destruct (char_in x chars); [exact IH | by constructor].
Qed.

Lemma strip_Forall (P : N -> Prop) chars (s : pystr) :
  Forall P s -> Forall P (strip chars s).
Proof.
  intros Hs. unfold strip, rstrip.
  apply Forall_rev, lstrip_Forall, Forall_rev, lstrip_Forall, Hs.
Qed.

Lemma splitext_Forall (P : N -> Prop) (p : pystr) :
  Forall P p -> Forall P (splitext p).1 /\ Forall P (splitext p).2.
Proof.
  intros Hp. unfold splitext, slice_to, slice_from.
  destruct (_ && _); simpl; split; auto using Forall_take, Forall_drop, Forall_nil_2.
Qed.

(** Whatever the input: the result is not empty, holds none of the
    invalid characters and no control character, and it has at most
    100 characters or is a name of at most 95 characters, three dots and
    an extension. *)
Lemma sanitize_filename_clean (unicode_upper : N -> pystr) (filename : pystr) :
  let result := sanitize_filename unicode_upper filename in
  result <> [] /\ Forall clean result /\
  (len result <= 100 \/
   exists name ext, result = name ++ cp "..." ++ ext /\ len name <= 95).
Proof.
  unfold sanitize_filename.
  case_bool_decide as Hempty; [by repeat split; [|apply clean_cp_unnamed|left]|].
  set (stripped := strip _ _).
  assert (Hstripped : Forall clean stripped).
  { apply strip_Forall, sub_underscores_Forall, sub_control_clean, sub_invalid_valid. }
  set (named := if bool_decide (stripped = []) then cp "unnamed" else stripped).
  assert (Hnamed : Forall clean named /\ named <> []).
  { unfold named. case_bool_decide; [split; [apply clean_cp_unnamed | done] | done]. }
  destruct Hnamed as [Hclean Hne].
  set (guarded := if in_reserved _ then underscore :: named else named).
  assert (Hguarded : Forall clean guarded /\ guarded <> []).
  { unfold guarded. destruct (in_reserved _); [|done].
    split; [constructor; [apply clean_underscore | exact Hclean] | done]. }
  clearbody guarded. clear - Hguarded. destruct Hguarded as [Hclean Hne].
  destruct (len guarded >? 100) eqn:Hlen.
  - destruct (splitext guarded) as [name ext] eqn:Hsplit.
    pose proof (splitext_Forall clean guarded Hclean) as [Hname Hext].
    rewrite Hsplit in Hname, Hext. simpl in Hname, Hext.
    split; [by destruct (slice_to name 95)|].
    split.
    + apply Forall_app. split; [by apply Forall_take|].
      apply Forall_app. split; [apply clean_cp_dots | exact Hext].
    + right. exists (slice_to name 95), ext. split; [reflexivity|].
      unfold len, slice_to. rewrite length_take. lia.
  - split; [exact Hne|]. split; [exact Hclean|]. left.
    rewrite Z.gtb_ltb in Hlen. by apply Z.ltb_ge in Hlen.
Qed.

(** A name of 97 letters with the extension [.pdf]: 101 characters. *)
Definition long_pdf_name : pystr := repeat 97%N 97 ++ cp ".pdf".

(** A one-letter name with an extension of 100 letters: 102 characters. *)
Definition long_extension_name : pystr := cp "a." ++ repeat 98%N 100.

(** C10, at a failing input.  For the 101-character name [long_pdf_name],
    which has nothing to replace or strip, [sanitize_filename] returns 102
    characters: the first 95 of the name, three dots and the whole
    extension.  The bound of 100 characters does not hold. *)
Theorem sanitize_filename_exceeds_100 (unicode_upper : N -> pystr) :
  len long_pdf_name = 101 /\
  sanitize_filename unicode_upper long_pdf_name
    = repeat 97%N 95 ++ cp "..." ++ cp ".pdf" /\
  len (sanitize_filename unicode_upper long_pdf_name) = 102.
Proof. repeat split; vm_compute; reflexivity. Qed.

(** When the extension is the long part, the result is longer than the
    input. *)
Lemma sanitize_filename_lengthens (unicode_upper : N -> pystr) :
  len long_extension_name = 102 /\
  len (sanitize_filename unicode_upper long_extension_name) = 105.
Proof. split; vm_compute; reflexivity. Qed.

End MboxExportFacts.

(** ** The search over the consolidated master file *)

Module EmailSearchFacts.
Import Outcome Json EmailSearch.

(** A per-e-mail JSON object has no [emails] key. *)
Lemma email_json_no_emails (r : email_record) :
  py_get (email_json r) "emails" (JList []) = Returned (JList []).
Proof. reflexivity. Qed.

Lemma email_json_truthy (r : email_record) : truthy (email_json r) = true.
Proof. reflexivity. Qed.

(** The values of a dictionary all satisfy [P]. *)
Definition values_all (P : json -> Prop) (d : pydict) : Prop :=
  Forall (fun kv => P (snd kv)) d.

Lemma dict_set_values_all (P : json -> Prop) k v d :
  P v -> values_all P d -> values_all P (dict_set k v d).
Proof.
  intros Hv Hd. induction Hd as [|[k' v'] d' Hkv Hd' IH]; simpl.
  - repeat constructor. exact Hv.
  - destruct (String.eqb k k').
    + constructor; [exact Hv | exact Hd'].
    + constructor; [exact Hkv | exact IH].
Qed.

Definition is_email_json (j : json) : Prop := exists r, j = email_json r.

Definition loaded (file : string * option email_record) : string * option json :=
  (fst file, email_json <$> snd file).

Lemma collect_metadata_emails files acc :
  values_all is_email_json acc ->
  values_all is_email_json (collect_metadata (map loaded files) acc).
Proof.
  revert acc. induction files as [|[p [r|]] files IH]; intros acc Hacc; simpl.
  - exact Hacc.
  - apply IH. apply dict_set_values_all; [by exists r | exact Hacc].
  - apply IH. exact Hacc.
Qed.

Lemma master_files_emails (all_metadata files : pydict) :
  values_all is_email_json all_metadata ->
  values_all is_email_json files ->
  values_all is_email_json
    (fold_left (fun files '(rel_path, metadata) => dict_set rel_path metadata files)
               all_metadata files).
Proof.
  intros Hall. revert files.
  induction Hall as [|[p m] rest Hm Hrest IH]; intros files Hfiles; simpl.
  - exact Hfiles.
  - apply IH. apply dict_set_values_all; [exact Hm | exact Hfiles].
Qed.

Lemma search_files_no_emails lower terms files matches :
  values_all is_email_json files ->
  search_files lower terms files matches = Returned matches.
Proof.
  intros Hfiles. induction Hfiles as [|[p m] rest [r Hr] Hrest IH]; simpl.
  - reflexivity.
  - simpl in Hr. subst m. exact IH.
Qed.

(** From the per-e-mail JSON files of 1_files_from_mbox.py: whatever
    e-mails were exported (some of the files may even fail to load), and
    whatever the search terms are, the search loop run on the master
    file ends without an exception and with no match. *)
Lemma search_master_finds_nothing (lower : string -> string) (now : string)
    (files : list (string * option email_record)) (search_terms : list string) :
  search lower (consolidate now (map loaded files)) search_terms = Returned [].
Proof.
  unfold search, consolidate, create_master_json. simpl.
  apply search_files_no_emails.
  apply master_files_emails; [|constructor].
  apply collect_metadata_emails. constructor.
Qed.

(** *** From the monthly JSON files of the consolidation script *)

(** One e-mail of a month: what step 1 exported and what step 2 adds. *)
Record month_entry := {
  exported : email_record;
  new_pdf_name : string;
  original_folder : string;
  attachments : list string
}.

Definition entry_json (e : month_entry) : json :=
  JObj (consolidated_meta (email_fields (exported e)) (new_pdf_name e)
          (original_folder e) (attachments e)).

(** The text the search looks at, and whether all terms occur in it. *)
Definition email_text (lower : string -> string) (r : email_record) : string :=
  lower (join " " [subject r; email_body r; from_ r; to_ r; join " " (tags r)]).

Definition hit (lower : string -> string) (search_terms : list string)
    (e : month_entry) : bool :=
  forallb (fun term => contains term (email_text lower (exported e)))
          (map lower search_terms).

Lemma mapM_as_str (l : list string) : mapM as_str (map JStr l) = Returned l.
Proof. induction l as [|x l IH]; simpl; [done | by rewrite IH]. Qed.

Lemma searchable_text_entry lower (e : month_entry) :
  searchable_text lower (entry_json e) = Returned (email_text lower (exported e)).
Proof.
  unfold searchable_text, entry_json, consolidated_meta, email_fields. simpl.
  by rewrite mapM_as_str.
Qed.

Lemma search_emails_hits lower search_terms (es : list month_entry) :
  forall matches,
    search_emails lower (map lower search_terms) (map entry_json es) matches
    = Returned (matches ++ map entry_json (List.filter (hit lower search_terms) es)).
Proof.
  induction es as [|e es IH]; intros matches; simpl.
  - by rewrite app_nil_r.
  - rewrite searchable_text_entry. simpl. rewrite IH. unfold hit at 2.
    destruct (forallb _ _); simpl; [by rewrite <- app_assoc | done].
Qed.

Lemma search_month_file lower now rel_path month_name generated
    (es : list month_entry) (search_terms : list string) :
  search lower
    (consolidate now
       [(rel_path, Some (month_json month_name generated (map entry_json es)))])
    search_terms
  = Returned (map entry_json (List.filter (hit lower search_terms) es)).
Proof.
  unfold search, consolidate, create_master_json. simpl.
  by rewrite search_emails_hits.
Qed.

(** The general statement of C9: no master file the consolidater writes
    ever yields a match. *)
Definition search_never_matches : Prop :=
  forall (lower : string -> string) (now : string)
         (json_files : list (string * option json)) (search_terms : list string),
    search lower (consolidate now json_files) search_terms = Returned [].

(** An e-mail of January 2024 as the consolidation script lists it in
    2024-Jan_consolidated.json. *)
Definition sample_entry : month_entry :=
  {| exported :=
       {| from_ := "alice@example.org"; to_ := "bob@example.org";
          date := "2024-01-15 09:30:00"; subject := "DCOD minutes";
          tags := ["Work"]; email_body := "The NGC review is on Friday.";
          attachment_list := []; pdf_filename := "20240115_DCOD minutes.pdf";
          date_str := Some "Mon, 15 Jan 2024 09:30:00 +0000";
          folder_name := "20240115_DCOD minutes" |};
     new_pdf_name := "20240115_DCOD minutes_complete.pdf";
     original_folder := "20240115_DCOD minutes";
     attachments := [] |}%string.

Definition sample_master : json :=
  consolidate "2024-02-01T00:00:00"
    [("2024-Jan/2024-Jan_consolidated.json"%string,
      Some (month_json "2024-Jan" "2024-01-31T00:00:00" [entry_json sample_entry]))].



End EmailSearchFacts.

(** ** Strings as character lists *)

Module StrFacts.

Lemma chars_app (a b : string) :
  list_ascii_of_string (a +:+ b) = list_ascii_of_string a ++ list_ascii_of_string b.
Proof. induction a as [|c a IH]; simpl; [reflexivity | by rewrite IH]. Qed.

Lemma chars_inj (a b : string) :
  list_ascii_of_string a = list_ascii_of_string b -> a = b.
Proof.
  intros H. rewrite <- (string_of_list_ascii_of_string a),
    <- (string_of_list_ascii_of_string b). by rewrite H.
Qed.

Lemma chars_length (a : string) :
  length (list_ascii_of_string a) = String.length a.
Proof. induction a as [|c a IH]; simpl; [reflexivity | by rewrite IH]. Qed.

Lemma app_inv_tail_str (a b c : string) : a +:+ c = b +:+ c -> a = b.
Proof.
  intros H. apply chars_inj. apply (f_equal list_ascii_of_string) in H.
  rewrite !chars_app in H. by apply app_inv_tail in H.
Qed.

Lemma app_inv_head_str (a b c : string) : c +:+ a = c +:+ b -> a = b.
Proof.
  intros H. apply chars_inj. apply (f_equal list_ascii_of_string) in H.
  rewrite !chars_app in H. by apply app_inv_head in H.
Qed.

Lemma app_length_str (a b : string) :
  String.length (a +:+ b) = (String.length a + String.length b)%nat.
Proof. by rewrite <- !chars_length, chars_app, length_app. Qed.

End StrFacts.

(** ** The two loops of the CIA scraper *)

Module CiaScraperFacts.
Import StrUtil CiaScraper StrFacts.

Lemma layer_0_file_inj (p q : Z) : layer_0_file p = layer_0_file q -> p = q.
Proof.
  unfold layer_0_file. intros H.
  apply app_inv_head_str, app_inv_tail_str in H. by apply (inj pretty) in H.
Qed.

(** *** Layer 1 *)

Lemma scrape_loop_requested driver_get urls : forall i layer_1 requested,
  snd (scrape_loop driver_get i urls layer_1 requested) = requested ++ urls.
Proof.
  induction urls as [|url rest IH]; intros i layer_1 requested; simpl.
  - by rewrite app_nil_r.
  - destruct (driver_get i url); rewrite IH, <- app_assoc; reflexivity.
Qed.

Lemma scrape_loop_keeps_files driver_get urls : forall i layer_1 requested f,
  is_Some (layer_1 !! f) ->
  is_Some (fst (scrape_loop driver_get i urls layer_1 requested) !! f).
Proof.
  induction urls as [|url rest IH]; intros i layer_1 requested f Hf; simpl.
  - exact Hf.
  - destruct (driver_get i url); apply IH; [|exact Hf].
    destruct (decide (layer_1_file url = f)) as [->|Hne].
    + rewrite lookup_insert_eq. eauto.
    + by rewrite lookup_insert_ne.
Qed.

Lemma scrape_loop_saves driver_get urls : forall i layer_1 requested k url page_source,
  urls !! k = Some url ->
  driver_get (i + k)%nat url = Some page_source ->
  is_Some (fst (scrape_loop driver_get i urls layer_1 requested) !! layer_1_file url).
Proof.
  induction urls as [|u rest IH]; intros i layer_1 requested k url src Hk Hget;
    [discriminate|].
  destruct k as [|k]; simpl in *.
  - injection Hk as ->. rewrite Nat.add_0_r in Hget. rewrite Hget.
    apply scrape_loop_keeps_files. rewrite lookup_insert_eq. eauto.
  - replace (i + S k)%nat with (S i + k)%nat in Hget by lia.
    destruct (driver_get i u); eapply IH; eauto.
Qed.

(** *** Layer 0 *)

Lemma scrape_search_loop_stops driver_get fuel : forall page_no layer_0 p fs,
  scrape_search_loop driver_get fuel page_no layer_0 = (Stopped, p, fs) ->
  page_no <= p /\ driver_get p = None /\
  (forall q, page_no <= q < p -> driver_get q <> None) /\
  (forall q, p <= q -> fs !! layer_0_file q = layer_0 !! layer_0_file q).
Proof.
  induction fuel as [|fuel IH]; intros page_no layer_0 p fs H; simpl in H;
    [discriminate|].
  destruct (driver_get page_no) as [src|] eqn:Hget.
  - apply IH in H as (Hle & Hnone & Hbefore & Hafter).
    split; [lia|]. split; [exact Hnone|]. split.
    + intros q Hq. destruct (decide (q = page_no)) as [->|Hne];
        [congruence | apply Hbefore; lia].
    + intros q Hq. rewrite Hafter by lia.
      apply lookup_insert_ne. intros Heq. apply layer_0_file_inj in Heq. lia.
  - injection H as <- <-. split; [lia|]. split; [exact Hget|].
    split; [intros q Hq; lia | reflexivity].
Qed.

(** The property C2 claims of the layer-0 loop: a page that can be
    fetched is saved even when an earlier page failed. *)
Definition layer_0_survives_failures : Prop :=
  forall (driver_get : Z -> option string) (fuel : nat) (p : Z) (page_source : string),
    first_page <= p < first_page + Z.of_nat fuel ->
    driver_get p = Some page_source ->
    (scrape_search_pages driver_get fuel ∅).2 !! layer_0_file p = Some page_source.

(** Page 4093 fails, every other page can be fetched. *)
Definition fails_at_4093 (page_no : Z) : option string :=
  if page_no =? 4093 then None else Some "<html>"%string.




(** *** Resuming layer 1 *)

(** No dot in the string: the form of the document ids of the reading
    room (cia-rdp96-00788r001700210016-5 and the like). *)
Fixpoint no_dot (s : string) : bool :=
  match s with
  | EmptyString => true
  | String c s' => negb (Ascii.eqb c ".") && no_dot s'
  end.

Lemma substring_whole (b : string) : substring 0 (String.length b) b = b.
Proof. induction b as [|c b IH]; simpl; [reflexivity | by rewrite IH]. Qed.

Lemma substring_app_tail (a b : string) :
  substring (String.length a) (String.length b) (a +:+ b) = b.
Proof. induction a as [|c a IH]; simpl; [apply substring_whole | exact IH]. Qed.

Lemma endswith_app (a b : string) : endswith (a +:+ b) b = true.
Proof.
  unfold endswith. rewrite app_length_str.
  replace (String.length a + String.length b - String.length b)%nat
    with (String.length a) by lia.
  rewrite substring_app_tail, String.eqb_refl, andb_true_r.
  apply Nat.leb_le. lia.
Qed.

(** Stripping [.html] from the file name of an id without a dot gives
    the id back. *)
Lemma replace_html_no_dot (d : string) :
  no_dot d = true -> replace ".html" "" (d +:+ ".html") = d.
Proof.
  unfold replace. induction d as [|c d IH]; intros Hd; [reflexivity|].
  simpl in Hd. apply andb_true_iff in Hd as [Hc Hd].
  change (String c d +:+ ".html") with (String c (d +:+ ".html")).
  cbn [replace_go String.prefix].
  destruct (ascii_dec "." c) as [<-|Hne]; [discriminate Hc|].
  rewrite IH by exact Hd. reflexivity.
Qed.

Lemma layer_1_file_inj (u v : string) :
  layer_1_file u = layer_1_file v -> doc_id u = doc_id v.
Proof. unfold layer_1_file. apply app_inv_tail_str. Qed.

Lemma saved_is_downloaded (layer_1 : directory) (url : string) :
  no_dot (doc_id url) = true ->
  is_Some (layer_1 !! layer_1_file url) ->
  doc_id url ∈ downloaded_ids layer_1.
Proof.
  intros Hd Hsaved. unfold downloaded_ids.
  apply elem_of_list_to_set, list_elem_of_fmap.
  exists (layer_1_file url). split.
  - unfold layer_1_file. by rewrite replace_html_no_dot.
  - apply list_elem_of_filter. split.
    + unfold layer_1_file. apply endswith_app.
    + by apply elem_of_elements, elem_of_dom.
Qed.

Lemma scrape_loop_other driver_get f urls : forall i layer_1 requested,
  Forall (fun u => layer_1_file u <> f) urls ->
  (scrape_loop driver_get i urls layer_1 requested).1 !! f = layer_1 !! f.
Proof.
  induction urls as [|u rest IH]; intros i layer_1 requested Hall; simpl;
    [reflexivity|].
  apply Forall_cons in Hall as [Hu Hrest].
  destruct (driver_get i u); rewrite IH by exact Hrest;
    [by rewrite lookup_insert_ne | reflexivity].
Qed.

(** The skip of the layer-1 loop, for ids without a dot: a document
    whose page is on disk is not requested again and its page is left as
    it is, whatever the other URLs are and however they fare. *)
Lemma cia_skips_saved_document driver_get urls layer_1 url content :
  no_dot (doc_id url) = true ->
  layer_1 !! layer_1_file url = Some content ->
  (url ∉ (scrape_document_pages driver_get urls layer_1).2) /\
  (scrape_document_pages driver_get urls layer_1).1 !! layer_1_file url = Some content.
Proof.
  intros Hd Hsaved.
  assert (Hin : doc_id url ∈ downloaded_ids layer_1).
  { apply saved_is_downloaded; [exact Hd | by rewrite Hsaved]. }
  unfold scrape_document_pages. rewrite scrape_loop_requested. simpl. split.
  - unfold urls_to_scrape. rewrite list_elem_of_filter. tauto.
  - rewrite scrape_loop_other; [exact Hsaved|].
    apply Forall_forall. intros u Hu Heq.
    unfold urls_to_scrape in Hu. apply list_elem_of_filter in Hu as [Hu _].
    apply layer_1_file_inj in Heq. rewrite Heq in Hu. contradiction.
Qed.

(** A document URL whose last segment contains [.html], and a layer-1
    directory in which its page is already saved. *)
Definition html_url : string :=
  "https://www.cia.gov/readingroom/document/cia-rdp96-a.html".

Definition saved_once : directory :=
  {[ layer_1_file html_url := "first run"%string ]}.

(** C5, at a failing input.  The page of [html_url] is on disk as
    cia-rdp96-a.html.html, but [downloaded] holds cia-rdp96-a (every
    [.html] is replaced, not only the final one), so the document id is
    not found in it: the second run requests the URL again and overwrites
    the file. *)
Theorem cia_rescrapes_saved_document :
  layer_1_file html_url = "cia-rdp96-a.html.html"%string /\
  saved_once !! layer_1_file html_url = Some "first run"%string /\
  elements (downloaded_ids saved_once) = ["cia-rdp96-a"%string] /\
  urls_to_scrape [html_url] saved_once = [html_url] /\
  scrape_document_pages (fun _ _ => Some "second run"%string) [html_url] saved_once
    = ({[ layer_1_file html_url := "second run"%string ]}, [html_url]).
Proof.
  repeat split; by vm_compute.
Qed.

End CiaScraperFacts.

(** ** Skipping finished items in the other two scripts *)

Module ResumeFacts.
Import Resume.

(** A date whose CSV exists is not visited and its CSV is left as it is. *)
Lemma layer_0_skips_existing navigate read_table date_val content :
  forall date_values fs visited,
    fs !! csv_path date_val = Some content ->
    date_val ∉ visited ->
    let '(_, fs', visited') := layer_0 navigate read_table date_values fs visited in
    fs' !! csv_path date_val = Some content /\ (date_val ∉ visited').
Proof.
  induction date_values as [|d rest IH]; intros fs visited Hfs Hvis; simpl.
  - done.
  - case_bool_decide as Hex.
    + by apply IH.
    + assert (d <> date_val) as Hne.
      { intros ->. apply Hex. by rewrite Hfs. }
      assert (date_val ∉ visited ++ [d]) as Hvis' by set_solver.
      destruct (navigate d); [|done].
      destruct (read_table d) as [[csv|]|]; try by apply IH.
      apply IH; [|done]. rewrite lookup_insert_ne; [done|].
      intros Heq. apply Hex. rewrite Heq, Hfs. eauto.
Qed.

Lemma try_methods_other methods rel_path p : forall dst,
  rel_path <> p -> (try_methods methods rel_path dst).2 !! p = dst !! p.
Proof.
  induction methods as [|m rest IH]; intros dst Hne; simpl; [done|].
  destruct (m rel_path) as [ok written].
  destruct written as [c|], ok; simpl; rewrite ?IH by done;
    rewrite ?lookup_insert_ne by done; done.
Qed.

Lemma repair_loop_other methods p : forall todo dst processed failed,
  p ∉ todo -> p ∉ processed -> p ∉ failed ->
  let '(dst', processed', failed') := repair_loop methods todo dst processed failed in
  dst' !! p = dst !! p /\ (p ∉ processed') /\ (p ∉ failed').
Proof.
  induction todo as [|q rest IH]; intros dst processed failed Hq Hp Hf; simpl.
  - done.
  - apply not_elem_of_cons in Hq as [Hne Hrest].
    pose proof (try_methods_other methods q p dst (not_eq_sym Hne)) as Hother.
    destruct (try_methods methods q dst) as [success dst1]. simpl in Hother.
    destruct (success && already_done dst1 q).
    + specialize (IH dst1 (processed ++ [q]) failed Hrest).
      destruct (repair_loop methods rest dst1 (processed ++ [q]) failed) as [[d pr] fl].
      rewrite <- Hother. apply IH; set_solver.
    + specialize (IH dst1 processed (failed ++ [q]) Hrest).
      destruct (repair_loop methods rest dst1 processed (failed ++ [q])) as [[d pr] fl].
      rewrite <- Hother. apply IH; set_solver.
Qed.

(** A PDF whose repaired copy exists with more than 1024 bytes is not
    handed to any fix method and its copy is left as it is. *)
Lemma repair_skips_done methods all_pdfs dst p :
  already_done dst p = true ->
  let '(dst', processed, failed) := repair_main methods all_pdfs dst in
  dst' !! p = dst !! p /\ (p ∉ processed) /\ (p ∉ failed).
Proof.
  intros Hdone. unfold repair_main.
  apply repair_loop_other; [|set_solver..].
  unfold pdfs_to_process. rewrite list_elem_of_filter. intros [Hnot _]. congruence.
Qed.

End ResumeFacts.

(** ** The per-file step of the PDF compression script *)

Module PdfCompressFacts.
Import Outcome PdfCompress StrFacts.

(** *** Sizes *)

Lemma size_lt_bytes (a b : string) :
  size_lt (get_file_size_mb a) (get_file_size_mb b) = true
  <-> (String.length a < String.length b)%nat.
Proof.
  unfold size_lt, get_file_size_mb.
  assert (Hk : (0 < / inject_Z (1024 * 1024))%Q) by reflexivity.
  destruct (Qlt_le_dec _ _) as [Hlt|Hle].
  - split; [intros _|done].
    unfold Qdiv in Hlt. apply Qmult_lt_r in Hlt; [|exact Hk].
    rewrite <- Zlt_Qlt in Hlt. lia.
  - split; [done|]. intros Hlen. exfalso.
    unfold Qdiv in Hle. apply Qmult_le_r in Hle; [|exact Hk].
    rewrite <- Zle_Qle in Hle. lia.
Qed.

(** *** The temporary path *)

Lemma rsplit_dot_spec (s a b : string) :
  rsplit_dot s = Some (a, b) ->
  s = a +:+ b /\ exists b', b = String "." b' /\ rsplit_dot b' = None.
Proof.
  revert a b. induction s as [|c s IH]; intros a b H; simpl in H; [discriminate|].
  destruct (rsplit_dot s) as [[a' b']|] eqn:Hs.
  - injection H as <- <-. destruct (IH a' b' eq_refl) as [-> Hb]. done.
  - destruct (Ascii.eqb_spec c ".") as [->|]; [|discriminate].
    injection H as <- <-. split; [done|]. eauto.
Qed.

Lemma substring_prefix (a b : string) :
  substring 0 (String.length a) (a +:+ b) = a.
Proof. induction a as [|c a IH]; simpl; [by destruct b | by rewrite IH]. Qed.

Lemma substring_all (a : string) : substring 0 (String.length a) a = a.
Proof. induction a as [|c a IH]; simpl; [done | by rewrite IH]. Qed.

Lemma last_removelast (p : path) :
  p <> [] -> p = removelast p ++ [name p].
Proof. intros Hp. unfold name. by apply app_removelast_last. Qed.

(** The temporary path is never the output path itself. *)
Lemma with_suffix_temp_ne (p temp_path : path) :
  with_suffix p ".temp.pdf" = Returned temp_path -> temp_path <> p.
Proof.
  unfold with_suffix. destruct (String.eqb_spec (name p) "") as [|Hname]; [done|].
  intros [= <-] Heq.
  assert (p <> []) as Hp by (intros ->; by apply Hname).
  pose proof (eq_trans Heq (last_removelast p Hp)) as Heq'. clear Heq.
  apply app_inv_head in Heq'. injection Heq' as Heq. revert Heq.
  unfold suffix. destruct (rsplit_dot (name p)) as [[a b]|] eqn:Hsplit.
  - apply rsplit_dot_spec in Hsplit as [Hnm (b' & -> & Hb')].
    destruct (negb (String.eqb a "") && (1 <? String.length (String "." b'))%nat).
    + rewrite !Hnm, app_length_str, Nat.add_sub, substring_prefix.
      intros Heq. apply app_inv_head_str in Heq.
      injection Heq as <-. discriminate Hb'.
    + simpl String.length. rewrite Nat.sub_0_r, substring_all.
      intros Heq. apply (f_equal String.length) in Heq.
      rewrite app_length_str in Heq. simpl in Heq. lia.
  - simpl String.length. rewrite Nat.sub_0_r, substring_all.
    intros Heq. apply (f_equal String.length) in Heq.
    rewrite app_length_str in Heq. simpl in Heq. lia.
Qed.

Lemma with_suffix_defined (p : path) (new_suffix : string) :
  name p <> EmptyString -> exists temp_path, with_suffix p new_suffix = Returned temp_path.
Proof.
  intros Hname. unfold with_suffix.
  destruct (String.eqb_spec (name p) ""); [done | eauto].
Qed.

Lemma unlink_if_exists_gone (p : path) (dst : tree) :
  unlink_if_exists p dst !! p = None.
Proof.
  unfold unlink_if_exists. destruct (dst !! p) eqn:H; [apply lookup_delete_eq | done].
Qed.

Lemma unlink_if_exists_other (p q : path) (dst : tree) :
  p <> q -> unlink_if_exists p dst !! q = dst !! q.
Proof.
  intros Hne. unfold unlink_if_exists.
  destruct (dst !! p); [by apply lookup_delete_ne | done].
Qed.

(** What lies at the temporary path when Ghostscript has run. *)
Definition temp_after (gs : gs_run) (temp_path : path) (dst : tree) : option string :=
  match gs_written gs with
  | Some c => Some c
  | None => dst !! temp_path
  end.

(** C8.  For a source PDF with a name and no output yet, the loop body
    ends with a file at the output path that is no larger than the
    original, and with no file at the temporary path.  The file is the
    Ghostscript result only if Ghostscript succeeded and its result is
    strictly smaller than the original; in every other case (failure,
    timeout, no result file, a result that is not smaller) it is the
    original, unchanged. *)
Theorem compress_output_not_larger (gs : gs_run) (rel_path : path)
    (src dst : tree) (st : stats) (original : string) :
  src !! rel_path = Some original ->
  dst !! rel_path = None ->
  name rel_path <> EmptyString ->
  exists temp_path dst' st' out,
    with_suffix rel_path ".temp.pdf" = Returned temp_path /\
    process_pdf gs rel_path src dst st = Returned (dst', st') /\
    dst' !! rel_path = Some out /\
    (String.length out <= String.length original)%nat /\
    dst' !! temp_path = None /\
    ((gs_success gs = true /\ temp_after gs temp_path dst = Some out /\
      (String.length out < String.length original)%nat)
     \/ (out = original /\
         ~ (gs_success gs = true /\
            exists c, temp_after gs temp_path dst = Some c /\
                      (String.length c < String.length original)%nat))).
Proof.
  intros Hsrc Hdst Hname.
  destruct (with_suffix_defined rel_path ".temp.pdf" Hname) as [temp_path Htemp].
  pose proof (with_suffix_temp_ne _ _ Htemp) as Hne.
  unfold process_pdf. rewrite Hsrc, Hdst, Htemp.
  set (dst1 := match gs_written gs with
               | Some c => <[temp_path := c]> dst | None => dst end).
  assert (Hafter : dst1 !! temp_path = temp_after gs temp_path dst).
  { unfold dst1, temp_after. destruct (gs_written gs); [apply lookup_insert_eq | done]. }
  destruct (gs_success gs) eqn:Hok.
  - destruct (dst1 !! temp_path) as [compressed|] eqn:Hcomp.
    + unfold ALWAYS_KEEP_SMALLEST. simpl negb. rewrite orb_false_r.
      destruct (size_lt (get_file_size_mb compressed) (get_file_size_mb original))
        eqn:Hlt.
      * apply size_lt_bytes in Hlt.
        eexists temp_path, _, _, compressed. repeat split; try done.
        -- apply lookup_insert_eq.
        -- lia.
        -- rewrite lookup_insert_ne by done. apply lookup_delete_eq.
        -- left. by rewrite <- Hafter.
      * eexists temp_path, _, _, original. repeat split; try done.
        -- rewrite unlink_if_exists_other by done. apply lookup_insert_eq.
        -- apply unlink_if_exists_gone.
        -- right. split; [done|]. intros (_ & c & Hc & Hsmall).
           rewrite <- Hafter in Hc. injection Hc as <-.
           apply size_lt_bytes in Hsmall. congruence.
    + eexists temp_path, _, _, original. repeat split; try done.
      * rewrite unlink_if_exists_other by done. apply lookup_insert_eq.
      * apply unlink_if_exists_gone.
      * right. split; [done|]. intros (_ & c & Hc & _). congruence.
  - eexists temp_path, _, _, original. repeat split; try done.
    + rewrite unlink_if_exists_other by done. apply lookup_insert_eq.
    + apply unlink_if_exists_gone.
    + right. split; [done|]. by intros [? _].
Qed.

(** A 3-byte original that Ghostscript shrinks to 2 bytes. *)
Lemma compress_output_not_larger_witness :
  exists temp_path dst' st' out,
    with_suffix ["2024-Jan"; "mail.pdf"]%string ".temp.pdf" = Returned temp_path /\
    process_pdf {| gs_success := true; gs_written := Some "ab"%string;
                   gs_elapsed_ge_timeout := false |}
                ["2024-Jan"; "mail.pdf"]%string
                {[ ["2024-Jan"; "mail.pdf"]%string := "abc"%string ]} ∅
                {| successful := 0; failed := 0; kept_original := 0;
                   compressed_smaller := 0; timed_out := 0 |}
      = Returned (dst', st') /\
    dst' !! (["2024-Jan"; "mail.pdf"]%string : path) = Some out /\
    (String.length out <= 3)%nat.
Proof.
  destruct (compress_output_not_larger
              {| gs_success := true; gs_written := Some "ab"%string;
                 gs_elapsed_ge_timeout := false |}
              ["2024-Jan"; "mail.pdf"]%string
              {[ ["2024-Jan"; "mail.pdf"]%string := "abc"%string ]} ∅
              {| successful := 0; failed := 0; kept_original := 0;
                 compressed_smaller := 0; timed_out := 0 |}
              "abc"%string)
    as (temp_path & dst' & st' & out & H1 & H2 & H3 & H4 & _).
  - reflexivity.
  - reflexivity.
  - discriminate.
  - exists temp_path, dst', st', out. auto.
Defined.

End PdfCompressFacts.

(** ** Command lines *)

Module CliFacts.
Import Json Cli.

(** The shape C6 claims of a script's command line. *)
Definition at_most_two_arguments (sc : script) : Prop :=
  (length (cli_arguments sc) <= 2)%nat
  \/ (cli_arguments sc = [] /\ prompts sc = true).

(** A command line for the FBI Vault scraper that gives all four. *)
Definition full_command_line : list string :=
  ["ufo"; "--max"; "5"; "--download-dir"; "tmp"; "--skip-deps"]%string.


Definition fbi_dests : gset string :=
  {["term"; "max"; "download_dir"; "skip_deps"]}%string.

Lemma find_option_dest (word : string) (a : argument) :
  find_option fbi_parser word = Some a ->
  match kind a with
  | FlagOption | ValueOption _ => dest a ∈ fbi_dests
  | _ => True
  end.
Proof.
  cbv [find_option fbi_parser List.find arg_name].
  repeat (destruct (String.eqb _ word);
          [intros [= <-]; cbn [kind dest]; try done; set_solver|]).
  intros [=].
Qed.

Lemma parse_words_dom_bounded (n : nat) :
  forall argv positionals ns ns',
    (length argv <= n)%nat ->
    Forall (fun a => dest a ∈ fbi_dests) positionals ->
    parse_words fbi_parser positionals argv ns = Some ns' ->
    dom ns ⊆ fbi_dests ->
    dom ns' ⊆ fbi_dests
    /\ dom ns ⊆ dom ns'
    /\ Forall (fun a => dest a ∈ dom ns') positionals.
Proof.
  assert (Hnil : forall positionals ns ns',
            parse_words fbi_parser positionals [] ns = Some ns' ->
            dom ns ⊆ fbi_dests ->
            dom ns' ⊆ fbi_dests /\ dom ns ⊆ dom ns'
            /\ Forall (fun a => dest a ∈ dom ns') positionals).
  { intros [|? ?] ns ns' Hparse Hdom; simpl in Hparse; [|done].
    injection Hparse as <-. done. }
  induction n as [|n IH]; intros argv positionals ns ns' Hlen Hpos Hparse Hdom;
    destruct argv as [|word rest]; simpl in Hlen; try lia; try by eapply Hnil.
  cbn [parse_words] in Hparse. destruct (is_option_word word).
  - destruct (find_option fbi_parser word) as [a|] eqn:Hfind; [|done].
    apply find_option_dest in Hfind.
    destruct (kind a) as [| |ty|]; try done.
    + destruct rest as [|value rest']; [done|].
      destruct (convert ty value) as [v|]; [|done].
      apply IH in Hparse as (H1 & H2 & H3); try done.
      * split; [done|]. split; [|done]. rewrite dom_insert_L in H2. set_solver.
      * simpl in Hlen. lia.
      * rewrite dom_insert_L. set_solver.
    + apply IH in Hparse as (H1 & H2 & H3); try done.
      * split; [done|]. split; [|done]. rewrite dom_insert_L in H2. set_solver.
      * lia.
      * rewrite dom_insert_L. set_solver.
  - destruct positionals as [|a positionals']; [done|].
    apply Forall_cons in Hpos as [Ha Hpos'].
    apply IH in Hparse as (H1 & H2 & H3); try done.
    + rewrite dom_insert_L in H2. split; [done|]. split; [set_solver|].
      constructor; [set_solver | done].
    + lia.
    + rewrite dom_insert_L. set_solver.
Qed.

Lemma parse_words_dom (argv : list string) positionals ns ns' :
  Forall (fun a => dest a ∈ fbi_dests) positionals ->
  parse_words fbi_parser positionals argv ns = Some ns' ->
  dom ns ⊆ fbi_dests ->
  dom ns' ⊆ fbi_dests
  /\ dom ns ⊆ dom ns'
  /\ Forall (fun a => dest a ∈ dom ns') positionals.
Proof. by apply (parse_words_dom_bounded (length argv)). Qed.



End CliFacts.

(** ** The FBI Vault scraper *)

Module FbiVaultFacts.
Import Json FbiVault.

(** *** A program logic for the methods

    [post P Q m]: started in a state with [P], the method [m] ends in a
    state with [Q], whether it returns, raises or runs out of fuel.
    [keeps I m] is the case of an invariant. *)

Definition post {A} (P Q : state -> Prop) (m : M A) : Prop :=
  forall s r s', P s -> m s = (r, s') -> Q s'.

Abbreviation keeps I m := (post I I m).

Lemma post_weaken {A} (P P' Q Q' : state -> Prop) (m : M A) :
  post P Q m -> (forall s, P' s -> P s) -> (forall s, Q s -> Q' s) -> post P' Q' m.
Proof. intros Hm HP HQ s r s' Hs Hrun. eapply HQ, Hm; eauto. Qed.

Lemma post_bind {A B} (P Q R : state -> Prop) (m : M A) (k : A -> M B) :
  post P Q m -> (forall a, post Q R (k a)) -> (forall s, Q s -> R s) ->
  post P R (m ≫= k).
Proof.
  intros Hm Hk HQR s r s' Hs Hrun. unfold mbind, M_bind in Hrun.
  destruct (m s) as [[a|e|] s1] eqn:Hms.
  - eapply Hk; [|exact Hrun]. eapply Hm; eauto.
  - injection Hrun as <- <-. eapply HQR, Hm; eauto.
  - injection Hrun as <- <-. eapply HQR, Hm; eauto.
Qed.

Lemma post_try_catch {A} (P Q R : state -> Prop) (m : M A) (h : exn -> M A) :
  post P Q m -> (forall e, post Q R (h e)) -> (forall s, Q s -> R s) ->
  post P R (try_catch m h).
Proof.
  intros Hm Hh HQR s r s' Hs Hrun. unfold try_catch in Hrun.
  destruct (m s) as [[a|e|] s1] eqn:Hms.
  - injection Hrun as <- <-. eapply HQR, Hm; eauto.
  - eapply Hh; [|exact Hrun]. eapply Hm; eauto.
  - injection Hrun as <- <-. eapply HQR, Hm; eauto.
Qed.

Lemma keeps_bind {A B} (I : state -> Prop) (m : M A) (k : A -> M B) :
  keeps I m -> (forall a, keeps I (k a)) -> keeps I (m ≫= k).
Proof. intros Hm Hk. eapply post_bind; eauto. Qed.

Lemma keeps_try_catch {A} (I : state -> Prop) (m : M A) (h : exn -> M A) :
  keeps I m -> (forall e, keeps I (h e)) -> keeps I (try_catch m h).
Proof. intros Hm Hh. eapply post_try_catch; eauto. Qed.

Lemma keeps_ret {A} (I : state -> Prop) (a : A) : keeps I (mret a).
Proof. intros s r s' Hs [= <- <-]. exact Hs. Qed.

Lemma keeps_raise {A} (I : state -> Prop) (e : exn) : keeps I (raise (A:=A) e).
Proof. intros s r s' Hs [= <- <-]. exact Hs. Qed.

Lemma keeps_out_of_fuel {A} (I : state -> Prop) : keeps I (out_of_fuel (A:=A)).
Proof. intros s r s' Hs [= <- <-]. exact Hs. Qed.

Lemma keeps_get_state (I : state -> Prop) : keeps I get_state.
Proof. intros s r s' Hs [= <- <-]. exact Hs. Qed.

(** Rules that keep track of values: the state read by [get_state], a
    value returned at once, an exception raised at once. *)
Lemma post_get_bind {B} (P Q : state -> Prop) (k : state -> M B) :
  (forall s0, P s0 -> post (fun s => s = s0) Q (k s0)) ->
  post P Q (get_state ≫= k).
Proof. intros Hk s r s' Hs Hrun. eapply (Hk s Hs s); eauto. Qed.

Lemma post_ret_bind {A B} (P Q : state -> Prop) (a : A) (k : A -> M B) :
  post P Q (k a) -> post P Q (mret a ≫= k).
Proof. intros Hk s r s' Hs Hrun. eapply Hk; eauto. Qed.

Lemma post_raise_bind {A B} (P Q : state -> Prop) (e : exn) (k : A -> M B) :
  (forall s, P s -> Q s) -> post P Q (raise e ≫= k).
Proof. intros HPQ s r s' Hs [= <- <-]. auto. Qed.

Lemma post_modify (P Q : state -> Prop) (f : state -> state) :
  (forall s, P s -> Q (f s)) -> post P Q (modify f).
Proof. intros Hf s r s' Hs [= <- <-]. auto. Qed.

Lemma post_emit (P Q : state -> Prop) (ev : event) :
  (forall s, P s -> Q (add_event ev s)) -> post P Q (emit ev).
Proof. apply post_modify. Qed.

Definition clock_free (I : state -> Prop) : Prop :=
  forall n s, I s -> I (set_clock n s).

Lemma keeps_ask {A} (I : state -> Prop) (f : nat -> A) :
  clock_free I -> keeps I (ask f).
Proof. intros HI s r s' Hs [= <- <-]. auto. Qed.

Lemma keeps_ask_raise {A} (I : state -> Prop) (f : nat -> A + exn) :
  clock_free I -> keeps I (ask_raise f).
Proof.
  intros HI s r s' Hs Hrun. unfold ask_raise in Hrun.
  destruct (f (clock s)); injection Hrun as <- <-; auto.
Qed.

Lemma keeps_entry_item (I : state -> Prop) pdf k : keeps I (entry_item pdf k).
Proof.
  unfold entry_item. destruct pdf; try apply keeps_raise.
  destruct (dict_get k kvs); [apply keeps_ret | apply keeps_raise].
Qed.

Lemma keeps_entry_get (I : state -> Prop) pdf k : keeps I (entry_get pdf k).
Proof. unfold entry_get. destruct pdf; try apply keeps_raise. apply keeps_ret. Qed.

Lemma keeps_basename_check (I : state -> Prop) p : keeps I (basename_check p).
Proof. unfold basename_check. destruct p; try apply keeps_raise. apply keeps_ret. Qed.

(** One step of a proof that a method keeps an invariant, following the
    shape of the method. *)
Ltac keeps_step :=
  lazymatch goal with
  | |- keeps _ (mret _) => apply keeps_ret
  | |- keeps _ (mbind _ _) => apply keeps_bind; [|intros]
  | |- keeps _ (try_catch _ _) => apply keeps_try_catch; [|intros]
  | |- keeps _ (raise _) => apply keeps_raise
  | |- keeps _ out_of_fuel => apply keeps_out_of_fuel
  | |- keeps _ get_state => apply keeps_get_state
  | |- keeps _ (entry_item _ _) => apply keeps_entry_item
  | |- keeps _ (entry_get _ _) => apply keeps_entry_get
  | |- keeps _ (basename_check _) => apply keeps_basename_check
  | |- keeps _ (ask _) => apply keeps_ask
  | |- keeps _ (ask_raise _) => apply keeps_ask_raise
  | |- keeps _ (match ?x with _ => _ end) => destruct x
  end.

Create HintDb fbi discriminated.

Ltac keeps_auto :=
  unfold driver_get, driver_back, get_result_links, navigate_to_next_page,
    check_driver_health, recover_driver_session, current_url,
    extract_pdf_url_from_page;
  repeat keeps_step; eauto with fbi.

(** *** The retry loop

    If one attempt takes [J rc] to [J (S rc)], the loop started at
    [retry_count] ends with [J k] for a [k] between [retry_count] and
    [max_retries]. *)
Lemma retry_loop_post (w : world) (J : nat -> state -> Prop) link_url link_text
    max_retries documents_processed :
  (forall rc dp, (rc < max_retries)%nat ->
     post (J rc) (J (S rc)) (download_attempt w link_url link_text dp rc max_retries)) ->
  forall retry_count,
    post (J retry_count)
         (fun s => exists k, (retry_count <= k <= Nat.max retry_count max_retries)%nat
                             /\ J k s)
         (retry_loop w link_url link_text max_retries retry_count documents_processed).
Proof.
  intros Hatt retry_count s r s' HJ Hrun.
  replace s' with (retry_loop w link_url link_text max_retries retry_count
                     documents_processed s).2 by (by rewrite Hrun).
  clear Hrun r s'. revert Hatt HJ.
  apply (retry_loop_elim w (fun lu lt mr rc dp s res =>
    (forall rc dp, (rc < mr)%nat ->
       post (J rc) (J (S rc)) (download_attempt w lu lt dp rc mr)) ->
    J rc s -> exists k, (rc <= k <= Nat.max rc mr)%nat /\ J k res.2)).
  - intros lu lt mr rc Hge dp s0 _ _ HJ. exists rc. split; [lia | exact HJ].
  - intros lu lt mr rc Hlt dp s0 r s1 Hrun _ Hatt HJ.
    exists (S rc). split; [lia|]. eapply Hatt; eauto.
  - intros lu lt mr rc Hlt dp s0 s1 IH Hrun _ Hatt HJ.
    destruct IH as (k & Hk & HJk); [exact Hatt | eapply Hatt; eauto |].
    exists k. split; [lia | exact HJk].
  - intros lu lt mr rc Hlt dp s0 e s1 Hrun _ Hatt HJ.
    exists (S rc). split; [lia|]. eapply Hatt; eauto.
  - intros lu lt mr rc Hlt dp s0 s1 Hrun _ Hatt HJ.
    exists (S rc). split; [lia|]. eapply Hatt; eauto.
Qed.

(** *** The download phase keeps every invariant that its writes keep *)

Record download_invariant (I : state -> Prop) : Prop := {
  dl_clock : clock_free I;
  dl_download : forall s, I s -> I (add_event EvDownload s);
  dl_append : forall s p u t, I s ->
    I (add_event (EvAppend (new_entry p u t))
         (set_pdfs (pdfs s ++ [new_entry p u t]) s));
  dl_write : forall s, I s ->
    I (add_event (EvWriteTracking (pdfs s))
         (set_tracking_file (TrackingList (pdfs s)) s));
  dl_missing_urls : forall l s, I s -> I (set_missing_urls l s)
}.

Section DownloadPhase.
Variable w : world.
Variable I : state -> Prop.
Hypothesis HI : download_invariant I.

Let Hclock : clock_free I := dl_clock I HI.
#[local] Hint Resolve Hclock : fbi.

Lemma keeps_download_pdf : keeps I (download_pdf w).
Proof.
  unfold download_pdf. keeps_auto.
  apply post_emit, (dl_download I HI).
Qed.

Lemma keeps_append_entry p u t : keeps I (append_entry (new_entry p u t)).
Proof. intros s r s' Hs [= <- <-]. by apply (dl_append I HI). Qed.

Lemma keeps_write_tracking_pdfs : keeps I (write_tracking pdfs).
Proof. intros s r s' Hs [= <- <-]. by apply (dl_write I HI). Qed.

#[local] Hint Resolve keeps_download_pdf keeps_append_entry
  keeps_write_tracking_pdfs : fbi.

Lemma keeps_any_url_eq link_url l : keeps I (any_url_eq link_url l).
Proof. induction l as [|pdf l IH]; simpl; keeps_auto. Qed.

Lemma keeps_attempt_body link_url link_text dp rc mr :
  keeps I (attempt_body w link_url link_text dp rc mr).
Proof. unfold attempt_body. keeps_auto. Qed.

Hypothesis Hattempt : forall n s, I s -> I (add_event (EvAttempt n) s).

Lemma keeps_download_attempt link_url link_text dp rc mr :
  keeps I (download_attempt w link_url link_text dp rc mr).
Proof.
  unfold download_attempt. keeps_auto.
  - apply post_emit, Hattempt.
  - apply keeps_attempt_body.
Qed.

Lemma keeps_retry_loop link_url link_text mr rc dp :
  keeps I (retry_loop w link_url link_text mr rc dp).
Proof.
  eapply post_weaken.
  - apply (retry_loop_post w (fun _ => I)). intros. apply keeps_download_attempt.
  - auto.
  - intros s (k & _ & Hs). exact Hs.
Qed.

#[local] Hint Resolve keeps_any_url_eq keeps_retry_loop : fbi.

Lemma keeps_process_single l dp :
  keeps I (process_single_document_download w l dp).
Proof. unfold process_single_document_download. keeps_auto. Qed.

#[local] Hint Resolve keeps_process_single : fbi.

Lemma keeps_page_loop max_documents n : forall i dp,
  keeps I (page_loop w max_documents n i dp).
Proof. induction n as [|n IH]; intros i dp; simpl; keeps_auto. Qed.

#[local] Hint Resolve keeps_page_loop : fbi.

Lemma keeps_process_page_downloads max_documents dp :
  keeps I (process_page_downloads w max_documents dp).
Proof. unfold process_page_downloads. keeps_auto. Qed.

#[local] Hint Resolve keeps_process_page_downloads : fbi.

Lemma keeps_download_pages fuel max_documents : forall dp,
  keeps I (download_pages w fuel max_documents dp).
Proof. induction fuel as [|fuel IH]; intros dp; simpl; keeps_auto. Qed.

Lemma keeps_collect_urls l : keeps I (collect_urls l).
Proof.
  induction l as [|pdf l IH]; simpl; unfold hashable_url; keeps_auto.
Qed.

#[local] Hint Resolve keeps_collect_urls : fbi.

Lemma keeps_download_missing_link l : keeps I (download_missing_link w l).
Proof.
  unfold download_missing_link. keeps_auto.
  apply post_modify. intros st. apply (dl_missing_urls I HI).
Qed.

#[local] Hint Resolve keeps_download_missing_link : fbi.

Lemma keeps_download_missing_links links : keeps I (download_missing_links w links).
Proof. induction links as [|l links IH]; simpl; keeps_auto. Qed.

#[local] Hint Resolve keeps_download_missing_links : fbi.

Lemma keeps_download_missing_pages fuel : keeps I (download_missing_pages w fuel).
Proof. induction fuel as [|fuel IH]; simpl; keeps_auto. Qed.

#[local] Hint Resolve keeps_download_missing_pages : fbi.

Lemma keeps_download_missing_documents fuel :
  keeps I (download_missing_documents w fuel).
Proof.
  unfold download_missing_documents. keeps_auto.
  apply post_modify, (dl_missing_urls I HI).
Qed.

#[local] Hint Resolve keeps_download_missing_documents : fbi.

Lemma keeps_count_available fuel : forall total,
  keeps I (count_available w fuel total).
Proof. induction fuel as [|fuel IH]; intros total; simpl; keeps_auto. Qed.

#[local] Hint Resolve keeps_count_available : fbi.

Lemma keeps_verify_loop fuel remaining : forall attempt,
  keeps I (verify_loop w fuel remaining attempt).
Proof. induction remaining as [|n IH]; intros attempt; simpl; keeps_auto. Qed.

Lemma keeps_verify_downloads_complete fuel :
  keeps I (verify_downloads_complete w fuel).
Proof. apply keeps_verify_loop. Qed.

End DownloadPhase.


(** *** The OCR phase keeps every invariant that its writes keep *)

Definition final_status (status : string) : Prop :=
  status = "complete"%string \/ status = "failed"%string.

Record ocr_invariant (I : state -> Prop) : Prop := {
  ocr_clock : clock_free I;
  ocr_results : forall l s, I s -> I (set_results l s);
  ocr_read : forall s idx d p, I s ->
    ocr_pdfs s !! idx = Some (JObj d) -> dict_get "path" d = Some p ->
    I (add_event (EvOcr p) s);
  ocr_set : forall s idx d status, I s ->
    ocr_pdfs s !! idx = Some (JObj d) -> final_status status ->
    I (add_event (EvSetOcr idx status)
         (set_ocr_pdfs (<[idx := JObj (dict_set "ocr" (JStr status) d)]> (ocr_pdfs s))
                       (ocr_aliased s) s));
  ocr_result : forall s doc, I s ->
    I (add_event (EvResult doc) (set_results (results s ++ [doc]) s));
  ocr_write : forall s, I s ->
    I (add_event (EvWriteTracking (ocr_pdfs s))
         (set_tracking_file (TrackingList (ocr_pdfs s)) s));
  ocr_save : forall s, I s -> I (add_event EvSaveResults s)
}.

Section OcrPhase.
Variable w : world.
Variable I : state -> Prop.
Hypothesis HI : ocr_invariant I.

Let Hclock : clock_free I := ocr_clock I HI.
#[local] Hint Resolve Hclock : fbi.

Lemma keeps_set_ocr idx status :
  final_status status -> keeps I (set_ocr idx status).
Proof.
  intros Hst s r s' Hs Hrun.
  cbv [set_ocr mbind M_bind get_state modify emit raise] in Hrun.
  destruct (ocr_pdfs s !! idx) as [[| | | | |d]|] eqn:Hl;
    injection Hrun as <- <-; try exact Hs.
  by apply (ocr_set I HI).
Qed.

Lemma keeps_write_tracking_ocr : keeps I (write_tracking ocr_pdfs).
Proof. intros s r s' Hs [= <- <-]. by apply (ocr_write I HI). Qed.

Lemma keeps_save_results : keeps I save_results.
Proof. apply post_emit, (ocr_save I HI). Qed.

Lemma keeps_append_result doc : keeps I (append_result doc).
Proof. intros s r s' Hs [= <- <-]. by apply (ocr_result I HI). Qed.

#[local] Hint Resolve keeps_write_tracking_ocr keeps_save_results
  keeps_append_result : fbi.

Lemma keeps_ocr_one idx ocr_attempts : keeps I (ocr_one w idx ocr_attempts).
Proof.
  assert (Hfailed : keeps I (set_ocr idx "failed"))
    by (apply keeps_set_ocr; by right).
  assert (Hcomplete : keeps I (set_ocr idx "complete"))
    by (apply keeps_set_ocr; by left).
  unfold ocr_one. apply post_get_bind. intros s0 Hs0.
  destruct (ocr_pdfs s0 !! idx) as [pdf_info|] eqn:Hl.
  2: { intros s r s' -> [= <- <-]. exact Hs0. }
  assert (Hin : forall s, s = s0 -> I s) by (by intros ? ->).
  destruct pdf_info as [| | | | |d]; cbn [entry_get];
    try (apply post_raise_bind; exact Hin).
  apply post_ret_bind.
  destruct (json_is_str _ "complete"); [intros s r s' -> [= <- <-]; exact Hs0|].
  destruct (json_is_str _ "failed" && _); [intros s r s' -> [= <- <-]; exact Hs0|].
  cbn [entry_item].
  destruct (dict_get "path" d) as [p|] eqn:Hp;
    [|apply post_raise_bind; exact Hin].
  apply post_ret_bind.
  destruct p as [| | |path| |]; cbn [basename_check];
    try (apply post_raise_bind; exact Hin).
  apply post_ret_bind.
  eapply post_try_catch with (Q := I); [| |auto].
  - apply post_ret_bind. eapply post_bind with (Q := I); [| |auto].
    + apply post_emit. intros s ->. by eapply (ocr_read I HI).
    + intros _. keeps_auto.
  - intros e. keeps_auto.
Qed.

#[local] Hint Resolve keeps_ocr_one : fbi.

Lemma keeps_ocr_for n : forall idx ocr_attempts,
  keeps I (ocr_for w n idx ocr_attempts).
Proof. induction n as [|n IH]; intros idx a; simpl; keeps_auto. Qed.

Lemma keeps_count_status (J : state -> Prop) status l : keeps J (count_status status l).
Proof. induction l as [|pdf l IH]; simpl; keeps_auto. Qed.

#[local] Hint Resolve keeps_ocr_for keeps_count_status : fbi.

Hypothesis Hpass : forall n s, I s -> I (add_event (EvOcrPass n) s).

Lemma keeps_ocr_loop fuel : forall ocr_attempts,
  keeps I (ocr_loop w fuel ocr_attempts).
Proof.
  induction fuel as [|fuel IH]; intros a; simpl; keeps_auto.
  apply post_emit, Hpass.
Qed.

Hypothesis Hload_file : forall s l, I s ->
  tracking_file s = TrackingList l -> I (set_ocr_pdfs l false s).
Hypothesis Hload_alias : forall s, I s -> I (set_ocr_pdfs (pdfs s) true s).

Lemma keeps_process_ocr_phase fuel : keeps I (process_ocr_phase w fuel).
Proof.
  unfold process_ocr_phase. apply post_get_bind. intros s0 Hs0.
  eapply post_bind with (Q := I); [| |auto].
  - destruct (tracking_file s0) eqn:Hfile; apply post_modify; intros s ->; auto.
  - intros _. keeps_auto; try (apply post_modify; apply (ocr_results I HI)).
    apply keeps_ocr_loop.
Qed.

Lemma keeps_incomplete_entries (J : state -> Prop) l : keeps J (incomplete_entries l).
Proof. induction l as [|pdf l IH]; simpl; keeps_auto. Qed.

Lemma keeps_warn_incomplete (J : state -> Prop) l : keeps J (warn_incomplete l).
Proof. induction l as [|pdf l IH]; simpl; keeps_auto. Qed.

Lemma keeps_verify_all_ocr_complete : keeps I (verify_all_ocr_complete w).
Proof.
  unfold verify_all_ocr_complete. keeps_auto.
  - apply keeps_incomplete_entries.
  - apply keeps_warn_incomplete.
Qed.

End OcrPhase.


(** *** The whole run: a download invariant, then an OCR invariant *)

Section Run.
Variable w : world.
Variables I_dl I_ocr : state -> Prop.
Hypothesis Hdl : download_invariant I_dl.
Hypothesis Hdl_attempt : forall n s, I_dl s -> I_dl (add_event (EvAttempt n) s).
Hypothesis Hdl_init : forall s l, I_dl s ->
  tracking_file s = TrackingList l -> I_dl (set_pdfs l s).
Hypothesis Hdl_init_empty : forall s, I_dl s -> I_dl (set_pdfs [] s).
Hypothesis Hdl_save : forall s, I_dl s -> I_dl (add_event EvSaveResults s).
Hypothesis Hmarker : forall s, I_dl s -> I_ocr (add_event EvDownloadPhaseComplete s).
Hypothesis Hocr : ocr_invariant I_ocr.
Hypothesis Hocr_pass : forall n s, I_ocr s -> I_ocr (add_event (EvOcrPass n) s).
Hypothesis Hocr_load_file : forall s l, I_ocr s ->
  tracking_file s = TrackingList l -> I_ocr (set_ocr_pdfs l false s).
Hypothesis Hocr_load_alias : forall s, I_ocr s -> I_ocr (set_ocr_pdfs (pdfs s) true s).
Hypothesis Hocr_remove : forall s, I_ocr s ->
  I_ocr (add_event EvRemoveTracking (set_tracking_file NoFile s)).

Lemma keeps_initialize_download_phase : keeps I_dl initialize_download_phase.
Proof.
  unfold initialize_download_phase. apply post_get_bind. intros s0 Hs0.
  destruct (tracking_file s0) eqn:Hfile; apply post_modify; intros s ->; auto.
Qed.

Lemma keeps_remove_tracking :
  keeps I_ocr (_ ← modify (set_tracking_file NoFile); emit EvRemoveTracking).
Proof. intros s r s' Hs [= <- <-]. by apply Hocr_remove. Qed.

Lemma keeps_ocr_part fuel :
  keeps I_ocr
    (_ ← process_ocr_phase w fuel;
     ok ← verify_all_ocr_complete w;
     if ok : bool then mret tt else process_ocr_phase w fuel).
Proof.
  pose proof (keeps_process_ocr_phase w I_ocr Hocr Hocr_pass Hocr_load_file
                Hocr_load_alias fuel) as Hphase.
  pose proof (keeps_verify_all_ocr_complete w I_ocr Hocr) as Hverify.
  keeps_auto.
Qed.

Lemma run_body_post fuel max_documents :
  post I_dl (fun s => I_dl s \/ I_ocr s) (run_body w fuel max_documents).
Proof.
  pose proof (dl_clock I_dl Hdl) as Hclock.
  unfold run_body.
  eapply post_bind with (Q := I_dl); [by apply keeps_ask_raise| |by left].
  intros _. eapply post_bind with (Q := I_dl);
    [unfold driver_get; by apply keeps_ask_raise| |by left].
  intros _. eapply post_bind with (Q := I_dl);
    [apply keeps_initialize_download_phase| |by left].
  intros _. eapply post_bind with (Q := I_dl); [apply keeps_get_state| |by left].
  intros s1. eapply post_bind with (Q := I_dl);
    [by apply keeps_download_pages| |by left].
  intros _. eapply post_bind with (Q := I_dl);
    [by apply keeps_verify_downloads_complete| |by left].
  intros _. eapply post_bind with (Q := I_ocr);
    [apply post_emit, Hmarker| |by right].
  intros _. eapply post_weaken with (P := I_ocr) (Q := I_ocr); [|auto|by right].
  pose proof (keeps_verify_all_ocr_complete w I_ocr Hocr) as Hverify.
  apply keeps_bind; [apply keeps_get_state|]. intros s2.
  apply keeps_bind.
  - destruct (pdfs s2); [apply keeps_ret | apply keeps_ocr_part].
  - intros _. apply keeps_bind; [apply keeps_get_state|]. intros s3.
    destruct (tracking_file s3); [apply keeps_ret| |].
    + apply keeps_bind; [exact Hverify|]. intros [|];
        [apply keeps_remove_tracking | apply keeps_ret].
    + apply keeps_bind; [exact Hverify|]. intros [|];
        [apply keeps_remove_tracking | apply keeps_ret].
Qed.

Lemma run_post fuel max_documents :
  post I_dl (fun s => I_dl s \/ I_ocr s) (run w fuel max_documents).
Proof.
  unfold run. eapply post_try_catch; [apply run_body_post| |auto].
  intros _. apply post_emit. intros s [Hs|Hs]; [left; by apply Hdl_save|].
  right. by apply (ocr_save I_ocr Hocr).
Qed.

End Run.


(** *** The shape of the tracking entries *)

Lemma dict_keys_set (k : string) (v : json) (d : pydict) :
  k ∈ dict_keys d -> dict_keys (dict_set k v d) = dict_keys d.
Proof.
  induction d as [|[k' v'] d IH]; simpl; intros Hin.
  - by apply elem_of_nil in Hin.
  - destruct (String.eqb_spec k k') as [->|Hne]; [done|].
    simpl. f_equal. apply IH. apply elem_of_cons in Hin as [?|?]; done.
Qed.

Lemma dict_get_set_eq (k : string) (v : json) (d : pydict) :
  dict_get k (dict_set k v d) = Some v.
Proof.
  induction d as [|[k' v'] d IH]; simpl.
  - by rewrite String.eqb_refl.
  - destruct (String.eqb_spec k k') as [->|Hne]; simpl.
    + by rewrite String.eqb_refl.
    + destruct (String.eqb_spec k k'); done.
Qed.

Lemma dict_get_set_ne (k k' : string) (v : json) (d : pydict) :
  k <> k' -> dict_get k' (dict_set k v d) = dict_get k' d.
Proof.
  intros Hne. induction d as [|[k0 v0] d IH]; simpl.
  - destruct (String.eqb_spec k' k); congruence.
  - destruct (String.eqb_spec k k0) as [->|Hne0]; simpl.
    + destruct (String.eqb_spec k' k0); congruence.
    + by rewrite IH.
Qed.

Definition entry_keys : list string := ["path"; "url"; "title"; "ocr"]%string.

Definition statuses : list string := ["pending"; "complete"; "failed"]%string.

(** An entry of the tracking file: an object with exactly the four
    fields, whose [ocr] field is one of the three status words. *)
Definition well_shaped (entry : json) : Prop :=
  exists d, entry = JObj d
            /\ dict_keys d ≡ₚ entry_keys
            /\ exists status, dict_get "ocr" d = Some (JStr status)
                              /\ status ∈ statuses.

Definition is_pending (entry : json) : Prop :=
  exists d, entry = JObj d /\ dict_get "ocr" d = Some (JStr "pending").

Definition tracking_ok (file : tracking) : Prop :=
  match file with
  | TrackingList l => Forall well_shaped l
  | _ => True
  end.

(** What C3 asks of the events of a run. *)
Definition event_ok (ev : event) : Prop :=
  match ev with
  | EvAppend entry => well_shaped entry /\ is_pending entry
  | EvWriteTracking content => Forall well_shaped content
  | EvSetOcr _ status => final_status status
  | _ => True
  end.

Definition shape_invariant (s : state) : Prop :=
  Forall well_shaped (pdfs s)
  /\ Forall well_shaped (ocr_pdfs s)
  /\ tracking_ok (tracking_file s)
  /\ Forall event_ok (trace s).

Lemma new_entry_well_shaped p u t : well_shaped (new_entry p u t).
Proof.
  eexists. split; [reflexivity|]. split; [reflexivity|].
  exists "pending"%string. split; [reflexivity|]. unfold statuses. set_solver.
Qed.

Lemma new_entry_pending p u t : is_pending (new_entry p u t).
Proof. eexists. split; reflexivity. Qed.

Lemma set_ocr_well_shaped d status :
  well_shaped (JObj d) -> final_status status ->
  well_shaped (JObj (dict_set "ocr" (JStr status) d)).
Proof.
  intros (d' & [= <-] & Hkeys & _) Hst.
  eexists. split; [reflexivity|]. split.
  - rewrite dict_keys_set; [done|]. rewrite Hkeys. unfold entry_keys. set_solver.
  - exists status. split; [apply dict_get_set_eq|].
    unfold statuses. destruct Hst as [-> | ->]; set_solver.
Qed.

Lemma shape_download_invariant : download_invariant shape_invariant.
Proof.
  split.
  - intros n s H. exact H.
  - intros s (H1 & H2 & H3 & H4). repeat split; try done.
    simpl. apply Forall_app. split; [done|]. by repeat constructor.
  - intros s p u t (H1 & H2 & H3 & H4).
    assert (Forall well_shaped (pdfs s ++ [new_entry p u t])) as H1'.
    { apply Forall_app. split; [done|]. repeat constructor.
      apply new_entry_well_shaped. }
    repeat split; try done.
    simpl. apply Forall_app. split; [done|]. repeat constructor.
    + apply new_entry_well_shaped.
    + apply new_entry_pending.
  - intros s (H1 & H2 & H3 & H4). repeat split; try done.
    simpl. apply Forall_app. split; [done|]. by repeat constructor.
  - intros l s H. exact H.
Qed.

Lemma shape_ocr_invariant : ocr_invariant shape_invariant.
Proof.
  split.
  - intros n s H. exact H.
  - intros l s H. exact H.
  - intros s idx d p (H1 & H2 & H3 & H4) _ _. repeat split; try done.
    simpl. apply Forall_app. split; [done|]. by repeat constructor.
  - intros s idx d status (H1 & H2 & H3 & H4) Hl Hst.
    assert (Forall well_shaped
              (<[idx := JObj (dict_set "ocr" (JStr status) d)]> (ocr_pdfs s))) as H2'.
    { apply Forall_insert; [done|]. apply set_ocr_well_shaped; [|done].
      eapply Forall_lookup_1; eauto. }
    repeat split; simpl; try done.
    + by destruct (ocr_aliased s).
    + apply Forall_app. split; [done|]. by apply Forall_singleton.
  - intros s doc (H1 & H2 & H3 & H4). repeat split; try done.
    simpl. apply Forall_app. split; [done|]. by repeat constructor.
  - intros s (H1 & H2 & H3 & H4). repeat split; try done.
    simpl. apply Forall_app. split; [done|]. by repeat constructor.
  - intros s (H1 & H2 & H3 & H4). repeat split; try done.
    simpl. apply Forall_app. split; [done|]. by repeat constructor.
Qed.

Lemma shape_add_plain_event (ev : event) (s : state) :
  event_ok ev -> shape_invariant s -> shape_invariant (add_event ev s).
Proof.
  intros Hev (H1 & H2 & H3 & H4). repeat split; try done.
  simpl. apply Forall_app. split; [done|]. by repeat constructor.
Qed.

(** C3.  Start the scraper with no tracking file, an undecodable one, or
    one whose entries all have the four fields path, url, title and ocr
    with a status word in ocr.  Then, whatever the outside world does and
    wherever the run ends: every entry appended is such an entry with ocr
    pending; every assignment to an ocr field writes complete or failed;
    every write of the tracking file (after a download, after an OCR
    attempt) writes only such entries; and so the file at the end holds
    only such entries. *)
Theorem tracking_entries_well_shaped (w : world) (fuel : nat)
    (max_documents : option Z) (file : tracking) :
  tracking_ok file ->
  Forall event_ok (trace (run w fuel max_documents (initial_state file)).2)
  /\ tracking_ok (tracking_file (run w fuel max_documents (initial_state file)).2).
Proof.
  intros Hfile.
  destruct (run w fuel max_documents (initial_state file)) as [r s'] eqn:Hrun.
  assert (shape_invariant s' \/ shape_invariant s') as [H|H].
  { eapply (run_post w shape_invariant shape_invariant); [..|exact Hrun].
    - apply shape_download_invariant.
    - intros n s. by apply shape_add_plain_event.
    - intros s l (H1 & H2 & H3 & H4) Hl. rewrite Hl in H3.
      unfold shape_invariant. simpl. rewrite Hl. auto.
    - intros s (H1 & H2 & H3 & H4). unfold shape_invariant. simpl. auto.
    - intros s. by apply shape_add_plain_event.
    - intros s. by apply shape_add_plain_event.
    - apply shape_ocr_invariant.
    - intros n s. by apply shape_add_plain_event.
    - intros s l (H1 & H2 & H3 & H4) Hl. rewrite Hl in H3.
      unfold shape_invariant. simpl. rewrite Hl. auto.
    - intros s (H1 & H2 & H3 & H4). unfold shape_invariant. simpl. auto.
    - intros s (H1 & H2 & H3 & H4). unfold shape_invariant. simpl.
      repeat split; try done. apply Forall_app. split; [done|]. by repeat constructor.
    - unfold shape_invariant. simpl. auto. }
  - destruct H as (_ & _ & H3 & H4). done.
  - destruct H as (_ & _ & H3 & H4). done.
Qed.


(** *** The two phases *)

Definition is_ocr_event (ev : event) : Prop :=
  match ev with
  | EvOcrPass _ | EvOcr _ | EvSetOcr _ _ | EvResult _ => True
  | _ => False
  end.

Definition is_download_event (ev : event) : Prop :=
  match ev with
  | EvAttempt _ | EvDownload | EvAppend _ => True
  | _ => False
  end.

(** [pdf['path']] when the entry has it. *)
Definition entry_path (entry : json) : option json :=
  match entry with
  | JObj d => dict_get "path" d
  | _ => None
  end.

Definition tracking_list (file : tracking) : list json :=
  match file with
  | TrackingList l => l
  | _ => []
  end.

(** [p] is the path of an entry that the tracking file had when the run
    began, or of an entry appended in [tr]. *)
Definition recorded (file : tracking) (tr : list event) (p : json) : Prop :=
  (exists entry, entry ∈ tracking_list file /\ entry_path entry = Some p)
  \/ (exists entry, EvAppend entry ∈ tr /\ entry_path entry = Some p).

Definition all_recorded (file : tracking) (tr : list event) (l : list json) : Prop :=
  forall entry p, entry ∈ l -> entry_path entry = Some p -> recorded file tr p.

Definition lists_recorded (file : tracking) (tr : list event) (s : state) : Prop :=
  all_recorded file tr (pdfs s)
  /\ all_recorded file tr (ocr_pdfs s)
  /\ all_recorded file tr (tracking_list (tracking_file s)).

(** The trace of a run in its OCR phase: the download phase [before],
    the line that ends it, and the OCR phase [after], which reads only
    recorded PDFs. *)
Definition phases (file : tracking) (tr before after : list event) : Prop :=
  tr = before ++ EvDownloadPhaseComplete :: after
  /\ Forall (fun ev => ~ is_ocr_event ev) before
  /\ Forall (fun ev => ~ is_download_event ev) after
  /\ (forall p, EvOcr p ∈ after -> recorded file before p).

Section Phases.
Variable file : tracking.

Definition download_phase_invariant (s : state) : Prop :=
  Forall (fun ev => ~ is_ocr_event ev) (trace s)
  /\ lists_recorded file (trace s) s.

Definition ocr_phase_invariant (s : state) : Prop :=
  exists before after,
    phases file (trace s) before after /\ lists_recorded file before s.

Lemma recorded_mono tr evs p : recorded file tr p -> recorded file (tr ++ evs) p.
Proof.
  intros [H|(entry & Hin & Hp)]; [by left|]. right. exists entry.
  split; [|done]. apply elem_of_app. by left.
Qed.

Lemma all_recorded_mono tr evs l :
  all_recorded file tr l -> all_recorded file (tr ++ evs) l.
Proof. intros H entry p Hin Hp. eapply recorded_mono, H; eauto. Qed.

Lemma all_recorded_nil tr : all_recorded file tr [].
Proof. intros entry p Hin. by apply elem_of_nil in Hin. Qed.

(** A step of the download phase that appends events which are not OCR
    events and leaves the three lists recorded. *)
Lemma download_phase_step (s s' : state) (evs : list event) :
  download_phase_invariant s ->
  trace s' = trace s ++ evs ->
  Forall (fun ev => ~ is_ocr_event ev) evs ->
  lists_recorded file (trace s') s' ->
  download_phase_invariant s'.
Proof.
  intros (Htr & _) Heq Hevs Hlists. split; [|done].
  rewrite Heq. apply Forall_app. done.
Qed.

Lemma lists_recorded_mono tr evs (s s' : state) :
  lists_recorded file tr s ->
  pdfs s' = pdfs s -> ocr_pdfs s' = ocr_pdfs s -> tracking_file s' = tracking_file s ->
  lists_recorded file (tr ++ evs) s'.
Proof.
  intros (H1 & H2 & H3) Hp Ho Ht. unfold lists_recorded.
  rewrite Hp, Ho, Ht. repeat split; by apply all_recorded_mono.
Qed.

Lemma phases_download_invariant : download_invariant download_phase_invariant.
Proof.
  split.
  - intros n s H. exact H.
  - intros s H. eapply (download_phase_step s _ [EvDownload]); [done|done|..].
    + apply Forall_singleton. simpl. tauto.
    + destruct H as [_ H]. by eapply lists_recorded_mono.
  - intros s p u t H.
    eapply (download_phase_step s _ [EvAppend (new_entry p u t)]); [done|done|..].
    + apply Forall_singleton. simpl. tauto.
    + destruct H as [_ (H1 & H2 & H3)]. simpl. repeat split.
      * intros entry q Hin Hq. apply elem_of_app in Hin as [Hin|Hin].
        -- eapply recorded_mono, H1; eauto.
        -- apply list_elem_of_singleton in Hin as ->. right.
           eexists. split; [|exact Hq]. apply elem_of_app. right.
           by apply list_elem_of_singleton.
      * by apply all_recorded_mono.
      * by apply all_recorded_mono.
  - intros s H.
    eapply (download_phase_step s _ [EvWriteTracking (pdfs s)]); [done|done|..].
    + apply Forall_singleton. simpl. tauto.
    + destruct H as [_ (H1 & H2 & H3)]. simpl. repeat split;
        by apply all_recorded_mono.
  - intros l s H. exact H.
Qed.

(** A step of the OCR phase: the events appended are not download
    events, each PDF read is the path of an entry of the list the phase
    works on, and the three lists stay recorded. *)
Lemma ocr_phase_step (s s' : state) (evs : list event) :
  ocr_phase_invariant s ->
  trace s' = trace s ++ evs ->
  Forall (fun ev => ~ is_download_event ev) evs ->
  (forall p, EvOcr p ∈ evs ->
     exists entry, entry ∈ ocr_pdfs s /\ entry_path entry = Some p) ->
  (forall tr, lists_recorded file tr s -> lists_recorded file tr s') ->
  ocr_phase_invariant s'.
Proof.
  intros (before & after & (Heq & Hb & Ha & Hreads) & Hlists) Htr Hevs Hev Hkeep.
  exists before, (after ++ evs). split; [|by apply Hkeep].
  repeat split.
  - rewrite Htr, Heq. by rewrite <- app_assoc.
  - done.
  - apply Forall_app. done.
  - intros p Hp. apply elem_of_app in Hp as [Hp|Hp]; [by apply Hreads|].
    destruct (Hev p Hp) as (entry & Hin & Hpath).
    destruct Hlists as (_ & H2 & _). eapply H2; eauto.
Qed.

Lemma no_ocr_read (ev : event) :
  match ev with EvOcr _ => False | _ => True end ->
  forall (l : list json) p, EvOcr p ∈ [ev] ->
    exists entry, entry ∈ l /\ entry_path entry = Some p.
Proof.
  intros Hev l p Hp. apply list_elem_of_singleton in Hp. by subst ev.
Qed.

Lemma all_recorded_insert tr (l : list json) idx d status :
  l !! idx = Some (JObj d) ->
  all_recorded file tr l ->
  all_recorded file tr (<[idx := JObj (dict_set "ocr" (JStr status) d)]> l).
Proof.
  intros Hl H entry p Hin Hp.
  apply list_elem_of_lookup in Hin as [i Hi].
  apply list_lookup_insert_Some in Hi as [(-> & <- & _)|(_ & Hi)].
  - apply (H (JObj d) p); [by eapply list_elem_of_lookup_2|].
    simpl in *. by rewrite dict_get_set_ne in Hp.
  - eapply H; [by eapply list_elem_of_lookup_2 | done].
Qed.

Lemma phases_ocr_invariant : ocr_invariant ocr_phase_invariant.
Proof.
  split.
  - intros n s H. exact H.
  - intros l s H. exact H.
  - intros s idx d p H Hl Hp.
    eapply (ocr_phase_step s _ [EvOcr p]); [done|done|..]; [| |done].
    + apply Forall_singleton. simpl. tauto.
    + intros q Hq. apply list_elem_of_singleton in Hq as [= ->].
      exists (JObj d). split; [by eapply list_elem_of_lookup_2 | done].
  - intros s idx d status H Hl Hst.
    eapply (ocr_phase_step s _ [EvSetOcr idx status]); [done|done|..].
    + apply Forall_singleton. simpl. tauto.
    + by apply no_ocr_read.
    + intros tr (H1 & H2 & H3). simpl.
      pose proof (all_recorded_insert tr _ idx d status Hl H2) as H2'.
      repeat split; try done. by destruct (ocr_aliased s).
  - intros s doc H.
    eapply (ocr_phase_step s _ [EvResult doc]); [done|done|..]; [| |done].
    + apply Forall_singleton. simpl. tauto.
    + by apply no_ocr_read.
  - intros s H.
    eapply (ocr_phase_step s _ [EvWriteTracking (ocr_pdfs s)]); [done|done|..].
    + apply Forall_singleton. simpl. tauto.
    + by apply no_ocr_read.
    + intros tr (H1 & H2 & H3). by repeat split.
  - intros s H.
    eapply (ocr_phase_step s _ [EvSaveResults]); [done|done|..]; [| |done].
    + apply Forall_singleton. simpl. tauto.
    + by apply no_ocr_read.
Qed.

(** C4.  Whatever the outside world does and wherever the run ends, its
    trace either has no OCR event at all (no pass of the OCR loop, no PDF
    read, no assignment to an ocr field, no append to the results), or
    it splits at the line that reports the download phase complete,
    which follows the verification pass: before it there is no OCR
    event, after it there is no download event (no download attempt, no
    download, no append to the tracking list), and every PDF the OCR
    phase reads is the path of an entry that the tracking file had at
    the start or that the download phase appended. *)
Theorem run_phases_sequential (w : world) (fuel : nat) (max_documents : option Z) :
  let tr := trace (run w fuel max_documents (initial_state file)).2 in
  Forall (fun ev => ~ is_ocr_event ev) tr
  \/ exists before after, phases file tr before after.
Proof.
  simpl.
  destruct (run w fuel max_documents (initial_state file)) as [r s'] eqn:Hrun.
  assert (download_phase_invariant s' \/ ocr_phase_invariant s') as [H|H].
  { eapply (run_post w download_phase_invariant ocr_phase_invariant);
      [..|exact Hrun].
    - apply phases_download_invariant.
    - intros n s H. eapply (download_phase_step s _ [EvAttempt n]); [done|done|..].
      + apply Forall_singleton. simpl. tauto.
      + destruct H as [_ H]. by eapply lists_recorded_mono.
    - intros s l [Htr (H1 & H2 & H3)] Hl. split; [done|].
      rewrite Hl in H3. repeat split; simpl; try done. by rewrite Hl.
    - intros s [Htr (H1 & H2 & H3)]. split; [done|].
      repeat split; simpl; try done. apply all_recorded_nil.
    - intros s H. eapply (download_phase_step s _ [EvSaveResults]); [done|done|..].
      + apply Forall_singleton. simpl. tauto.
      + destruct H as [_ H]. by eapply lists_recorded_mono.
    - intros s [Htr Hlists]. exists (trace s), [].
      split; [|done]. repeat split; try done.
      intros p Hp. by apply elem_of_nil in Hp.
    - apply phases_ocr_invariant.
    - intros n s H. eapply (ocr_phase_step s _ [EvOcrPass n]); [done|done|..];
        [| |done].
      + apply Forall_singleton. simpl. tauto.
      + by apply no_ocr_read.
    - intros s l (before & after & Hph & (H1 & H2 & H3)) Hl.
      exists before, after. split; [done|]. rewrite Hl in H3.
      repeat split; simpl; try done. by rewrite Hl.
    - intros s (before & after & Hph & (H1 & H2 & H3)).
      exists before, after. split; [done|]. by repeat split.
    - intros s H.
      eapply (ocr_phase_step s _ [EvRemoveTracking]); [done|done|..].
      + apply Forall_singleton. simpl. tauto.
      + by apply no_ocr_read.
      + intros tr (H1 & H2 & H3). repeat split; try done.
        simpl. apply all_recorded_nil.
    - split; [constructor|]. repeat split; simpl; try apply all_recorded_nil.
      intros entry p Hin Hp. left. eauto. }
  - left. by destruct H.
  - right. destruct H as (before & after & Hph & _). eauto.
Qed.

End Phases.


(** *** Methods that cannot run out of fuel *)

Definition finishes {A} (m : M A) : Prop := forall s, (m s).1 <> OutOfFuel.

Lemma finishes_ret {A} (a : A) : finishes (mret a).
Proof. by intros s. Qed.

Lemma finishes_bind {A B} (m : M A) (k : A -> M B) :
  finishes m -> (forall a, finishes (k a)) -> finishes (m ≫= k).
Proof.
  intros Hm Hk s. unfold mbind, M_bind. specialize (Hm s).
  destruct (m s) as [[a|e|] s1]; simpl in *; [apply Hk|done|done].
Qed.

Lemma finishes_try_catch {A} (m : M A) (h : exn -> M A) :
  finishes m -> (forall e, finishes (h e)) -> finishes (try_catch m h).
Proof.
  intros Hm Hh s. unfold try_catch. specialize (Hm s).
  destruct (m s) as [[a|e|] s1]; simpl in *; [done|apply Hh|done].
Qed.

Lemma finishes_raise {A} (e : exn) : finishes (raise (A:=A) e).
Proof. by intros s. Qed.

Lemma finishes_get_state : finishes get_state.
Proof. by intros s. Qed.

Lemma finishes_modify f : finishes (modify f).
Proof. by intros s. Qed.

Lemma finishes_emit ev : finishes (emit ev).
Proof. by intros s. Qed.

Lemma finishes_ask {A} (f : nat -> A) : finishes (ask f).
Proof. by intros s. Qed.

Lemma finishes_ask_raise {A} (f : nat -> A + exn) : finishes (ask_raise f).
Proof. intros s. unfold ask_raise. by destruct (f (clock s)). Qed.

Lemma finishes_entry_item pdf k : finishes (entry_item pdf k).
Proof.
  unfold entry_item. destruct pdf; try apply finishes_raise.
  destruct (dict_get k kvs); [apply finishes_ret | apply finishes_raise].
Qed.

Lemma finishes_entry_get pdf k : finishes (entry_get pdf k).
Proof. unfold entry_get. destruct pdf; try apply finishes_raise. apply finishes_ret. Qed.

Lemma finishes_basename_check p : finishes (basename_check p).
Proof.
  unfold basename_check. destruct p; try apply finishes_raise. apply finishes_ret.
Qed.

Ltac finishes_step :=
  lazymatch goal with
  | |- finishes (mret _) => apply finishes_ret
  | |- finishes (mbind _ _) => apply finishes_bind; [|intros]
  | |- finishes (try_catch _ _) => apply finishes_try_catch; [|intros]
  | |- finishes (raise _) => apply finishes_raise
  | |- finishes get_state => apply finishes_get_state
  | |- finishes (modify _) => apply finishes_modify
  | |- finishes (emit _) => apply finishes_emit
  | |- finishes (entry_item _ _) => apply finishes_entry_item
  | |- finishes (entry_get _ _) => apply finishes_entry_get
  | |- finishes (basename_check _) => apply finishes_basename_check
  | |- finishes (ask _) => apply finishes_ask
  | |- finishes (ask_raise _) => apply finishes_ask_raise
  | |- finishes (match ?x with _ => _ end) => destruct x
  end.

Ltac finishes_auto :=
  unfold driver_get, driver_back, get_result_links, navigate_to_next_page,
    check_driver_health, recover_driver_session, current_url,
    extract_pdf_url_from_page, download_pdf, append_entry, write_tracking,
    append_result, save_results;
  repeat finishes_step; eauto with fbi.

Section Finishing.
Variable w : world.

Lemma finishes_any_url_eq link_url l : finishes (any_url_eq link_url l).
Proof. induction l as [|pdf l IH]; simpl; finishes_auto. Qed.

Lemma finishes_download_attempt link_url link_text dp rc mr :
  finishes (download_attempt w link_url link_text dp rc mr).
Proof. unfold download_attempt, attempt_body. finishes_auto. Qed.

Lemma finishes_retry_loop link_url link_text mr rc dp :
  finishes (retry_loop w link_url link_text mr rc dp).
Proof.
  intros s.
  apply (retry_loop_elim w (fun lu lt mr rc dp s res => res.1 <> OutOfFuel));
    try done.
  intros lu lt mr' rc' Hlt dp' s0 s1 Hrun _.
  pose proof (finishes_download_attempt lu lt dp' rc' mr' s0) as Hfin.
  by rewrite Hrun in Hfin.
Qed.

Lemma finishes_process_single l dp :
  finishes (process_single_document_download w l dp).
Proof.
  pose proof finishes_any_url_eq. pose proof finishes_retry_loop.
  unfold process_single_document_download. finishes_auto.
Qed.

Lemma finishes_set_ocr idx status : finishes (set_ocr idx status).
Proof. unfold set_ocr. finishes_auto. Qed.

Lemma finishes_ocr_one idx ocr_attempts : finishes (ocr_one w idx ocr_attempts).
Proof.
  pose proof finishes_set_ocr. unfold ocr_one. finishes_auto.
Qed.

Lemma finishes_ocr_for n : forall idx ocr_attempts,
  finishes (ocr_for w n idx ocr_attempts).
Proof.
  pose proof finishes_ocr_one.
  induction n as [|n IH]; intros idx a; simpl; finishes_auto.
Qed.

End Finishing.

(** *** Counting attempts and passes *)

Definition is_attempt (ev : event) : bool :=
  match ev with EvAttempt _ => true | _ => false end.

Definition is_pass (ev : event) : bool :=
  match ev with EvOcrPass _ => true | _ => false end.

Definition count_attempts (tr : list event) : nat :=
  length (List.filter is_attempt tr).

Definition count_passes (tr : list event) : nat :=
  length (List.filter is_pass tr).

Lemma count_attempts_add (s : state) (ev : event) :
  count_attempts (trace (add_event ev s))
  = (count_attempts (trace s) + if is_attempt ev then 1 else 0)%nat.
Proof.
  unfold count_attempts. simpl. rewrite List.filter_app, length_app. simpl.
  by destruct (is_attempt ev).
Qed.

Lemma count_passes_add (s : state) (ev : event) :
  count_passes (trace (add_event ev s))
  = (count_passes (trace s) + if is_pass ev then 1 else 0)%nat.
Proof.
  unfold count_passes. simpl. rewrite List.filter_app, length_app. simpl.
  by destruct (is_pass ev).
Qed.

Lemma attempts_download_invariant (bound : nat) :
  download_invariant (fun s => (count_attempts (trace s) <= bound)%nat).
Proof.
  split; unfold clock_free; intros;
    rewrite ?count_attempts_add; simpl; lia.
Qed.

Lemma process_single_attempts (w : world) (l : link) (dp : nat) (s : state) :
  (count_attempts (trace (process_single_document_download w l dp s).2)
   <= count_attempts (trace s) + max_retries)%nat.
Proof.
  destruct (process_single_document_download w l dp s) as [r s'] eqn:Hrun.
  simpl. revert Hrun. set (c := count_attempts (trace s)).
  assert (Hpost : post (fun st => count_attempts (trace st) <= c)%nat
            (fun st => count_attempts (trace st) <= c + max_retries)%nat
            (process_single_document_download w l dp)).
  2: { intros Hrun. eapply Hpost; [|exact Hrun]. done. }
  unfold process_single_document_download.
  eapply post_bind with (Q := fun st => (count_attempts (trace st) <= c)%nat);
    [apply keeps_get_state| |intros; lia].
  intros s0.
  eapply post_bind with (Q := fun st => (count_attempts (trace st) <= c)%nat);
    [|intros [|]|intros; lia].
  - apply keeps_any_url_eq.
  - intros st r0 st' Hst [= <- <-]. lia.
  - eapply post_weaken.
    + apply (retry_loop_post w
               (fun rc st => (count_attempts (trace st) <= c + rc)%nat)).
      intros rc dp' Hrc. unfold download_attempt.
      eapply post_bind
        with (Q := fun st => (count_attempts (trace st) <= c + S rc)%nat);
        [| |auto].
      * apply post_emit. intros st Hst. rewrite count_attempts_add. simpl. lia.
      * intros _. apply keeps_attempt_body, attempts_download_invariant.
    + simpl. intros st Hst. lia.
    + simpl. intros st (k & Hk & Hst). unfold max_retries in *. lia.
Qed.


(** *** The OCR loop when the user declines *)

(** The sum of [count_status] as a function of the list alone: [None]
    when some entry is not a dict. *)
Fixpoint count_pure (status : string) (l : list json) : option nat :=
  match l with
  | [] => Some O
  | JObj d :: l' =>
      match count_pure status l' with
      | Some n =>
          Some (if json_is_str (match dict_get "ocr" d with
                                | Some v => v | None => JNull end) status
                then S n else n)
      | None => None
      end
  | _ :: _ => None
  end.

Lemma count_status_eq status l s :
  count_status status l s
  = match count_pure status l with
    | Some n => (Ok n, s)
    | None => (Exc OtherError, s)
    end.
Proof.
  induction l as [|pdf l IH]; [done|].
  destruct pdf; try done. cbn [count_status count_pure entry_get].
  cbv [mbind M_bind mret M_ret]. rewrite IH.
  by destruct (count_pure status l).
Qed.

Lemma count_pure_le status l n : count_pure status l = Some n -> (n <= length l)%nat.
Proof.
  revert n. induction l as [|pdf l IH]; intros n H; simpl in *.
  - injection H as <-. lia.
  - destruct pdf; try done. destruct (count_pure status l) as [m|]; [|done].
    injection H as <-. specialize (IH m eq_refl).
    destruct (json_is_str _ _); lia.
Qed.

Definition pass_invariant (bound len : nat) (s : state) : Prop :=
  (count_passes (trace s) <= bound)%nat /\ length (ocr_pdfs s) = len.

Lemma pass_ocr_invariant bound len : ocr_invariant (pass_invariant bound len).
Proof.
  split; unfold clock_free, pass_invariant; intros;
    rewrite ?count_passes_add; simpl; rewrite ?length_insert; lia.
Qed.

Lemma ocr_loop_declined (w : world) :
  (forall t, input_yes_w w t = false) ->
  forall fuel a c s r s',
    ocr_loop w fuel a s = (r, s') ->
    (1 <= fuel)%nat -> (4 <= fuel + a)%nat ->
    (count_passes (trace s) + (3 - a) <= c)%nat ->
    ((3 <= a)%nat -> forall n, count_pure "complete" (ocr_pdfs s) = Some n ->
                              (length (ocr_pdfs s) <= n)%nat) ->
    r <> OutOfFuel /\ (count_passes (trace s') <= c)%nat.
Proof.
  intros Hno. induction fuel as [|fuel IH]; intros a c s r s' Hrun Hf1 Hf4 Hc Hdone;
    [lia|].
  cbn [ocr_loop] in Hrun. cbv [mbind M_bind get_state] in Hrun.
  rewrite count_status_eq in Hrun.
  destruct (count_pure "complete" (ocr_pdfs s)) as [nc|] eqn:Hnc;
    [|injection Hrun as <- <-; split; [done|lia]].
  rewrite count_status_eq in Hrun.
  destruct (count_pure "failed" (ocr_pdfs s)) as [nf|];
    [|injection Hrun as <- <-; split; [done|lia]].
  rewrite count_status_eq in Hrun.
  destruct (count_pure "pending" (ocr_pdfs s)) as [np|];
    [|injection Hrun as <- <-; split; [done|lia]].
  destruct (Nat.eqb_spec nc (length (ocr_pdfs s))) as [Hall|Hall];
    [injection Hrun as <- <-; split; [done|lia]|].
  pose proof (count_pure_le _ _ _ Hnc) as Hle.
  assert (a < 3)%nat as Ha.
  { destruct (Nat.lt_ge_cases a 3) as [|Hge]; [done|].
    specialize (Hdone Hge nc eq_refl). lia. }
  unfold max_ocr_attempts in Hrun.
  destruct (Nat.leb_spec 3 a) as [|_]; [lia|].
  cbv [andb mret M_ret emit modify] in Hrun.
  set (s1 := add_event (EvOcrPass a) s) in Hrun.
  assert (pass_invariant (S (count_passes (trace s))) (length (ocr_pdfs s)) s1)
    as Hs1.
  { split; [|done]. unfold s1. rewrite count_passes_add. simpl. lia. }
  pose proof (finishes_ocr_for w (length (ocr_pdfs s)) 0 a s1) as Hfin.
  destruct (ocr_for w (length (ocr_pdfs s)) 0 a s1) as [[[]|e|] s2] eqn:Hfor;
    [|injection Hrun as <- <-|done].
  2: { eapply (keeps_ocr_for w _ (pass_ocr_invariant _ _)) in Hfor as [Hcnt _];
         [|exact Hs1]. split; [done|lia]. }
  eapply (keeps_ocr_for w _ (pass_ocr_invariant _ _)) in Hfor as [Hcnt Hlen];
    [|exact Hs1].
  rewrite count_status_eq in Hrun.
  destruct (count_pure "complete" (ocr_pdfs s2)) as [nc2|] eqn:Hnc2;
    [|injection Hrun as <- <-; split; [done|lia]].
  rewrite count_status_eq in Hrun.
  destruct (count_pure "failed" (ocr_pdfs s2)) as [nf2|];
    [|injection Hrun as <- <-; split; [done|lia]].
  rewrite count_status_eq in Hrun.
  destruct (count_pure "pending" (ocr_pdfs s2)) as [np2|];
    [|injection Hrun as <- <-; split; [done|lia]].
  destruct (Nat.ltb_spec nc2 (length (ocr_pdfs s))) as [Hlt|Hge].
  - destruct (Nat.ltb_spec (S a) 3) as [Hsa|Hsa].
    + eapply IH; [exact Hrun|lia|lia|lia|lia].
    + cbv [ask] in Hrun. rewrite Hno in Hrun. simpl in Hrun.
      injection Hrun as <- <-. split; [done|]. simpl. lia.
  - eapply IH; [exact Hrun|lia|lia|lia|].
    intros _ n Hn. rewrite Hnc2 in Hn. injection Hn as <-. lia.
Qed.

Lemma process_ocr_phase_declined (w : world) (fuel : nat) (s : state) :
  (forall t, input_yes_w w t = false) ->
  (4 <= fuel)%nat ->
  (process_ocr_phase w fuel s).1 <> OutOfFuel
  /\ (count_passes (trace (process_ocr_phase w fuel s).2)
      <= count_passes (trace s) + max_ocr_attempts)%nat.
Proof.
  intros Hno Hfuel.
  destruct (process_ocr_phase w fuel s) as [r s'] eqn:Hrun. simpl.
  unfold process_ocr_phase in Hrun.
  cbv [mbind M_bind get_state modify ask mret M_ret] in Hrun.
  unfold max_ocr_attempts.
  destruct (tracking_file s), (results_file_w w _) as [[?|]|];
    (eapply (ocr_loop_declined w Hno) in Hrun; [exact Hrun|lia|lia|simpl; lia|lia]).
Qed.

(** *** C1 *)

(** The bound C1 claims of the OCR phase. *)
Definition ocr_passes_bounded : Prop :=
  forall (w : world) (fuel : nat) (s : state),
    (count_passes (trace (process_ocr_phase w fuel s).2)
     <= count_passes (trace s) + max_ocr_attempts)%nat.

(** A world in which OCR never yields text and the user answers [y] at
    every prompt. *)
Definition insisting_world : world :=
  {| setup_driver_w := fun _ => inl tt;
     driver_get_w := fun _ => inl tt;
     result_links_w := fun _ => inl [];
     navigate_next_w := fun _ => false;
     driver_health_w := fun _ => true;
     recover_w := fun _ => true;
     current_url_w := fun _ => inl "https://vault.fbi.gov/search"%string;
     extract_pdf_url_w := fun _ => None;
     download_pdf_w := fun _ => inl None;
     path_exists_w := fun _ => false;
     results_file_w := fun _ => None;
     extract_text_w := fun _ => {| body_text := ""; stripped_len := 0 |};
     doc_details_w := fun _ => inl ""%string;
     today_w := fun _ => "2026-01-01"%string;
     input_yes_w := fun _ => true |}.

(** One downloaded PDF waiting for OCR. *)
Definition one_pending : state :=
  initial_state
    (TrackingList [new_entry "fbi_vault_pdfs/ufo.pdf" (Some "https://vault.fbi.gov/ufo"%string)
                             "UFO"]).



(** A user who declines, and a run of the OCR phase on one pending PDF. *)
Definition declining_world : world :=
  {| setup_driver_w := setup_driver_w insisting_world;
     driver_get_w := driver_get_w insisting_world;
     result_links_w := result_links_w insisting_world;
     navigate_next_w := navigate_next_w insisting_world;
     driver_health_w := driver_health_w insisting_world;
     recover_w := recover_w insisting_world;
     current_url_w := current_url_w insisting_world;
     extract_pdf_url_w := extract_pdf_url_w insisting_world;
     download_pdf_w := download_pdf_w insisting_world;
     path_exists_w := path_exists_w insisting_world;
     results_file_w := results_file_w insisting_world;
     extract_text_w := extract_text_w insisting_world;
     doc_details_w := doc_details_w insisting_world;
     today_w := today_w insisting_world;
     input_yes_w := fun _ => false |}.


(** A world with one search result that downloads and whose PDF can be
    read. *)
Definition one_document_world : world :=
  {| setup_driver_w := fun _ => inl tt;
     driver_get_w := fun _ => inl tt;
     result_links_w := fun t =>
       inl (if (t <? 40)%nat
            then [ {| href := Some "https://vault.fbi.gov/ufo"%string;
                      link_text := "UFO" |} ]
            else []);
     navigate_next_w := fun _ => false;
     driver_health_w := fun _ => true;
     recover_w := fun _ => true;
     current_url_w := fun _ => inl "https://vault.fbi.gov/search"%string;
     extract_pdf_url_w := fun _ => Some "https://vault.fbi.gov/ufo/at_download"%string;
     download_pdf_w := fun _ => inl (Some "fbi_vault_pdfs/UFO.pdf"%string);
     path_exists_w := fun _ => true;
     results_file_w := fun _ => None;
     extract_text_w := fun _ => {| body_text := "text"; stripped_len := 51 |};
     doc_details_w := fun _ => inl "UFO"%string;
     today_w := fun _ => "2026-01-01"%string;
     input_yes_w := fun _ => false |}.

Lemma tracking_entries_well_shaped_witness :
  Forall event_ok
    (trace (run one_document_world 5 None
              (initial_state (TrackingList [new_entry "a.pdf" None "A"]))).2)
  /\ tracking_ok
       (tracking_file (run one_document_world 5 None
                         (initial_state (TrackingList [new_entry "a.pdf" None "A"]))).2).
Proof.
  apply (tracking_entries_well_shaped one_document_world 5 None
           (TrackingList [new_entry "a.pdf" None "A"])).
  simpl. constructor; [apply new_entry_well_shaped | constructor].
Defined.

End FbiVaultFacts.

(** ** The whole run of the PDF compression script *)

Module CompressRunFacts.
Import Outcome PdfCompress PdfCompressFacts.

(** The counters as [main] initialises them. *)
Definition no_stats : stats :=
  {| successful := 0; failed := 0; kept_original := 0;
     compressed_smaller := 0; timed_out := 0 |}.

Lemma process_pdf_counts gs rel_path src dst st dst' st' :
  process_pdf gs rel_path src dst st = Returned (dst', st') ->
  (successful st' + failed st' + timed_out st'
     = S (successful st + failed st + timed_out st))%nat /\
  (kept_original st' + compressed_smaller st' + successful st
     = kept_original st + compressed_smaller st + successful st')%nat.
Proof.
  unfold process_pdf. intros H.
  destruct (src !! rel_path) as [original|]; [|discriminate].
  destruct (dst !! rel_path) as [existing|].
  { injection H as <- <-. simpl. destruct (size_lt _ _); lia. }
  destruct (with_suffix rel_path ".temp.pdf") as [temp_path|]; [|discriminate].
  set (dst1 := match gs_written gs with
               | Some c => <[temp_path := c]> dst | None => dst end) in H.
  destruct (gs_success gs);
    [destruct (dst1 !! temp_path) as [compressed|]|];
    try (injection H as <- <-; simpl; destruct (gs_elapsed_ge_timeout gs); lia).
  destruct (size_lt _ _ || _) eqn:Hkeep; injection H as <- <-; simpl.
  - destruct (size_lt _ _); lia.
  - lia.
Qed.

Lemma main_loop_counts gs all_pdfs src : forall i dst st dst' st',
  main_loop gs i all_pdfs src dst st = Returned (dst', st') ->
  (successful st' + failed st' + timed_out st'
     = successful st + failed st + timed_out st + length all_pdfs)%nat /\
  (kept_original st' + compressed_smaller st' + successful st
     = kept_original st + compressed_smaller st + successful st')%nat.
Proof.
  induction all_pdfs as [|p rest IH]; intros i dst st dst' st' H; simpl in H.
  - injection H as <- <-. simpl. lia.
  - destruct (process_pdf (gs i p) p src dst st) as [[dst1 st1]|] eqn:Hp; [|discriminate].
    apply process_pdf_counts in Hp. apply IH in H. simpl. lia.
Qed.

(** The summary of a run that reaches it: every PDF of the list is
    counted exactly once as successful, failed or timed out, and every
    successful one exactly once as smaller or as kept. *)
Theorem compress_summary_counts gs all_pdfs src dst dst' st' :
  main_loop gs 1 all_pdfs src dst no_stats = Returned (dst', st') ->
  (successful st' + failed st' + timed_out st' = length all_pdfs)%nat /\
  (kept_original st' + compressed_smaller st' = successful st')%nat.
Proof.
  intros H. apply main_loop_counts in H. simpl in H. lia.
Qed.

(** Two PDFs, the first compressed, the second timing out. *)
Lemma compress_summary_counts_witness :
  exists dst' st',
    main_loop (fun i _ => {| gs_success := (i =? 1)%nat; gs_written := Some "ab"%string;
                             gs_elapsed_ge_timeout := negb (i =? 1)%nat |})
              1 [["a.pdf"]; ["b.pdf"]]%string
              {[ ["a.pdf"]%string := "abc"%string; ["b.pdf"]%string := "abcd"%string ]}
              ∅ no_stats = Returned (dst', st') /\
    (successful st' + failed st' + timed_out st' = 2)%nat /\
    (kept_original st' + compressed_smaller st' = successful st')%nat.
Proof.
  destruct (main_loop _ 1 [["a.pdf"]; ["b.pdf"]]%string _ ∅ no_stats)
    as [[dst' st']|] eqn:H; [|by vm_compute in H].
  exists dst', st'. split; [reflexivity|].
  exact (compress_summary_counts _ _ _ _ _ _ H).
Defined.

(** *** What one step leaves alone *)

Lemma process_pdf_existing gs rel_path src dst st existing :
  is_Some (src !! rel_path) -> dst !! rel_path = Some existing ->
  exists st', process_pdf gs rel_path src dst st = Returned (dst, st').
Proof.
  intros [original Hsrc] Hdst. unfold process_pdf. rewrite Hsrc, Hdst. eauto.
Qed.

Lemma process_pdf_frame gs rel_path src dst st dst' st' temp_path q :
  process_pdf gs rel_path src dst st = Returned (dst', st') ->
  with_suffix rel_path ".temp.pdf" = Returned temp_path ->
  q <> rel_path -> q <> temp_path -> dst' !! q = dst !! q.
Proof.
  unfold process_pdf. intros H Htemp Hq Hqt. rewrite Htemp in H.
  destruct (src !! rel_path) as [original|]; [|discriminate].
  destruct (dst !! rel_path) as [existing|]; [by injection H as <- <-|].
  set (dst1 := match gs_written gs with
               | Some c => <[temp_path := c]> dst | None => dst end) in H.
  assert (Hgs : dst1 !! q = dst !! q).
  { unfold dst1. destruct (gs_written gs); [by rewrite lookup_insert_ne | done]. }
  destruct (gs_success gs);
    [destruct (dst1 !! temp_path) as [compressed|]|];
    try (injection H as <- <-; rewrite unlink_if_exists_other by done;
         by rewrite lookup_insert_ne).
  destruct (size_lt _ _ || _); injection H as <- <-.
  - rewrite lookup_insert_ne by done. by rewrite lookup_delete_ne.
  - rewrite unlink_if_exists_other by done. by rewrite lookup_insert_ne.
Qed.

(** A fresh output is no larger than the original. *)
Lemma process_pdf_fresh gs rel_path src dst st original :
  src !! rel_path = Some original -> dst !! rel_path = None ->
  name rel_path <> EmptyString ->
  exists dst' st' out,
    process_pdf gs rel_path src dst st = Returned (dst', st') /\
    dst' !! rel_path = Some out /\
    (String.length out <= String.length original)%nat.
Proof.
  intros Hsrc Hdst Hname.
  destruct (with_suffix_defined rel_path ".temp.pdf" Hname) as [temp_path Htemp].
  pose proof (with_suffix_temp_ne _ _ Htemp) as Hne.
  unfold process_pdf. rewrite Hsrc, Hdst, Htemp.
  set (dst1 := match gs_written gs with
               | Some c => <[temp_path := c]> dst | None => dst end).
  destruct (gs_success gs);
    [destruct (dst1 !! temp_path) as [compressed|] eqn:Hc|];
    try (eexists _, _, original; split; [reflexivity|]; split; [|lia];
         rewrite unlink_if_exists_other by done; apply lookup_insert_eq).
  unfold ALWAYS_KEEP_SMALLEST. simpl negb. rewrite orb_false_r.
  destruct (size_lt _ _) eqn:Hlt.
  - apply size_lt_bytes in Hlt. eexists _, _, compressed.
    split; [reflexivity|]. split; [apply lookup_insert_eq | lia].
  - eexists _, _, original. split; [reflexivity|]. split; [|lia].
    rewrite unlink_if_exists_other by done. apply lookup_insert_eq.
Qed.

(** The list of a run: every PDF is in the source tree and has a name,
    and no temporary path is the output path of a PDF of the list. *)
Definition runnable (src : tree) (all_pdfs : list path) : Prop :=
  Forall (fun p => is_Some (src !! p) /\ name p <> EmptyString /\
                   Forall (fun q => with_suffix p ".temp.pdf" <> Returned q) all_pdfs)
         all_pdfs.

(** What a finished run owes to the PDF [p]: an output, which is no
    larger than the original when the run has made it. *)
Definition output_ok (src dst0 dst' : tree) (p : path) : Prop :=
  exists out, dst' !! p = Some out /\
    (dst0 !! p = None ->
     exists original, src !! p = Some original /\
                      (String.length out <= String.length original)%nat).

Lemma main_loop_outputs gs src dst0 all : forall todo done i dst st,
  all = done ++ todo -> runnable src all ->
  Forall (output_ok src dst0 dst) done ->
  (forall q, q ∉ done -> ~ (exists p, p ∈ done /\ with_suffix p ".temp.pdf" = Returned q) ->
             dst !! q = dst0 !! q) ->
  exists dst' st', main_loop gs i todo src dst st = Returned (dst', st') /\
                   Forall (output_ok src dst0 dst') all.
Proof.
  induction todo as [|p rest IH]; intros done i dst st Hall Hrun Hdone Hframe; simpl.
  - rewrite app_nil_r in Hall. subst all. eauto.
  - assert (Hp : p ∈ all) by (subst all; set_solver).
    unfold runnable in Hrun. pose proof Hrun as Hrun'.
    rewrite Forall_forall in Hrun'. destruct (Hrun' p Hp) as ([original Hsrc] & Hname & Htemps).
    destruct (with_suffix_defined p ".temp.pdf" Hname) as [temp_path Htemp].
    assert (Htemp_out : temp_path ∉ all).
    { intros Hin. rewrite Forall_forall in Htemps. by apply (Htemps temp_path Hin). }
    assert (Hstep : exists dst1 st1,
      process_pdf (gs i p) p src dst st = Returned (dst1, st1) /\
      output_ok src dst0 dst1 p).
    { destruct (dst !! p) as [existing|] eqn:Hdst.
      - destruct (process_pdf_existing (gs i p) p src dst st existing) as [st1 Hst1];
          [by rewrite Hsrc | done |].
        exists dst, st1. split; [exact Hst1|]. exists existing. split; [done|].
        intros Hnone. destruct (decide (p ∈ done)) as [Hin|Hnin].
        + rewrite Forall_forall in Hdone. destruct (Hdone p Hin) as (out & Hout & Hsize).
          rewrite Hdst in Hout. injection Hout as <-. by apply Hsize.
        + rewrite Hframe in Hdst; [congruence | done |].
          intros (p' & Hp' & Htp'). 
          assert (p' ∈ all) as Hp'all by (subst all; set_solver).
          destruct (Hrun' p' Hp'all) as (_ & _ & Ht'). rewrite Forall_forall in Ht'.
          by apply (Ht' p Hp).
      - destruct (process_pdf_fresh (gs i p) p src dst st original Hsrc Hdst Hname)
          as (dst1 & st1 & out & Hrun1 & Hout & Hsize).
        exists dst1, st1. split; [exact Hrun1|]. exists out. split; [done|]. eauto. }
    destruct Hstep as (dst1 & st1 & Hrun1 & Hok1). rewrite Hrun1.
    apply (IH (done ++ [p]) (S i) dst1 st1).
    + by rewrite <- app_assoc.
    + exact Hrun.
    + apply Forall_app. split; [|by constructor].
      rewrite Forall_forall in Hdone |- *. intros q Hq.
      destruct (decide (q = p)) as [->|Hne]; [exact Hok1|].
      destruct (Hdone q Hq) as (out & Hout & Hsize). exists out. split; [|exact Hsize].
      rewrite (process_pdf_frame _ _ _ _ _ _ _ temp_path q Hrun1 Htemp Hne); [done|].
      intros ->. apply Htemp_out. subst all. set_solver.
    + intros q Hq Hnt.
      rewrite (process_pdf_frame _ _ _ _ _ _ _ temp_path q Hrun1 Htemp).
      * apply Hframe; [set_solver|]. intros (p' & Hp' & Htp'). apply Hnt.
        exists p'. split; [set_solver | done].
      * set_solver.
      * intros ->. apply Hnt. exists p. split; [set_solver | done].
Qed.

(** A run over such a list reaches its summary, and then every PDF of
    the list has an output, no larger than the original unless it was
    there before the run. *)
Theorem compress_run_outputs gs all_pdfs src dst :
  runnable src all_pdfs ->
  exists dst' st',
    main_loop gs 1 all_pdfs src dst no_stats = Returned (dst', st') /\
    Forall (output_ok src dst dst') all_pdfs.
Proof.
  intros Hrun. apply (main_loop_outputs gs src dst all_pdfs all_pdfs [] 1%nat dst no_stats);
    [done | exact Hrun | constructor | done].
Qed.

Definition two_pdfs : tree :=
  {[ ["a.pdf"]%string := "abc"%string; ["b.pdf"]%string := "abcd"%string ]}.

Lemma runnable_two : runnable two_pdfs [["a.pdf"]; ["b.pdf"]]%string.
Proof.
  unfold runnable. repeat constructor; try (by vm_compute); by eexists.
Qed.

Lemma compress_run_outputs_witness :
  exists dst' st',
    main_loop (fun _ _ => {| gs_success := true; gs_written := Some "ab"%string;
                             gs_elapsed_ge_timeout := false |})
              1 [["a.pdf"]; ["b.pdf"]]%string two_pdfs ∅ no_stats
      = Returned (dst', st') /\
    Forall (output_ok two_pdfs ∅ dst') [["a.pdf"]; ["b.pdf"]]%string.
Proof.
  apply (compress_run_outputs _ _ _ ∅ runnable_two).
Defined.

(** The condition on the temporary paths is needed: with a.temp.pdf and
    a.pdf in the list, the output of the first is the temporary file of
    the second and is gone at the end. *)
Lemma compress_temp_collision :
  main_loop (fun _ _ => {| gs_success := true; gs_written := Some "z"%string;
                           gs_elapsed_ge_timeout := false |})
            1 [["a.temp.pdf"]; ["a.pdf"]]%string
            {[ ["a.temp.pdf"]%string := "xy"%string; ["a.pdf"]%string := "abc"%string ]}
            ∅ no_stats
  = Returned ({[ ["a.pdf"]%string := "z"%string ]},
              {| successful := 2; failed := 0; kept_original := 0;
                 compressed_smaller := 2; timed_out := 0 |}).
Proof. by vm_compute. Qed.

(** A second run: when every PDF of the list has its output, the run
    changes no file of the destination tree. *)
Theorem compress_rerun_changes_nothing gs all_pdfs src dst :
  Forall (fun p => is_Some (src !! p) /\ is_Some (dst !! p)) all_pdfs ->
  forall i st, exists st', main_loop gs i all_pdfs src dst st = Returned (dst, st').
Proof.
  induction 1 as [|p rest [Hsrc [existing Hdst]] Hrest IH]; intros i st; simpl; [eauto|].
  destruct (process_pdf_existing (gs i p) p src dst st existing Hsrc Hdst) as [st1 ->].
  apply IH.
Qed.

Lemma compress_rerun_changes_nothing_witness :
  exists st',
    main_loop (fun _ _ => {| gs_success := true; gs_written := Some "ab"%string;
                             gs_elapsed_ge_timeout := false |})
              1 [["a.pdf"]]%string {[ ["a.pdf"]%string := "abc"%string ]}
              {[ ["a.pdf"]%string := "ab"%string ]} no_stats
    = Returned ({[ ["a.pdf"]%string := "ab"%string ]}, st').
Proof.
  apply (compress_rerun_changes_nothing _ [["a.pdf"]]%string).
  repeat constructor; by eexists.
Defined.

End CompressRunFacts.

(** ** The whole run of the repair script and of the allowance scraper *)

Module RepairRunFacts.
Import Resume ResumeFacts StrFacts.

Lemma repair_loop_reports methods : forall todo dst processed failed,
  let '(_, processed', failed') := repair_loop methods todo dst processed failed in
  processed' ++ failed' ≡ₚ processed ++ failed ++ todo.
Proof.
  induction todo as [|p rest IH]; intros dst processed failed; simpl.
  - by rewrite app_nil_r.
  - destruct (try_methods methods p dst) as [success dst1].
    destruct (success && already_done dst1 p).
    + specialize (IH dst1 (processed ++ [p]) failed).
      destruct (repair_loop methods rest dst1 (processed ++ [p]) failed) as [[d pr] fl].
      rewrite IH. rewrite <- !app_assoc. f_equiv. simpl.
      by rewrite Permutation_middle.
    + specialize (IH dst1 processed (failed ++ [p])).
      destruct (repair_loop methods rest dst1 processed (failed ++ [p])) as [[d pr] fl].
      rewrite IH. by rewrite <- !app_assoc.
Qed.

Lemma repair_loop_processed methods : forall todo dst processed failed,
  NoDup todo ->
  (forall p, p ∈ processed -> (p ∉ todo) /\ already_done dst p = true) ->
  let '(dst', processed', _) := repair_loop methods todo dst processed failed in
  forall p, p ∈ processed' -> already_done dst' p = true.
Proof.
  induction todo as [|q rest IH]; intros dst processed failed Hnd Hpr; simpl.
  - intros p Hp. by apply Hpr.
  - apply NoDup_cons in Hnd as [Hq Hnd].
    destruct (try_methods methods q dst) as [success dst1] eqn:Htry.
    assert (Hother : forall p, p <> q -> already_done dst1 p = already_done dst p).
    { intros p Hne. unfold already_done.
      pose proof (try_methods_other methods q p dst (not_eq_sym Hne)) as H.
      rewrite Htry in H. simpl in H. by rewrite H. }
    destruct (success && already_done dst1 q) eqn:Hok.
    + apply IH; [exact Hnd|]. intros p Hp.
      apply elem_of_app in Hp as [Hp|Hp].
      * destruct (Hpr p Hp) as [Hnin Hdone]. split; [set_solver|].
        rewrite Hother; [done | set_solver].
      * apply list_elem_of_singleton in Hp as ->. split; [done|].
        by apply andb_true_iff in Hok as [_ ?].
    + apply IH; [exact Hnd|]. intros p Hp.
      destruct (Hpr p Hp) as [Hnin Hdone]. split; [set_solver|].
      rewrite Hother; [done | set_solver].
Qed.

(** For a list of PDFs in which no path occurs twice: every PDF that is
    not yet repaired is reported exactly once, as processed or as
    failed, and every PDF reported as processed has at the end of the
    run a repaired copy of more than 1024 bytes. *)
Theorem repair_reports_every_pdf methods all_pdfs dst :
  NoDup all_pdfs ->
  let '(dst', processed, failed) := repair_main methods all_pdfs dst in
  processed ++ failed ≡ₚ pdfs_to_process dst all_pdfs /\
  forall p, p ∈ processed -> already_done dst' p = true.
Proof.
  intros Hnd. unfold repair_main.
  pose proof (repair_loop_reports methods (pdfs_to_process dst all_pdfs) dst [] []) as Hrep.
  pose proof (repair_loop_processed methods (pdfs_to_process dst all_pdfs) dst [] []) as Hpr.
  destruct (repair_loop methods (pdfs_to_process dst all_pdfs) dst [] []) as [[d pr] fl].
  split; [exact Hrep|]. apply Hpr.
  - unfold pdfs_to_process. by apply NoDup_filter.
  - intros p Hp. by apply elem_of_nil in Hp.
Qed.

(** One PDF, repaired by the second method with 1025 bytes. *)
Definition second_method_works : list fix_method :=
  [ (fun _ => (false, None));
    (fun _ => (true, Some (string_of_list_ascii (repeat "a"%char 1025)))) ].

Lemma repair_reports_every_pdf_witness :
  let '(dst', processed, failed) :=
    repair_main second_method_works ["2024-Jan/mail.pdf"%string] ∅ in
  processed ++ failed ≡ₚ pdfs_to_process ∅ ["2024-Jan/mail.pdf"%string] /\
  forall p, p ∈ processed -> already_done dst' p = true.
Proof.
  apply (repair_reports_every_pdf second_method_works ["2024-Jan/mail.pdf"%string] ∅).
  repeat constructor. set_solver.
Defined.

(** *** [layer_0] of the allowance scraper *)

Lemma csv_path_inj (d e : string) : csv_path d = csv_path e -> d = e.
Proof.
  unfold csv_path. intros H. by apply app_inv_head_str, app_inv_tail_str in H.
Qed.

(** What is at the CSV path of a date after [layer_0], when no
    navigation fails: the CSV that was there, else the table read for
    the date if the date is listed and a table was read, else nothing. *)
Definition csv_after (read_table : string -> option (option string))
    (date_values : list string) (fs : directory) (d : string) : option string :=
  match fs !! csv_path d with
  | Some csv => Some csv
  | None =>
      if bool_decide (d ∈ date_values)
      then match read_table d with Some (Some csv) => Some csv | _ => None end
      else None
  end.

Lemma layer_0_csv navigate read_table :
  (forall d, navigate d = true) ->
  forall date_values fs visited d,
    (layer_0 navigate read_table date_values fs visited).1.2 !! csv_path d
    = csv_after read_table date_values fs d.
Proof.
  intros Hnav. induction date_values as [|e rest IH]; intros fs visited d; simpl.
  - unfold csv_after. destruct (fs !! csv_path d); [done|].
    by rewrite bool_decide_eq_false_2 by set_solver.
  - case_bool_decide as Hex.
    + rewrite IH. unfold csv_after. destruct (fs !! csv_path d) eqn:Hd; [done|].
      assert (d <> e) as Hne by (intros ->; rewrite Hd in Hex; by destruct Hex).
      destruct (decide (d ∈ rest)).
      * by rewrite !bool_decide_eq_true_2 by set_solver.
      * by rewrite !bool_decide_eq_false_2 by set_solver.
    + rewrite Hnav. assert (fs !! csv_path e = None) as He.
      { destruct (fs !! csv_path e) eqn:H; [|done]. exfalso. apply Hex. eauto. }
      destruct (read_table e) as [[csv|]|] eqn:Hread; rewrite IH; unfold csv_after.
      * destruct (decide (d = e)) as [->|Hne].
        -- rewrite lookup_insert_eq, He, bool_decide_eq_true_2 by set_solver.
           by rewrite Hread.
        -- rewrite lookup_insert_ne by (intros H; by apply csv_path_inj in H).
           destruct (fs !! csv_path d); [done|].
           destruct (decide (d ∈ rest)).
           ++ by rewrite !bool_decide_eq_true_2 by set_solver.
           ++ by rewrite !bool_decide_eq_false_2 by set_solver.
      * destruct (fs !! csv_path d) eqn:Hd; [done|].
        destruct (decide (d = e)) as [->|Hne].
        -- rewrite Hread, (bool_decide_eq_true_2 (e ∈ e :: rest)) by set_solver.
           by destruct (bool_decide (e ∈ rest)).
        -- destruct (decide (d ∈ rest)).
           ++ by rewrite !bool_decide_eq_true_2 by set_solver.
           ++ by rewrite !bool_decide_eq_false_2 by set_solver.
      * destruct (fs !! csv_path d) eqn:Hd; [done|].
        destruct (decide (d = e)) as [->|Hne].
        -- rewrite Hread, (bool_decide_eq_true_2 (e ∈ e :: rest)) by set_solver.
           by destruct (bool_decide (e ∈ rest)).
        -- destruct (decide (d ∈ rest)).
           ++ by rewrite !bool_decide_eq_true_2 by set_solver.
           ++ by rewrite !bool_decide_eq_false_2 by set_solver.
Qed.

(** When no navigation fails, [layer_0] goes through the whole list, and
    afterwards a date has a CSV exactly when it had one before or it is
    listed and a table was read for it; a CSV that was there is left as
    it is, and a date whose table could not be read does not stop the
    loop. *)
Theorem layer_0_writes_tables navigate read_table date_values fs :
  (forall d, navigate d = true) ->
  (layer_0 navigate read_table date_values fs []).1.1 = true /\
  forall d, (layer_0 navigate read_table date_values fs []).1.2 !! csv_path d
            = csv_after read_table date_values fs d.
Proof.
  intros Hnav. split; [|intros d; by apply layer_0_csv].
  generalize (@nil string). revert fs.
  induction date_values as [|e rest IH]; intros fs visited; simpl; [done|].
  case_bool_decide; [apply IH|]. rewrite Hnav.
  destruct (read_table e) as [[csv|]|]; apply IH.
Qed.

(** Two dates; the table of the first cannot be read. *)
Lemma layer_0_writes_tables_witness :
  (layer_0 (fun _ => true)
     (fun d => if String.eqb d "20240101" then None else Some (Some "Country,Post"%string))
     ["20240101"; "20240201"]%string ∅ []).1.2 !! csv_path "20240201"
  = Some "Country,Post"%string.
Proof.
  pose proof (layer_0_writes_tables (fun _ => true)
     (fun d => if String.eqb d "20240101" then None else Some (Some "Country,Post"%string))
     ["20240101"; "20240201"]%string ∅ (fun _ => eq_refl)) as [_ H].
  rewrite H. by vm_compute.
Defined.

End RepairRunFacts.

(** ** The search over a master file of several months *)

Module MonthSearchFacts.
Import Outcome Json EmailSearch EmailSearchFacts.

(** *** A file entry that is not an object *)

Definition is_object (j : json) : Prop := exists d, j = JObj d.

Lemma search_files_raises lower terms files :
  Exists (fun kv => ~ is_object kv.2) files ->
  forall matches, search_files lower terms files matches = Raised.
Proof.
  induction files as [|[filename file_data] rest IH]; intros Hex matches;
    [by apply Exists_nil in Hex|].
  apply Exists_cons in Hex as [Hbad|Hex]; simpl in *.
  - destruct file_data; try done. exfalso. apply Hbad. by eexists.
  - destruct (py_get file_data "emails" (JList [])) as [emails|]; [|done]. simpl.
    destruct (py_iter emails) as [l|]; [|done]. simpl.
    destruct (search_emails lower terms l matches) as [matches'|]; [|done]. simpl.
    by apply IH.
Qed.

(** The loop over [data['files']] has no [try]: when one entry of
    [files] is not an object (a JSON file that holds a list, a string or
    a number), the script ends in an exception whatever the search terms
    are, also when other entries hold matching e-mails. *)
Theorem search_raises_on_non_object lower (d files : pydict) (search_terms : list string) :
  dict_get "files" d = Some (JObj files) ->
  Exists (fun kv => ~ is_object kv.2) files ->
  search lower (JObj d) search_terms = Raised.
Proof.
  intros Hfiles Hex. unfold search. simpl. rewrite Hfiles. simpl.
  by apply search_files_raises.
Qed.

(** A JSON file that holds a list, beside the month file of the sample
    e-mail. *)
Lemma search_raises_on_non_object_witness :
  search lower_ascii
    (consolidate "2024-02-01T00:00:00"
       [("2024-Jan/2024-Jan_consolidated.json"%string,
         Some (month_json "2024-Jan" "2024-01-31T00:00:00" [entry_json sample_entry]));
        ("notes.json"%string, Some (JList [JStr "dcod ngc"]))])
    ["dcod"; "ngc"]%string
  = Raised.
Proof.
  eapply search_raises_on_non_object; [reflexivity|].
  apply Exists_cons_tl, Exists_cons_hd. intros [d Hd]. discriminate Hd.
Defined.

(** *** Several month files *)

Record month_file := {
  rel_path : string;
  month_name : string;
  generated : string;
  emails : list month_entry
}.

Definition load_month (f : month_file) : string * option json :=
  (rel_path f, Some (month_json (month_name f) (generated f) (map entry_json (emails f)))).

Definition month_item (f : month_file) : string * json :=
  (rel_path f, month_json (month_name f) (generated f) (map entry_json (emails f))).

Lemma dict_set_fresh (k : string) (v : json) (d : pydict) :
  k ∉ dict_keys d -> dict_set k v d = d ++ [(k, v)].
Proof.
  induction d as [|[k' v'] d IH]; simpl; intros Hk; [done|].
  apply not_elem_of_cons in Hk as [Hne Hk].
  destruct (String.eqb_spec k k'); [done|]. by rewrite IH.
Qed.

Lemma collect_metadata_months (files : list month_file) : forall acc,
  NoDup (dict_keys acc ++ map rel_path files) ->
  collect_metadata (map load_month files) acc = acc ++ map month_item files.
Proof.
  induction files as [|f files IH]; intros acc Hnd; simpl.
  - by rewrite app_nil_r.
  - rewrite dict_set_fresh.
    + rewrite IH.
      * by rewrite <- app_assoc.
      * unfold dict_keys in *. rewrite map_app. simpl. by rewrite <- app_assoc.
    + apply NoDup_app in Hnd as (_ & Hdisj & _). intros Hin.
      apply (Hdisj _ Hin). set_solver.
Qed.

Lemma master_files_months (items : list (string * json)) : forall files,
  NoDup (dict_keys files ++ map fst items) ->
  fold_left (fun files '(rel_path, metadata) => dict_set rel_path metadata files)
            items files
  = files ++ items.
Proof.
  induction items as [|[k v] items IH]; intros files Hnd; simpl.
  - by rewrite app_nil_r.
  - rewrite dict_set_fresh.
    + rewrite IH.
      * by rewrite <- app_assoc.
      * unfold dict_keys in *. rewrite map_app. simpl. by rewrite <- app_assoc.
    + apply NoDup_app in Hnd as (_ & Hdisj & _). intros Hin.
      apply (Hdisj _ Hin). set_solver.
Qed.

Lemma search_files_months lower search_terms (files : list month_file) : forall matches,
  search_files lower (map lower search_terms) (map month_item files) matches
  = Returned (matches ++
      flat_map (fun f => map entry_json (List.filter (hit lower search_terms) (emails f)))
               files).
Proof.
  induction files as [|f files IH]; intros matches; simpl.
  - by rewrite app_nil_r.
  - rewrite search_emails_hits. simpl. rewrite IH. by rewrite <- app_assoc.
Qed.

Lemma filter_hit_nil lower (es : list month_entry) :
  List.filter (hit lower []) es = es.
Proof. induction es as [|e es IH]; simpl; [done | by rewrite IH]. Qed.

(** The search over the master file built from the month files of the
    consolidation script, all under different paths: the result lists,
    file after file and in the order of each [emails] list, exactly the
    e-mails whose text contains every search term; with no search term
    it lists every e-mail. *)
Theorem search_month_files lower now (files : list month_file)
    (search_terms : list string) :
  NoDup (map rel_path files) ->
  search lower (consolidate now (map load_month files)) search_terms
  = Returned
      (flat_map (fun f => map entry_json (List.filter (hit lower search_terms) (emails f)))
                files)
  /\ (search_terms = [] ->
      search lower (consolidate now (map load_month files)) search_terms
      = Returned (flat_map (fun f => map entry_json (emails f)) files)).
Proof.
  intros Hnd.
  assert (Hrun : search lower (consolidate now (map load_month files)) search_terms
    = Returned
        (flat_map (fun f => map entry_json (List.filter (hit lower search_terms) (emails f)))
                  files)).
  { unfold search, consolidate, create_master_json. simpl.
    rewrite collect_metadata_months by done. simpl.
    rewrite master_files_months.
    - simpl. by rewrite search_files_months.
    - simpl. rewrite map_map. exact Hnd. }
  split; [exact Hrun|]. intros ->. rewrite Hrun. f_equal.
  apply flat_map_ext. intros f. by rewrite filter_hit_nil.
Qed.

Definition january : month_file :=
  {| rel_path := "2024-Jan/2024-Jan_consolidated.json"; month_name := "2024-Jan";
     generated := "2024-01-31T00:00:00"; emails := [sample_entry] |}.

Lemma search_month_files_witness :
  search lower_ascii (consolidate "2024-02-01T00:00:00" (map load_month [january]))
         ["dcod"; "ngc"]%string
  = Returned
      (flat_map (fun f => map entry_json
                   (List.filter (hit lower_ascii ["dcod"; "ngc"]%string) (emails f)))
                [january]).
Proof.
  destruct (search_month_files lower_ascii "2024-02-01T00:00:00" [january]
              ["dcod"; "ngc"]%string) as [H _]; [|exact H].
  repeat constructor. set_solver.
Defined.

End MonthSearchFacts.

(** ** Resuming and bookkeeping in the FBI Vault scraper *)

Module FbiResumeFacts.
Import Json FbiVault FbiVaultFacts.

(** *** A link that is already in the tracking list *)

(** An entry that is an object with a [url] field. *)
Definition url_readable (entry : json) : Prop :=
  exists d v, entry = JObj d /\ dict_get "url" d = Some v.

(** An entry whose [url] is the [href] of the link. *)
Definition has_url (link_url : option string) (entry : json) : Prop :=
  exists d v, entry = JObj d /\ dict_get "url" d = Some v /\ url_eq v link_url = true.

Lemma any_url_eq_found link_url l s :
  Forall url_readable l -> Exists (has_url link_url) l ->
  any_url_eq link_url l s = (Ok true, s).
Proof.
  intros Hall Hex. induction Hall as [|pdf l (d & v & -> & Hv) Hl IH];
    [by apply Exists_nil in Hex|].
  cbn [any_url_eq entry_item]. rewrite Hv. cbv [mbind M_bind mret M_ret].
  destruct (url_eq v link_url) eqn:Heq; [done|].
  apply IH. apply Exists_cons in Hex as [(d' & v' & [= <-] & Hv' & Heq')|Hex]; [|done].
  congruence.
Qed.

(** When every entry of [downloaded_pdfs] has a [url] and one of them
    has the URL of the link, [process_single_document_download] returns
    at once with [documents_processed] unchanged and [True]: the browser
    is not consulted, nothing is downloaded, appended or written. *)
Theorem fbi_skips_downloaded_link (w : world) (l : link) (dp : nat) (s : state) :
  Forall url_readable (pdfs s) ->
  Exists (has_url (href l)) (pdfs s) ->
  process_single_document_download w l dp s = (Ok (dp, true), s).
Proof.
  intros Hall Hex. unfold process_single_document_download.
  cbv [mbind M_bind get_state]. by rewrite any_url_eq_found.
Qed.

Definition quiet_world : world :=
  {| setup_driver_w := fun _ => inl tt;
     driver_get_w := fun _ => inl tt;
     result_links_w := fun _ => inl [];
     navigate_next_w := fun _ => false;
     driver_health_w := fun _ => true;
     recover_w := fun _ => true;
     current_url_w := fun _ => inl "https://vault.fbi.gov/search"%string;
     extract_pdf_url_w := fun _ => None;
     download_pdf_w := fun _ => inl None;
     path_exists_w := fun _ => false;
     results_file_w := fun _ => None;
     extract_text_w := fun _ => {| body_text := ""; stripped_len := 0 |};
     doc_details_w := fun _ => inl ""%string;
     today_w := fun _ => "2026-01-01"%string;
     input_yes_w := fun _ => false |}.

Definition ufo_link : link :=
  {| href := Some "https://vault.fbi.gov/ufo"%string; link_text := "UFO" |}.

Definition ufo_entry (status : string) : json :=
  JObj [ ("path", JStr "fbi_vault_pdfs/UFO.pdf");
         ("url", JStr "https://vault.fbi.gov/ufo");
         ("title", JStr "UFO");
         ("ocr", JStr status) ]%string.

Lemma fbi_skips_downloaded_link_witness :
  process_single_document_download quiet_world ufo_link 1
    (set_pdfs [ufo_entry "pending"] (initial_state NoFile))
  = (Ok (1%nat, true), set_pdfs [ufo_entry "pending"] (initial_state NoFile)).
Proof.
  apply fbi_skips_downloaded_link.
  - repeat constructor. by eexists _, _.
  - apply Exists_cons_hd. by eexists _, _.
Defined.

(** *** The download phase only appends *)

(** The list [downloaded_pdfs] still begins with [l0], and the tracking
    file is the file [f0] or a list that begins with [l0]. *)
Definition grows_from (l0 : list json) (f0 : tracking) (s : state) : Prop :=
  l0 `prefix_of` pdfs s /\
  (tracking_file s = f0 \/
   exists l, tracking_file s = TrackingList l /\ l0 `prefix_of` l).

Lemma grows_download_invariant l0 f0 : download_invariant (grows_from l0 f0).
Proof.
  split.
  - intros n s H. exact H.
  - intros s H. exact H.
  - intros s p u t [H1 H2]. split; [|exact H2].
    simpl. by apply prefix_app_r.
  - intros s [H1 H2]. split; [exact H1|]. right. simpl. eauto.
  - intros l s H. exact H.
Qed.

Lemma grows_from_start (s : state) : grows_from (pdfs s) (tracking_file s) s.
Proof. split; [done | by left]. Qed.

(** Whatever the browser does and wherever they end, the page loop of
    the download phase and the verification pass leave every entry that
    [downloaded_pdfs] had in its place and unchanged, new entries coming
    after them; and the tracking file, if they write it at all, lists
    those entries first. *)
Theorem download_phase_only_appends (w : world) (fuel : nat)
    (max_documents : option Z) (dp : nat) (s : state) :
  grows_from (pdfs s) (tracking_file s) (download_pages w fuel max_documents dp s).2 /\
  grows_from (pdfs s) (tracking_file s) (verify_downloads_complete w fuel s).2.
Proof.
  split.
  - destruct (download_pages w fuel max_documents dp s) as [r s'] eqn:Hrun.
    eapply (keeps_download_pages w _ (grows_download_invariant _ _)); [| |exact Hrun].
    + intros n st H. exact H.
    + apply grows_from_start.
  - destruct (verify_downloads_complete w fuel s) as [r s'] eqn:Hrun.
    eapply (keeps_verify_downloads_complete w _ (grows_download_invariant _ _));
      [|exact Hrun]. apply grows_from_start.
Qed.

(** *** The OCR loop changes nothing but the [ocr] fields *)

(** The same entry, up to the value of [ocr]. *)
Definition same_but_ocr (a b : json) : Prop :=
  a = b \/
  exists d d', a = JObj d /\ b = JObj d' /\
    forall k, k <> "ocr"%string -> dict_get k d' = dict_get k d.

Lemma same_but_ocr_set (a : json) (d : pydict) (status : string) :
  same_but_ocr a (JObj d) ->
  same_but_ocr a (JObj (dict_set "ocr" (JStr status) d)).
Proof.
  intros [->|(d0 & d1 & -> & [= <-] & H)]; right.
  - exists d, (dict_set "ocr" (JStr status) d). repeat split.
    intros k Hk. by apply dict_get_set_ne.
  - exists d0, (dict_set "ocr" (JStr status) d). repeat split.
    intros k Hk. rewrite dict_get_set_ne by done. by apply H.
Qed.

Definition fields_kept (l0 : list json) (s : state) : Prop :=
  Forall2 same_but_ocr l0 (ocr_pdfs s).

Lemma fields_ocr_invariant l0 : ocr_invariant (fields_kept l0).
Proof.
  split; try (intros; assumption).
  - intros n s H. exact H.
  - intros s idx d status H Hl _. unfold fields_kept in *. simpl.
    destruct (Forall2_lookup_r _ _ _ _ _ H Hl) as (a & Ha & Hab).
    rewrite <- (list_insert_id l0 idx a Ha).
    apply Forall2_insert; [exact H|]. by apply same_but_ocr_set.
Qed.

(** Whatever the OCR engine, the browser and the user do, the loop of
    the OCR phase leaves the list with the same number of entries, each
    with the fields it had, apart from the value of [ocr]. *)
Theorem ocr_loop_keeps_fields (w : world) (fuel ocr_attempts : nat) (s : state) :
  Forall2 same_but_ocr (ocr_pdfs s) (ocr_pdfs (ocr_loop w fuel ocr_attempts s).2).
Proof.
  destruct (ocr_loop w fuel ocr_attempts s) as [r s'] eqn:Hrun.
  eapply (keeps_ocr_loop w _ (fields_ocr_invariant (ocr_pdfs s))); [| |exact Hrun].
  - intros n st H. exact H.
  - unfold fields_kept. apply Forall_Forall2_diag, Forall_forall. intros x _. by left.
Qed.

(** *** Nothing to do *)

Definition is_complete (entry : json) : Prop :=
  exists d, entry = JObj d /\ dict_get "ocr" d = Some (JStr "complete").

Lemma count_pure_complete (l : list json) :
  Forall is_complete l ->
  count_pure "complete" l = Some (length l) /\
  is_Some (count_pure "failed" l) /\ is_Some (count_pure "pending" l).
Proof.
  induction 1 as [|pdf l (d & -> & Hocr) Hl (IH1 & [nf IH2] & [np IH3])]; simpl.
  - eauto.
  - rewrite IH1, IH2, IH3, Hocr. simpl. eauto.
Qed.

(** When every entry of the list is complete, the loop of the OCR phase
    ends at once: no pass is started, no PDF is read, nothing is written
    and the user is not asked. *)
Theorem ocr_loop_nothing_to_do (w : world) (fuel ocr_attempts : nat) (s : state) :
  Forall is_complete (ocr_pdfs s) ->
  ocr_loop w (S fuel) ocr_attempts s = (Ok tt, s).
Proof.
  intros Hall. destruct (count_pure_complete _ Hall) as (Hc & [nf Hf] & [np Hp]).
  cbn [ocr_loop]. cbv [mbind M_bind get_state].
  rewrite count_status_eq, Hc. cbv beta iota.
  rewrite count_status_eq, Hf. cbv beta iota.
  rewrite count_status_eq, Hp. cbv beta iota.
  by rewrite Nat.eqb_refl.
Qed.

Lemma ocr_loop_nothing_to_do_witness :
  ocr_loop quiet_world 1 0
    (set_ocr_pdfs [ufo_entry "complete"] false (initial_state NoFile))
  = (Ok tt, set_ocr_pdfs [ufo_entry "complete"] false (initial_state NoFile)).
Proof.
  apply ocr_loop_nothing_to_do. repeat constructor. by eexists.
Defined.

End FbiResumeFacts.

(** ** When the tracking file is removed *)

Module FbiCleanupFacts.
Import Json FbiVault FbiVaultFacts FbiResumeFacts.

(** The tracking file as the events of a run leave it. *)
Definition file_step (f : tracking) (ev : event) : tracking :=
  match ev with
  | EvWriteTracking content => TrackingList content
  | EvRemoveTracking => NoFile
  | _ => f
  end.

Definition file_after (f0 : tracking) (tr : list event) : tracking :=
  fold_left file_step tr f0.

(** Wherever the trace removes the tracking file, the file then is a
    list of complete entries. *)
Definition removes_complete (f0 : tracking) (tr : list event) : Prop :=
  forall before after, tr = before ++ EvRemoveTracking :: after ->
    exists l, file_after f0 before = TrackingList l /\ Forall is_complete l.

Definition cleanup_invariant (f0 : tracking) (s : state) : Prop :=
  tracking_file s = file_after f0 (trace s) /\ removes_complete f0 (trace s).

Definition keeps_file (ev : event) : Prop :=
  match ev with
  | EvWriteTracking _ | EvRemoveTracking => False
  | _ => True
  end.

Lemma file_after_snoc f0 tr ev :
  file_after f0 (tr ++ [ev]) = file_step (file_after f0 tr) ev.
Proof. unfold file_after. by rewrite fold_left_app. Qed.

Lemma removes_complete_snoc f0 tr ev :
  ev <> EvRemoveTracking -> removes_complete f0 tr -> removes_complete f0 (tr ++ [ev]).
Proof.
  intros Hev H before after Heq.
  destruct (decide (after = [])) as [->|Hne].
  - apply app_inj_tail in Heq as [_ ?]. congruence.
  - destruct (exists_last Hne) as (after' & ev' & ->).
    rewrite app_comm_cons, app_assoc in Heq. apply app_inj_tail in Heq as [Heq _].
    by apply (H before after').
Qed.

Lemma cleanup_plain_event f0 ev s :
  keeps_file ev -> cleanup_invariant f0 s -> cleanup_invariant f0 (add_event ev s).
Proof.
  intros Hev [H1 H2]. split; simpl.
  - rewrite file_after_snoc, <- H1. by destruct ev.
  - apply removes_complete_snoc; [by destruct ev | exact H2].
Qed.

Lemma cleanup_write f0 content s :
  cleanup_invariant f0 s ->
  cleanup_invariant f0
    (add_event (EvWriteTracking content) (set_tracking_file (TrackingList content) s)).
Proof.
  intros [H1 H2]. split; simpl.
  - by rewrite file_after_snoc.
  - by apply removes_complete_snoc.
Qed.

Lemma cleanup_download_invariant f0 : download_invariant (cleanup_invariant f0).
Proof.
  split.
  - intros n s H. exact H.
  - intros s H. by apply cleanup_plain_event.
  - intros s p u t H.
    apply (cleanup_plain_event f0 (EvAppend _) (set_pdfs _ s)); [done | exact H].
  - intros s H. by apply cleanup_write.
  - intros l s H. exact H.
Qed.

Lemma cleanup_ocr_invariant f0 : ocr_invariant (cleanup_invariant f0).
Proof.
  split.
  - intros n s H. exact H.
  - intros l s H. exact H.
  - intros s idx d p H _ _. by apply cleanup_plain_event.
  - intros s idx d status H _ _.
    apply (cleanup_plain_event f0 (EvSetOcr _ _) (set_ocr_pdfs _ _ s)); [done | exact H].
  - intros s doc H.
    apply (cleanup_plain_event f0 (EvResult _) (set_results _ s)); [done | exact H].
  - intros s H. by apply cleanup_write.
  - intros s H. by apply cleanup_plain_event.
Qed.

(** *** [verify_all_ocr_complete] *)

Lemma incomplete_entries_pure (l : list json) (s : state) :
  exists r, incomplete_entries l s = (r, s) /\ (r = Ok [] -> Forall is_complete l).
Proof.
  induction l as [|pdf l (r & Hr & Hall)]; simpl; [by eexists|].
  destruct pdf as [| | | | |d]; try (eexists; split; [reflexivity|done]).
  cbn [entry_get]. cbv [mbind M_bind mret M_ret]. rewrite Hr.
  destruct r as [rest|e|]; try (eexists; split; [reflexivity|done]).
  eexists; split; [reflexivity|].
  destruct (dict_get "ocr" d) as [[| | |status| |]|] eqn:Hocr; simpl; try done.
  destruct (String.eqb_spec status "complete") as [->|]; [|done].
  intros [= ->]. constructor; [by eexists | by apply Hall].
Qed.

Lemma warn_incomplete_pure (l : list json) (s : state) :
  exists r, warn_incomplete l s = (r, s).
Proof.
  induction l as [|pdf l [r Hr]]; simpl; [by eexists|].
  destruct pdf as [| | | | |d]; try by eexists.
  cbn [entry_item entry_get]. destruct (dict_get "path" d) as [p|]; [|by eexists].
  cbv [mbind M_bind mret M_ret].
  destruct p; cbn [basename_check]; cbv [mret M_ret raise]; rewrite ?Hr;
    try destruct r; by eexists.
Qed.

Section Cleanup.
Variable w : world.
Hypothesis Hno : forall t, input_yes_w w t = false.
Variable f0 : tracking.

Let I := cleanup_invariant f0.

(** What [verify_all_ocr_complete] answers when the user declines:
    [True] only for a file of complete entries (or none). *)
Lemma verify_all_ocr_complete_true (s s' : state) :
  verify_all_ocr_complete w s = (Ok true, s') ->
  trace s' = trace s /\ tracking_file s' = tracking_file s /\
  (tracking_file s = NoFile \/
   exists l, tracking_file s = TrackingList l /\ Forall is_complete l).
Proof.
  unfold verify_all_ocr_complete. cbv [mbind M_bind get_state].
  destruct (tracking_file s) as [| |l] eqn:Hfile.
  - intros [= <-]. auto.
  - discriminate.
  - destruct (incomplete_entries_pure l s) as (r & -> & Hall).
    destruct r as [[|pdf inc]|e|]; try discriminate.
    + intros [= <-]. repeat split; [done|]. right. eauto.
    + destruct (warn_incomplete_pure (pdf :: inc) s) as [r' ->].
      destruct r'; try discriminate.
      cbv [ask mret M_ret]. by rewrite Hno.
Qed.

Definition cleanup_step : M unit :=
  ok ← verify_all_ocr_complete w;
  if ok : bool
  then _ ← modify (set_tracking_file NoFile); emit EvRemoveTracking
  else mret tt.

Lemma cleanup_step_post (s s' : state) (r : result unit) :
  I s -> tracking_file s <> NoFile -> cleanup_step s = (r, s') -> I s'.
Proof.
  intros [H1 H2] Hfile Hrun. unfold cleanup_step in Hrun. cbv [mbind M_bind] in Hrun.
  destruct (verify_all_ocr_complete w s) as [[[|]|e|] s1] eqn:Hver.
  - apply verify_all_ocr_complete_true in Hver as (Htr & _ & [Hnone|Hl]); [done|].
    injection Hrun as <- <-. split; simpl.
    + by rewrite file_after_snoc.
    + intros before after Heq. rewrite Htr in Heq.
      destruct (decide (after = [])) as [->|Hne].
      * apply app_inj_tail in Heq as [<- _]. by rewrite <- H1.
      * destruct (exists_last Hne) as (after' & ev' & ->).
        rewrite app_comm_cons, app_assoc in Heq.
        apply app_inj_tail in Heq as [Heq _]. by apply (H2 before after').
  - injection Hrun as <- <-.
    eapply (keeps_verify_all_ocr_complete w _ (cleanup_ocr_invariant f0)); [|exact Hver].
    by split.
  - injection Hrun as <- <-.
    eapply (keeps_verify_all_ocr_complete w _ (cleanup_ocr_invariant f0)); [|exact Hver].
    by split.
  - injection Hrun as <- <-.
    eapply (keeps_verify_all_ocr_complete w _ (cleanup_ocr_invariant f0)); [|exact Hver].
    by split.
Qed.

Lemma keeps_cleanup :
  keeps I (s ← get_state;
           match tracking_file s with
           | NoFile => mret tt
           | _ => cleanup_step
           end).
Proof.
  apply post_get_bind. intros s0 Hs0 s r s' -> Hrun.
  destruct (tracking_file s0) eqn:Hfile.
  - injection Hrun as <- <-. exact Hs0.
  - eapply cleanup_step_post; [exact Hs0 | congruence | exact Hrun].
  - eapply cleanup_step_post; [exact Hs0 | congruence | exact Hrun].
Qed.

Lemma keeps_run_body fuel max_documents : keeps I (run_body w fuel max_documents).
Proof.
  pose proof (cleanup_download_invariant f0) as Hdl.
  pose proof (cleanup_ocr_invariant f0) as Hocr.
  assert (Hclock : clock_free I) by (intros n s H; exact H).
  assert (Hplain : forall ev, keeps_file ev -> forall s, I s -> I (add_event ev s)).
  { intros ev Hev s. by apply cleanup_plain_event. }
  assert (Hphase : keeps I (process_ocr_phase w fuel)).
  { apply (keeps_process_ocr_phase w I Hocr).
    - intros n. by apply Hplain.
    - intros s l H _. exact H.
    - intros s H. exact H. }
  pose proof (keeps_verify_all_ocr_complete w I Hocr) as Hverify.
  unfold run_body.
  apply keeps_bind; [by apply keeps_ask_raise|]. intros _.
  apply keeps_bind; [unfold driver_get; by apply keeps_ask_raise|]. intros _.
  apply keeps_bind.
  { unfold initialize_download_phase. apply post_get_bind. intros s0 Hs0.
    destruct (tracking_file s0); apply post_modify; by intros s ->. }
  intros _. apply keeps_bind; [apply keeps_get_state|]. intros s1.
  apply keeps_bind.
  { apply (keeps_download_pages w I Hdl). intros n. by apply Hplain. }
  intros _. apply keeps_bind; [by apply keeps_verify_downloads_complete|]. intros _.
  apply keeps_bind; [apply post_emit; by apply Hplain|]. intros _.
  apply keeps_bind; [apply keeps_get_state|]. intros s2.
  apply keeps_bind.
  { destruct (pdfs s2); [apply keeps_ret|].
    apply keeps_bind; [exact Hphase|]. intros _.
    apply keeps_bind; [exact Hverify|]. intros [|]; [apply keeps_ret | exact Hphase]. }
  intros _. apply keeps_cleanup.
Qed.

End Cleanup.

(** If the user never answers [y], then whatever else happens in a run:
    wherever the run removes the tracking file, the file at that moment
    is a list whose entries all have [ocr] complete. *)
Theorem tracking_removed_only_when_complete (w : world) (fuel : nat)
    (max_documents : option Z) (file : tracking) :
  (forall t, input_yes_w w t = false) ->
  forall before after,
    trace (run w fuel max_documents (initial_state file)).2
      = before ++ EvRemoveTracking :: after ->
    exists l, file_after file before = TrackingList l /\ Forall is_complete l.
Proof.
  intros Hno.
  destruct (run w fuel max_documents (initial_state file)) as [r s'] eqn:Hrun.
  assert (cleanup_invariant file s') as [_ H]; [|exact H].
  revert Hrun. unfold run.
  apply (keeps_try_catch (cleanup_invariant file)).
  - by apply keeps_run_body.
  - intros e. apply post_emit. intros s. by apply cleanup_plain_event.
  - split; [done|]. intros before after Heq. by destruct before.
Qed.

(** One search result that downloads and whose PDF can be read; the user
    declines every prompt. *)
Definition readable_world : world :=
  {| setup_driver_w := fun _ => inl tt;
     driver_get_w := fun _ => inl tt;
     result_links_w := fun t => inl (if (t <? 40)%nat then [ufo_link] else []);
     navigate_next_w := fun _ => false;
     driver_health_w := fun _ => true;
     recover_w := fun _ => true;
     current_url_w := fun _ => inl "https://vault.fbi.gov/search"%string;
     extract_pdf_url_w := fun _ => Some "https://vault.fbi.gov/ufo/at_download"%string;
     download_pdf_w := fun _ => inl (Some "fbi_vault_pdfs/UFO.pdf"%string);
     path_exists_w := fun _ => true;
     results_file_w := fun _ => None;
     extract_text_w := fun _ => {| body_text := "text"; stripped_len := 51 |};
     doc_details_w := fun _ => inl "UFO"%string;
     today_w := fun _ => "2026-01-01"%string;
     input_yes_w := fun _ => false |}.

Lemma tracking_removed_only_when_complete_witness :
  EvRemoveTracking ∈ trace (run readable_world 5 None (initial_state NoFile)).2 /\
  forall before after,
    trace (run readable_world 5 None (initial_state NoFile)).2
      = before ++ EvRemoveTracking :: after ->
    exists l, file_after NoFile before = TrackingList l /\ Forall is_complete l.
Proof.
  split.
  - vm_compute. set_solver.
  - apply (tracking_removed_only_when_complete readable_world 5 None NoFile).
    reflexivity.
Defined.

End FbiCleanupFacts.

(** ** One PDF in the OCR phase *)

Module FbiOcrFacts.
Import Json FbiVault FbiVaultFacts FbiResumeFacts.

(** The test that decides between complete and failed. *)
Definition enough_text (out : ocr_output) : bool :=
  negb (String.eqb (body_text out) "") && (50 <? stripped_len out)%nat.

(** For an entry with the four fields whose PDF is to be read in this
    pass, [ocr_one] ends without an exception, and then: the entry has
    [ocr] complete and the results have one more document, with the text
    that was read and the url and path of the entry, when the text has
    more than 50 characters besides surrounding whitespace; else the
    entry has [ocr] failed and the results are as before.  In both cases
    the other entries are as before and the tracking file holds the
    list. *)
Theorem ocr_one_marks_entry (w : world) (idx ocr_attempts : nat) (s : state)
    (d : pydict) (status title url : json) (p : string) :
  ocr_pdfs s !! idx = Some (JObj d) ->
  dict_get "ocr" d = Some status ->
  json_is_str status "complete" = false ->
  json_is_str status "failed" && (max_ocr_attempts <=? ocr_attempts)%nat = false ->
  dict_get "path" d = Some (JStr p) ->
  dict_get "title" d = Some title ->
  dict_get "url" d = Some url ->
  let out := extract_text_w w (clock s) in
  let s' := (ocr_one w idx ocr_attempts s).2 in
  (ocr_one w idx ocr_attempts s).1 = Ok tt /\
  ocr_pdfs s'
    = <[idx := JObj (dict_set "ocr"
                       (JStr (if enough_text out then "complete" else "failed")) d)]>
        (ocr_pdfs s) /\
  tracking_file s' = TrackingList (ocr_pdfs s') /\
  if enough_text out
  then exists today doc_title,
         results s' = results s ++ [document today doc_title (body_text out) url (JStr p)]
  else results s' = results s.
Proof.
  intros Hidx Hocr Hnc Hnf Hpath Htitle Hurl out s'. subst s'.
  unfold ocr_one. cbv [mbind M_bind get_state]. rewrite Hidx.
  cbn [entry_get]. rewrite Hocr. cbv [mret M_ret]. rewrite Hnc, Hnf.
  cbn [entry_item]. rewrite Hpath. cbv [mret M_ret]. cbn [basename_check]. cbv [mret M_ret].
  unfold try_catch, driver_get, ask_raise, set_ocr, append_result, write_tracking,
    save_results, enough_text.
  cbv [mbind M_bind mret M_ret emit modify ask get_state]. rewrite Htitle, Hurl.
  cbn [clock add_event set_clock]. fold out.
  destruct (driver_get_w w (S (clock s))) as [[]|e1];
    cbn [ocr_pdfs add_event set_clock set_results set_ocr_pdfs set_tracking_file
         results tracking_file ocr_aliased fst snd clock];
    [destruct (doc_details_w w (S (S (clock s)))) as [t|e2]|];
    destruct (negb (String.eqb (body_text out) "") && (50 <? stripped_len out)%nat);
    cbn [ocr_pdfs add_event set_clock set_results set_ocr_pdfs set_tracking_file
         results tracking_file ocr_aliased fst snd clock];
    rewrite ?Hidx;
    cbn [ocr_pdfs add_event set_clock set_results set_ocr_pdfs set_tracking_file
         results tracking_file ocr_aliased fst snd clock];
    repeat split; eauto.
Qed.

Lemma ocr_one_marks_entry_witness :
  let s := set_ocr_pdfs [ufo_entry "pending"] false (initial_state NoFile) in
  (ocr_one quiet_world 0 0 s).1 = Ok tt /\
  ocr_pdfs (ocr_one quiet_world 0 0 s).2 = [ufo_entry "failed"] /\
  results (ocr_one quiet_world 0 0 s).2 = [].
Proof.
  intros s.
  destruct (ocr_one_marks_entry quiet_world 0 0 s
              [ ("path", JStr "fbi_vault_pdfs/UFO.pdf");
                ("url", JStr "https://vault.fbi.gov/ufo");
                ("title", JStr "UFO");
                ("ocr", JStr "pending") ]%string
              (JStr "pending") (JStr "UFO") (JStr "https://vault.fbi.gov/ufo")
              "fbi_vault_pdfs/UFO.pdf"
              eq_refl eq_refl eq_refl eq_refl eq_refl eq_refl eq_refl)
    as (H1 & H2 & _ & H4).
  split; [exact H1|]. split; [exact H2|exact H4].
Defined.

End FbiOcrFacts.

(** ** Stripping, labels and report text *)

Module StripFacts.
Import PyStr.

Lemma lstrip_length chars (s : pystr) : (length (lstrip chars s) <= length s)%nat.
Proof.
  induction s as [|x s IH]; simpl; [lia|]. destruct (char_in x chars); simpl; lia.
Qed.

Lemma strip_length chars (s : pystr) : (length (strip chars s) <= length s)%nat.
Proof.
  unfold strip, rstrip. rewrite length_rev.
  etrans; [apply lstrip_length|]. rewrite length_rev. apply lstrip_length.
Qed.

(** A string that does not begin with one of [chars]. *)
Definition starts_clean (chars s : pystr) : Prop :=
  match s with [] => True | x :: _ => char_in x chars = false end.

Lemma lstrip_starts_clean chars (s : pystr) : starts_clean chars (lstrip chars s).
Proof.
  induction s as [|x s IH]; simpl; [done|].
  by destruct (char_in x chars) eqn:Hx.
Qed.

Lemma lstrip_id chars (s : pystr) : starts_clean chars s -> lstrip chars s = s.
Proof. destruct s as [|x s]; simpl; [done|]. by intros ->. Qed.

Lemma lstrip_snoc chars (s : pystr) (x : N) :
  char_in x chars = false -> exists r, lstrip chars (s ++ [x]) = r ++ [x].
Proof.
  intros Hx. induction s as [|y s [r IH]]; simpl.
  - rewrite Hx. by exists [].
  - destruct (char_in y chars); [by exists r|]. by exists (y :: s).
Qed.

Lemma rev_starts (s : pystr) (x : N) : exists r, rev (x :: s) = r ++ [x].
Proof. simpl. by exists (rev s). Qed.

(** Stripping on the right keeps a clean start. *)
Lemma rstrip_starts_clean chars (s : pystr) :
  starts_clean chars s -> starts_clean chars (rstrip chars s).
Proof.
  destruct s as [|x s]; [done|]. simpl. intros Hx. unfold rstrip.
  destruct (lstrip_snoc chars (rev s) x Hx) as [r Hr]. simpl. rewrite Hr.
  rewrite rev_app_distr. simpl. exact Hx.
Qed.

Lemma rstrip_idem chars (s : pystr) : rstrip chars (rstrip chars s) = rstrip chars s.
Proof.
  unfold rstrip. rewrite rev_involutive.
  by rewrite (lstrip_id chars (lstrip chars (rev s))) by apply lstrip_starts_clean.
Qed.

Lemma strip_starts_clean chars (s : pystr) : starts_clean chars (strip chars s).
Proof. unfold strip. apply rstrip_starts_clean, lstrip_starts_clean. Qed.

Lemma strip_ends_clean chars (s : pystr) : starts_clean chars (rev (strip chars s)).
Proof.
  unfold strip, rstrip. rewrite rev_involutive. apply lstrip_starts_clean.
Qed.

(** [strip] twice is [strip] once. *)
Lemma strip_idem chars (s : pystr) : strip chars (strip chars s) = strip chars s.
Proof.
  unfold strip at 1. rewrite lstrip_id by apply strip_starts_clean.
  unfold strip. apply rstrip_idem.
Qed.

(** A string with clean ends is left as it is. *)
Lemma strip_id chars (s : pystr) :
  starts_clean chars s -> starts_clean chars (rev s) -> strip chars s = s.
Proof.
  intros Hs Hr. unfold strip, rstrip. rewrite (lstrip_id chars s Hs).
  rewrite (lstrip_id chars (rev s) Hr). apply rev_involutive.
Qed.

Lemma lstrip_suffix chars (s : pystr) : exists pre, s = pre ++ lstrip chars s.
Proof.
  induction s as [|x s [pre IH]]; simpl; [by exists []|].
  destruct (char_in x chars); [|by exists []].
  exists (x :: pre). simpl. by rewrite <- IH.
Qed.

Lemma strip_infix chars (s : pystr) : exists pre post, s = pre ++ strip chars s ++ post.
Proof.
  unfold strip, rstrip.
  destruct (lstrip_suffix chars s) as [pre Hpre].
  destruct (lstrip_suffix chars (rev (lstrip chars s))) as [post Hpost].
  exists pre, (rev post). rewrite <- rev_app_distr, <- Hpost, rev_involutive. exact Hpre.
Qed.

Lemma elem_of_rev {A} (x : A) (l : list A) : x ∈ rev l <-> x ∈ l.
Proof. rewrite !list_elem_of_In. symmetry. apply in_rev. Qed.

End StripFacts.

Module LabelsFacts.
Import PyStr Labels StripFacts.

(** *** [extract_tags] *)

Lemma split_on_no_sep c (s : pystr) :
  Forall (fun piece => c ∉ piece) (split_on c s).
Proof.
  induction s as [|x s IH]; simpl.
  - repeat constructor. set_solver.
  - destruct (N.eqb_spec x c) as [->|Hne].
    + constructor; [set_solver | exact IH].
    + destruct (split_on c s) as [|h t]; [repeat constructor; set_solver|].
      apply Forall_cons in IH as [Hh Ht]. constructor; [set_solver | exact Ht].
Qed.

Lemma strip_subset chars (s : pystr) (c : N) : c ∈ strip chars s -> c ∈ s.
Proof.
  assert (Hl : forall t : pystr, c ∈ lstrip chars t -> c ∈ t).
  { induction t as [|x t IH]; simpl; [done|].
    destruct (char_in x chars); [set_solver | done]. }
  unfold strip, rstrip. intros H. apply (proj1 (elem_of_rev _ _)) in H. apply Hl in H.
  apply (proj1 (elem_of_rev _ _)) in H. by apply Hl.
Qed.

(** A label that [extract_tags] may return. *)
Definition label_ok (tag : pystr) : Prop :=
  (tag ∉ exclude_labels) /\ startswith tag (cp "Category_") = false /\
  (comma ∉ tag) /\ strip whitespace tag = tag.

Lemma kept_label_spec (tag : pystr) :
  kept_label tag = true ->
  (tag ∉ exclude_labels) /\ startswith tag (cp "Category_") = false.
Proof.
  unfold kept_label. intros H. apply andb_true_iff in H as [H1 H2].
  apply negb_true_iff in H1, H2. split; [|exact H2].
  intros Hin. apply not_true_iff_false in H1. apply H1.
  apply existsb_exists. exists tag. split; [by apply list_elem_of_In|].
  unfold pystr_eqb. by apply bool_decide_eq_true_2.
Qed.

(** Whatever the header holds, [extract_tags] returns at least one
    label; none of the labels is one of the eight excluded ones or
    begins with Category_, none contains a comma, and none begins or
    ends with whitespace.  A header whose labels are all dropped (or no
    header) gives the single label Unfiled. *)
Theorem extract_tags_labels (x_labels : pystr) :
  extract_tags x_labels <> [] /\ Forall label_ok (extract_tags x_labels).
Proof.
  unfold extract_tags.
  set (tags := if bool_decide (x_labels = []) then [] else _).
  assert (Htags : Forall label_ok tags).
  { unfold tags. case_bool_decide; [constructor|].
    apply Forall_forall. intros tag Hin.
    apply list_elem_of_In, filter_In in Hin as [Hin Hkept].
    apply list_elem_of_In, list_elem_of_fmap in Hin as (piece & -> & Hpiece).
    destruct (kept_label_spec _ Hkept) as [H1 H2].
    repeat split; [exact H1 | exact H2 | | apply strip_idem].
    intros Hc. apply strip_subset in Hc.
    pose proof (split_on_no_sep comma x_labels) as Hno.
    rewrite Forall_forall in Hno. by apply (Hno piece). }
  case_bool_decide as Hempty; [|done].
  split; [done|]. constructor; [|constructor]. repeat split.
  - intros H. apply list_elem_of_In in H. vm_compute in H. intuition discriminate.
  - intros H. apply list_elem_of_In in H. vm_compute in H. intuition discriminate.
Qed.

(** *** [clean_text] *)

(** No whitespace but single spaces: each whitespace character is a
    space and is not followed by another whitespace character. *)
Fixpoint spaced (s : pystr) : Prop :=
  match s with
  | [] => True
  | x :: s' =>
      (isspace x = true ->
       x = space /\ match s' with [] => True | y :: _ => isspace y = false end)
      /\ spaced s'
  end.

Lemma sub_spaces_cons2 (x y : N) (s : pystr) :
  sub_spaces (x :: y :: s)
  = if isspace x
    then if isspace y then sub_spaces (y :: s) else space :: sub_spaces (y :: s)
    else x :: sub_spaces (y :: s).
Proof. reflexivity. Qed.

Lemma sub_spaces_head (s : pystr) : forall x,
  match sub_spaces (x :: s) with
  | [] => False
  | y :: _ => isspace y = isspace x
  end.
Proof.
  induction s as [|y s IH]; intros x.
  - simpl. by destruct (isspace x) eqn:Hx.
  - rewrite sub_spaces_cons2. destruct (isspace x) eqn:Hx; [|done].
    destruct (isspace y) eqn:Hy; [|done].
    specialize (IH y). destruct (sub_spaces (y :: s)); [done|]. congruence.
Qed.

Lemma sub_spaces_spaced (s : pystr) : spaced (sub_spaces s).
Proof.
  induction s as [|x s IH]; [done|].
  destruct s as [|y s]; [simpl; destruct (isspace x) eqn:Hx; simpl; by rewrite ?Hx|].
  rewrite sub_spaces_cons2. destruct (isspace x) eqn:Hx.
  - destruct (isspace y) eqn:Hy; [exact IH|].
    pose proof (sub_spaces_head s y) as Hh.
    cbn [spaced]. split; [|exact IH]. intros _. split; [done|].
    destruct (sub_spaces (y :: s)); [done|]. congruence.
  - cbn [spaced]. split; [congruence | exact IH].
Qed.

Lemma sub_spaces_id (s : pystr) : spaced s -> sub_spaces s = s.
Proof.
  induction s as [|x s IH]; simpl; [done|]. intros [Hx Hs].
  destruct (isspace x) eqn:Hsp.
  - destruct (Hx eq_refl) as [-> Hnext]. destruct s as [|y s]; [done|].
    rewrite Hnext. by rewrite IH.
  - by rewrite IH.
Qed.

Lemma spaced_app (a b : pystr) :
  spaced (a ++ b) -> spaced a /\ spaced b.
Proof.
  induction a as [|x a IH]; simpl; [done|]. intros [Hx Hab].
  destruct (IH Hab) as [Ha Hb]. split; [|exact Hb]. split; [|exact Ha].
  intros Hsp. destruct (Hx Hsp) as [-> Hnext]. split; [done|].
  destruct a; [done|]. exact Hnext.
Qed.

Lemma strip_spaced chars (s : pystr) : spaced s -> spaced (strip chars s).
Proof.
  intros Hs. destruct (strip_infix chars s) as (pre & post & Heq).
  rewrite Heq in Hs. apply spaced_app in Hs as [_ Hs]. by apply spaced_app in Hs as [Hs _].
Qed.

(** The text written to the report: no whitespace at either end, and
    inside only single spaces.  Cleaning a cleaned text changes nothing. *)
Theorem clean_text_normal (text : pystr) :
  spaced (clean_text text) /\
  starts_clean whitespace (clean_text text) /\
  starts_clean whitespace (rev (clean_text text)) /\
  clean_text (clean_text text) = clean_text text.
Proof.
  unfold clean_text. case_bool_decide as Hempty; [by rewrite bool_decide_eq_true_2|].
  set (r := strip whitespace (sub_spaces text)).
  assert (Hsp : spaced r) by apply strip_spaced, sub_spaces_spaced.
  repeat split; [exact Hsp | apply strip_starts_clean | apply strip_ends_clean |].
  case_bool_decide as Hr; [done|].
  rewrite (sub_spaces_id r Hsp). apply strip_idem.
Qed.

End LabelsFacts.

(** ** [sanitize_filename] on names of fewer than 100 characters *)

Module SanitizeShortFacts.
Import PyStr MboxExport MboxExportFacts StripFacts.

Lemma sub_invalid_length (s : pystr) : length (sub_invalid s) = length s.
Proof. unfold sub_invalid. apply length_map. Qed.

Lemma sub_control_length (s : pystr) : (length (sub_control s) <= length s)%nat.
Proof. unfold sub_control. apply length_filter. Qed.

Lemma sub_underscores_length (s : pystr) : (length (sub_underscores s) <= length s)%nat.
Proof.
  induction s as [|x s IH]; simpl; [lia|].
  destruct (N.eqb x underscore); [|simpl; lia].
  destruct s as [|y s']; [simpl; lia|].
  destruct (N.eqb y underscore); simpl in *; lia.
Qed.

(** The name before the length is looked at. *)
Definition guarded (unicode_upper : N -> pystr) (filename : pystr) : pystr :=
  let stripped :=
    strip (cp " .") (sub_underscores (sub_control (sub_invalid filename))) in
  let named := if bool_decide (stripped = []) then cp "unnamed" else stripped in
  if in_reserved (upper unicode_upper (fst (splitext named)))
  then underscore :: named else named.

Lemma guarded_length unicode_upper (filename : pystr) :
  len (guarded unicode_upper filename) <= Z.max (len filename) 7 + 1.
Proof.
  unfold guarded, len.
  set (stripped := strip _ _).
  assert (length stripped <= length filename)%nat as Hs.
  { unfold stripped. etrans; [apply strip_length|].
    etrans; [apply sub_underscores_length|].
    etrans; [apply sub_control_length|]. by rewrite sub_invalid_length. }
  case_bool_decide; destruct (in_reserved _); simpl length; lia.
Qed.

Lemma sanitize_filename_short unicode_upper (filename : pystr) :
  filename <> [] -> len (guarded unicode_upper filename) <= 100 ->
  sanitize_filename unicode_upper filename = guarded unicode_upper filename.
Proof.
  intros Hne Hlen.
  change (sanitize_filename unicode_upper filename)
    with (if bool_decide (filename = []) then cp "unnamed"
          else if len (guarded unicode_upper filename) >? 100
               then let '(name, ext) := splitext (guarded unicode_upper filename) in
                    slice_to name 95 ++ cp "..." ++ ext
               else guarded unicode_upper filename).
  rewrite bool_decide_eq_false_2 by done.
  destruct (len (guarded unicode_upper filename) >? 100) eqn:Hgt; [|done].
  rewrite Z.gtb_ltb in Hgt. apply Z.ltb_lt in Hgt. lia.
Qed.

(** A name of at most 99 characters is never cut: the result has at most
    one character more than the name (and at least the seven of
    [unnamed] are allowed for), so at most 100. *)
Theorem sanitize_filename_short_bound (unicode_upper : N -> pystr) (filename : pystr) :
  len filename <= 99 ->
  len (sanitize_filename unicode_upper filename) <= Z.max (len filename) 7 + 1 /\
  len (sanitize_filename unicode_upper filename) <= 100.
Proof.
  intros Hlen.
  assert (len (sanitize_filename unicode_upper filename) <= Z.max (len filename) 7 + 1);
    [|lia].
  destruct (decide (filename = [])) as [->|Hne]; [by vm_compute|].
  pose proof (guarded_length unicode_upper filename) as Hg.
  rewrite sanitize_filename_short; [exact Hg | exact Hne | lia].
Qed.

Lemma sanitize_filename_short_bound_witness :
  len (sanitize_filename (fun c => [c]) (cp "CON")) <= 100.
Proof.
  apply (sanitize_filename_short_bound (fun c => [c]) (cp "CON")). by vm_compute.
Defined.

(** *** Sanitising twice *)

Lemma sub_invalid_id (s : pystr) :
  Forall clean s -> sub_invalid s = s.
Proof.
  induction 1 as [|x s [Hx _] Hs IH]; [done|].
  unfold sub_invalid in *. cbn [map]. rewrite Hx. by rewrite IH.
Qed.

Lemma sub_control_id (s : pystr) :
  Forall clean s -> sub_control s = s.
Proof.
  induction 1 as [|x s [_ Hx] Hs IH]; [done|].
  unfold sub_control, pystr in *. rewrite filter_cons_True by done. by rewrite IH.
Qed.

(** No two underscores in a row. *)
Fixpoint single_underscores (s : pystr) : Prop :=
  match s with
  | [] => True
  | x :: s' =>
      (x = underscore -> match s' with [] => True | y :: _ => y <> underscore end)
      /\ single_underscores s'
  end.

Lemma sub_underscores_cons2 (x y : N) (s : pystr) :
  sub_underscores (x :: y :: s)
  = if N.eqb x underscore
    then if N.eqb y underscore then sub_underscores (y :: s)
         else x :: sub_underscores (y :: s)
    else x :: sub_underscores (y :: s).
Proof. reflexivity. Qed.

Lemma sub_underscores_head (s : pystr) : forall x,
  match sub_underscores (x :: s) with
  | [] => False
  | y :: _ => y = x
  end.
Proof.
  induction s as [|y s IH]; intros x.
  - simpl. by destruct (N.eqb x underscore).
  - rewrite sub_underscores_cons2. destruct (N.eqb_spec x underscore) as [->|]; [|done].
    destruct (N.eqb_spec y underscore) as [->|]; [|done]. apply IH.
Qed.

Lemma sub_underscores_single (s : pystr) : single_underscores (sub_underscores s).
Proof.
  induction s as [|x s IH]; [done|].
  destruct s as [|y s]; [simpl; by destruct (N.eqb x underscore)|].
  rewrite sub_underscores_cons2.
  pose proof (sub_underscores_head s y) as Hh.
  destruct (N.eqb_spec x underscore) as [->|Hx].
  - destruct (N.eqb_spec y underscore) as [->|Hy]; [exact IH|].
    cbn [single_underscores]. split; [|exact IH]. intros _.
    destruct (sub_underscores (y :: s)); [done|]. by subst.
  - cbn [single_underscores]. split; [done | exact IH].
Qed.

Lemma sub_underscores_id (s : pystr) : single_underscores s -> sub_underscores s = s.
Proof.
  induction s as [|x s IH]; [done|]. intros [Hx Hs].
  destruct s as [|y s]; [simpl; by destruct (N.eqb x underscore)|].
  rewrite sub_underscores_cons2, IH by done.
  destruct (N.eqb_spec x underscore) as [Hxu|]; [|done].
  specialize (Hx Hxu). by destruct (N.eqb_spec y underscore).
Qed.

Lemma single_underscores_app (a b : pystr) :
  single_underscores (a ++ b) -> single_underscores a /\ single_underscores b.
Proof.
  induction a as [|x a IH]; simpl; [done|]. intros [Hx Hab].
  destruct (IH Hab) as [Ha Hb]. split; [|exact Hb]. split; [|exact Ha].
  intros Hxu. specialize (Hx Hxu). destruct a; [done|]. exact Hx.
Qed.

Lemma strip_single_underscores chars (s : pystr) :
  single_underscores s -> single_underscores (strip chars s).
Proof.
  intros Hs. destruct (strip_infix chars s) as (pre & post & Heq).
  rewrite Heq in Hs. apply single_underscores_app in Hs as [_ Hs].
  by apply single_underscores_app in Hs as [Hs _].
Qed.

(** *** The stem of a name that begins with an underscore *)

Lemma rfind_from_spec (c : N) (s : pystr) : forall i last,
  rfind_from c s i last = last \/
  exists k, s !! k = Some c /\ rfind_from c s i last = i + Z.of_nat k.
Proof.
  induction s as [|x s IH]; intros i last; simpl; [by left|].
  destruct (N.eqb_spec x c) as [->|Hne].
  - destruct (IH (i + 1) i) as [->|(k & Hk & ->)].
    + right. exists 0%nat. split; [done | lia].
    + right. exists (S k). split; [done | lia].
  - destruct (IH (i + 1) last) as [->|(k & Hk & ->)]; [by left|].
    right. exists (S k). split; [done | lia].
Qed.

Lemma rfind_ge (c : N) (s : pystr) : -1 <= rfind c s.
Proof.
  unfold rfind. destruct (rfind_from_spec c s 0 (-1)) as [->|(k & _ & ->)]; lia.
Qed.

Lemma splitext_underscore (t : pystr) :
  exists r, (splitext (underscore :: t)).1 = underscore :: r.
Proof.
  unfold splitext. set (p := underscore :: t).
  destruct (_ && _) eqn:Hcond; simpl; [|by eexists].
  apply andb_true_iff in Hcond as [Hgt _].
  rewrite Z.gtb_ltb in Hgt. apply Z.ltb_lt in Hgt.
  pose proof (rfind_ge sep p). pose proof (rfind_ge altsep p).
  assert (rfind extsep p <> 0) as Hnz.
  { unfold rfind. destruct (rfind_from_spec extsep p 0 (-1)) as [->|(k & Hk & ->)]; [lia|].
    destruct k; [|lia]. by vm_compute in Hk. }
  unfold slice_to. destruct (Z.to_nat (rfind extsep p)) eqn:Hn; [lia|].
  unfold p. simpl. by eexists.
Qed.

Lemma in_reserved_underscore (t : pystr) : in_reserved (underscore :: t) = false.
Proof.
  apply not_true_iff_false. intros H. unfold in_reserved in H.
  apply existsb_exists in H as (x & Hin & Heq).
  unfold pystr_eqb in Heq. apply bool_decide_eq_true_1 in Heq. subst x.
  vm_compute in Hin. intuition discriminate.
Qed.

Lemma stem_underscore_not_reserved unicode_upper (t : pystr) :
  in_reserved (upper unicode_upper (splitext (underscore :: t)).1) = false.
Proof.
  destruct (splitext_underscore t) as [r ->].
  unfold upper. simpl. apply in_reserved_underscore.
Qed.

(** What holds of the name before the length is looked at. *)
Lemma guarded_normal unicode_upper (filename : pystr) :
  let g := guarded unicode_upper filename in
  g <> [] /\ Forall clean g /\ single_underscores g /\
  starts_clean (cp " .") g /\ starts_clean (cp " .") (rev g) /\
  in_reserved (upper unicode_upper (splitext g).1) = false.
Proof.
  unfold guarded. set (stripped := strip _ _).
  assert (Hclean : Forall clean stripped).
  { apply strip_Forall, sub_underscores_Forall, sub_control_clean, sub_invalid_valid. }
  assert (Hsingle : single_underscores stripped).
  { apply strip_single_underscores, sub_underscores_single. }
  pose proof (strip_starts_clean (cp " .")
                (sub_underscores (sub_control (sub_invalid filename)))) as Hstart.
  pose proof (strip_ends_clean (cp " .")
                (sub_underscores (sub_control (sub_invalid filename)))) as Hend.
  fold stripped in Hstart, Hend.
  set (named := if bool_decide (stripped = []) then cp "unnamed" else stripped).
  assert (Hnamed : named <> [] /\ Forall clean named /\ single_underscores named /\
                   starts_clean (cp " .") named /\ starts_clean (cp " .") (rev named)).
  { unfold named. case_bool_decide; [|done].
    split; [done|]. split; [apply clean_cp_unnamed|].
    split; [|by vm_compute].
    simpl. unfold underscore. repeat split; intros Hu; discriminate Hu. }
  destruct Hnamed as (Hne & Hcl & Hsi & Hst & Hen). clearbody named.
  destruct (in_reserved (upper unicode_upper (splitext named).1)) eqn:Hres;
    [|by repeat split].
  split; [done|]. split; [constructor; [apply clean_underscore | exact Hcl]|].
  split.
  { cbn [single_underscores]. split; [|exact Hsi]. intros _.
    destruct named as [|y named']; [done|]. intros ->.
    by rewrite stem_underscore_not_reserved in Hres. }
  split; [done|]. split.
  { simpl. destruct (rev named) as [|z r] eqn:Hrev; [|exact Hen].
    apply (f_equal (@rev N)) in Hrev. rewrite rev_involutive in Hrev. done. }
  apply stem_underscore_not_reserved.
Qed.

Lemma guarded_id unicode_upper (g : pystr) :
  g <> [] -> Forall clean g -> single_underscores g ->
  starts_clean (cp " .") g -> starts_clean (cp " .") (rev g) ->
  in_reserved (upper unicode_upper (splitext g).1) = false ->
  guarded unicode_upper g = g.
Proof.
  intros Hne Hcl Hsi Hst Hen Hres. unfold guarded.
  rewrite sub_invalid_id, sub_control_id, sub_underscores_id, strip_id by done.
  rewrite bool_decide_eq_false_2 by done. by rewrite Hres.
Qed.

(** For a name of at most 99 characters, sanitising the sanitised name
    changes nothing. *)
Theorem sanitize_filename_idempotent (unicode_upper : N -> pystr) (filename : pystr) :
  len filename <= 99 ->
  sanitize_filename unicode_upper (sanitize_filename unicode_upper filename)
  = sanitize_filename unicode_upper filename.
Proof.
  intros Hlen. destruct (decide (filename = [])) as [->|Hne]; [reflexivity|].
  pose proof (guarded_length unicode_upper filename) as Hg.
  rewrite (sanitize_filename_short unicode_upper filename); [|exact Hne|lia].
  destruct (guarded_normal unicode_upper filename) as (H1 & H2 & H3 & H4 & H5 & H6).
  pose proof (guarded_id unicode_upper _ H1 H2 H3 H4 H5 H6) as Hid.
  rewrite sanitize_filename_short; [exact Hid | exact H1 | rewrite Hid; lia].
Qed.

Lemma sanitize_filename_idempotent_witness :
  sanitize_filename (fun c => [c]) (sanitize_filename (fun c => [c]) (cp "con.txt"))
  = sanitize_filename (fun c => [c]) (cp "con.txt").
Proof.
  apply (sanitize_filename_idempotent (fun c => [c]) (cp "con.txt")). by vm_compute.
Defined.

End SanitizeShortFacts.

(** ** File names made from titles and search terms *)

Module SafeNameFacts.
Import PyStr MboxExport MboxExportFacts Labels SafeName StripFacts.

Definition valid_char (c : N) : Prop := char_in c invalid_chars = false.

Lemma allowed_valid unicode_alnum (c : N) :
  allowed unicode_alnum c = true -> valid_char c.
Proof.
  intros Ha. unfold valid_char. destruct (char_in c invalid_chars) eqn:Hc; [|done].
  unfold char_in in Hc. apply existsb_exists in Hc as (x & Hin & Hx).
  apply N.eqb_eq in Hx. subst x. exfalso.
  unfold invalid_chars in Hin. simpl in Hin.
  repeat (destruct Hin as [<-|Hin]; [by vm_compute in Ha|]). done.
Qed.

Lemma rstrip_Forall (P : N -> Prop) chars (s : pystr) :
  Forall P s -> Forall P (rstrip chars s).
Proof.
  intros Hs. unfold rstrip. apply Forall_rev, lstrip_Forall, Forall_rev, Hs.
Qed.

Lemma safe_allowed unicode_alnum (s : pystr) :
  Forall (fun c => allowed unicode_alnum c = true) (safe unicode_alnum s).
Proof.
  unfold safe. apply rstrip_Forall, Forall_forall. intros c Hc.
  apply list_elem_of_In, filter_In in Hc. tauto.
Qed.

Lemma safe_valid unicode_alnum (s : pystr) :
  Forall valid_char (safe unicode_alnum s).
Proof.
  eapply Forall_impl; [apply safe_allowed|]. intros c. apply allowed_valid.
Qed.

(** If the two time stamps hold none of the nine characters that are
    invalid in a file name, neither does the name made for a PDF,
    whatever the title is; so it names a file in the directory it is
    joined to.  The name is the cleaned title (document_ and a time stamp
    when nothing of the title is left), an underscore, the time stamp
    and .pdf. *)
Theorem create_pdf_filename_valid unicode_alnum (title stamp1 stamp2 : pystr) :
  Forall valid_char stamp1 -> Forall valid_char stamp2 ->
  Forall valid_char (create_pdf_filename unicode_alnum title stamp1 stamp2) /\
  exists stem, stem <> [] /\
    create_pdf_filename unicode_alnum title stamp1 stamp2
    = stem ++ cp "_" ++ stamp2 ++ cp ".pdf".
Proof.
  intros H1 H2. unfold create_pdf_filename.
  set (stem := if bool_decide (safe unicode_alnum title = []) then _ else _).
  assert (Hstem : Forall valid_char stem /\ stem <> []).
  { unfold stem. case_bool_decide.
    - split; [|done]. apply Forall_app. split; [by repeat constructor | exact H1].
    - split; [apply safe_valid | done]. }
  destruct Hstem as [Hv Hne]. split; [|by exists stem].
  repeat (apply Forall_app; split); try done; by repeat constructor.
Qed.

Lemma create_pdf_filename_valid_witness :
  Forall valid_char
    (create_pdf_filename (fun _ => false) (cp "Roswell: UFO?")
       (cp "20260101_120000") (cp "20260101_120001")).
Proof.
  apply (create_pdf_filename_valid (fun _ => false) (cp "Roswell: UFO?")
           (cp "20260101_120000") (cp "20260101_120001"));
    by repeat constructor.
Defined.

(** *** The two names of the results file *)

Lemma filter_length_all {A} (f : A -> bool) (l : list A) :
  length (List.filter f l) = length l -> List.filter f l = l.
Proof.
  induction l as [|x l IH]; simpl; [done|].
  pose proof (List.filter_length_le f l).
  destruct (f x); simpl; intros Hlen; [f_equal; apply IH; lia | lia].
Qed.

Lemma rstrip_length chars (s : pystr) : (length (rstrip chars s) <= length s)%nat.
Proof.
  unfold rstrip. rewrite length_rev. etrans; [apply lstrip_length|]. by rewrite length_rev.
Qed.

Lemma safe_fixed unicode_alnum (s : pystr) :
  safe unicode_alnum s = s <->
  Forall (fun c => allowed unicode_alnum c = true) s /\ rstrip whitespace s = s.
Proof.
  split.
  - intros Heq.
    assert (List.filter (allowed unicode_alnum) s = s) as Hf.
    { apply filter_length_all. apply Nat.le_antisymm; [apply List.filter_length_le|].
      rewrite <- Heq at 1. apply rstrip_length. }
    split.
    + rewrite <- Heq. apply safe_allowed.
    + unfold safe in Heq. by rewrite Hf in Heq.
  - intros [Hall Hr]. unfold safe.
    assert (List.filter (allowed unicode_alnum) s = s) as ->; [|exact Hr].
    clear Hr. induction Hall as [|x l Hx Hl IH]; simpl; [done|]. by rewrite Hx, IH.
Qed.

(** [save_results] writes the results to the file that
    [process_ocr_phase] reads on the next run exactly when the search
    term is made of letters, digits, spaces, hyphens and underscores and
    does not end in whitespace; for any other term the earlier results
    are looked for under a name that was never written. *)
Theorem results_file_names_agree unicode_alnum (search_term : pystr) :
  saved_results_name unicode_alnum search_term = loaded_results_name search_term
  <-> Forall (fun c => allowed unicode_alnum c = true) search_term
      /\ rstrip whitespace search_term = search_term.
Proof.
  rewrite <- safe_fixed. unfold saved_results_name, loaded_results_name. split.
  - intros H. apply app_inv_head in H. by apply app_inv_tail in H.
  - by intros ->.
Qed.

(** *** The FRED search *)

(** The CSV file of a search is named with at most fifty characters of
    the search term, none of them invalid in a file name; a listed
    title has at most sixty characters, and a title of at most sixty
    characters is listed as it is. *)
Theorem fred_names_bounded unicode_alnum (search_term timestamp title : pystr) :
  Forall valid_char timestamp ->
  Forall valid_char (search_results_filename unicode_alnum search_term timestamp) /\
  len (search_results_filename unicode_alnum search_term timestamp)
    <= 55 + len timestamp /\
  len (display_title title) <= 60 /\
  (len title <= 60 -> display_title title = title).
Proof.
  intros Hts. split; [|split; [|split]].
  - unfold search_results_filename, slice_to. case_bool_decide.
    + repeat (apply Forall_app; split); try done; by repeat constructor.
    + repeat (apply Forall_app; split); try done; try by repeat constructor.
      apply Forall_take, safe_valid.
  - unfold search_results_filename, slice_to, len. case_bool_decide;
      rewrite !length_app, ?length_take; simpl length; lia.
  - unfold display_title, slice_to, len.
    destruct (Z.gtb_spec (Z.of_nat (length title)) 60);
      rewrite ?length_app, ?length_take; simpl length; lia.
  - intros Hlen. unfold display_title.
    destruct (Z.gtb_spec (len title) 60); [lia | done].
Qed.

Lemma fred_names_bounded_witness :
  len (search_results_filename (fun _ => false) (cp "gdp / capita") (cp "20260101_120000"))
    <= 55 + 15.
Proof.
  destruct (fred_names_bounded (fun _ => false) (cp "gdp / capita")
              (cp "20260101_120000") []) as (_ & H & _); [by repeat constructor|].
  exact H.
Defined.

End SafeNameFacts.

(** ** The two [sanitize_filename] functions *)

Module ConsolidateNamesFacts.
Import PyStr MboxExport MboxExportFacts StripFacts SanitizeShortFacts SafeNameFacts.

Lemma sub_invalid_valid_id (s : pystr) :
  Forall valid_char s -> sub_invalid s = s.
Proof.
  induction 1 as [|x s Hx Hs IH]; [done|].
  unfold sub_invalid, valid_char in *. cbn [map]. rewrite Hx. by rewrite IH.
Qed.

Lemma consolidate_sanitize_id (s : pystr) :
  s <> [] -> Forall valid_char s -> single_underscores s ->
  starts_clean (cp " .") s -> starts_clean (cp " .") (rev s) ->
  ConsolidateNames.sanitize_filename s = s.
Proof.
  intros Hne Hv Hsi Hst Hen. unfold ConsolidateNames.sanitize_filename.
  rewrite sub_invalid_valid_id, sub_underscores_id, strip_id by done.
  by rewrite bool_decide_eq_false_2.
Qed.

(** The [sanitize_filename] of the consolidation script never returns an
    empty name nor a name with one of the nine invalid characters, and
    applying it to its own result changes nothing. *)
Theorem consolidate_sanitize_filename_valid (filename : pystr) :
  ConsolidateNames.sanitize_filename filename <> [] /\
  Forall valid_char (ConsolidateNames.sanitize_filename filename) /\
  ConsolidateNames.sanitize_filename (ConsolidateNames.sanitize_filename filename)
  = ConsolidateNames.sanitize_filename filename.
Proof.
  set (stripped := strip (cp " .") (sub_underscores (sub_invalid filename))).
  assert (Hr : ConsolidateNames.sanitize_filename filename
               = if bool_decide (stripped = []) then cp "unnamed" else stripped)
    by reflexivity.
  assert (Hnormal : let r := ConsolidateNames.sanitize_filename filename in
            r <> [] /\ Forall valid_char r /\ single_underscores r /\
            starts_clean (cp " .") r /\ starts_clean (cp " .") (rev r)).
  { cbv zeta. rewrite Hr. case_bool_decide.
    - split; [done|]. split; [by repeat constructor|]. split; [|by vm_compute].
      simpl. unfold underscore. repeat split; intros Hu; discriminate Hu.
    - split; [done|]. split; [|split; [|split]].
      + apply strip_Forall, sub_underscores_Forall, sub_invalid_valid.
      + apply strip_single_underscores, sub_underscores_single.
      + apply strip_starts_clean.
      + apply strip_ends_clean. }
  destruct Hnormal as (H1 & H2 & H3 & H4 & H5).
  split; [exact H1|]. split; [exact H2|]. by apply consolidate_sanitize_id.
Qed.

Lemma clean_valid (s : pystr) : Forall clean s -> Forall valid_char s.
Proof. intros H. eapply Forall_impl; [exact H|]. by intros c [Hc _]. Qed.

(** A name that the export script has made from a name of at most 99
    characters is left as it is by the [sanitize_filename] of the
    consolidation script. *)
Theorem consolidate_keeps_exported_names (unicode_upper : N -> pystr) (filename : pystr) :
  len filename <= 99 ->
  ConsolidateNames.sanitize_filename (MboxExport.sanitize_filename unicode_upper filename)
  = MboxExport.sanitize_filename unicode_upper filename.
Proof.
  intros Hlen. destruct (decide (filename = [])) as [->|Hne]; [reflexivity|].
  pose proof (guarded_length unicode_upper filename) as Hg.
  rewrite (sanitize_filename_short unicode_upper filename); [|exact Hne|lia].
  destruct (guarded_normal unicode_upper filename) as (H1 & H2 & H3 & H4 & H5 & _).
  apply consolidate_sanitize_id;
    [exact H1 | by apply clean_valid | exact H3 | exact H4 | exact H5].
Qed.

Lemma consolidate_keeps_exported_names_witness :
  ConsolidateNames.sanitize_filename
    (MboxExport.sanitize_filename (fun c => [c]) (cp "report: final?.pdf"))
  = MboxExport.sanitize_filename (fun c => [c]) (cp "report: final?.pdf").
Proof.
  apply (consolidate_keeps_exported_names (fun c => [c]) (cp "report: final?.pdf")).
  by vm_compute.
Defined.

End ConsolidateNamesFacts.

(** ** The pages saved by the layer-0 loop of the CIA scraper *)

Module CiaLayer0Facts.
Import StrUtil CiaScraper CiaScraperFacts.

Lemma scrape_search_loop_before driver_get fuel : forall page_no layer_0 q,
  q < page_no ->
  (scrape_search_loop driver_get fuel page_no layer_0).2 !! layer_0_file q
  = layer_0 !! layer_0_file q.
Proof.
  induction fuel as [|fuel IH]; intros page_no layer_0 q Hq; simpl; [done|].
  destruct (driver_get page_no) as [page|]; [|done].
  rewrite IH by lia. apply lookup_insert_ne.
  intros Heq. apply layer_0_file_inj in Heq. lia.
Qed.

Lemma scrape_search_loop_saved driver_get fuel : forall page_no layer_0 p fs,
  scrape_search_loop driver_get fuel page_no layer_0 = (Stopped, p, fs) ->
  forall q, page_no <= q < p ->
    exists page, driver_get q = Some page /\ fs !! layer_0_file q = Some page.
Proof.
  induction fuel as [|fuel IH]; intros page_no layer_0 p fs H q Hq; simpl in H;
    [discriminate|].
  destruct (driver_get page_no) as [page|] eqn:Hget.
  - destruct (decide (q = page_no)) as [->|Hne].
    + exists page. split; [exact Hget|].
      pose proof (scrape_search_loop_before driver_get fuel (page_no + 1)
                    (<[layer_0_file page_no := page]> layer_0) page_no ltac:(lia)) as Hb.
      rewrite H in Hb. simpl in Hb. rewrite Hb. apply lookup_insert_eq.
    + eapply IH; [exact H | lia].
  - injection H as <- <-. lia.
Qed.

(** When the layer-0 loop stops, it stops at the first page from 4092 on
    that could not be fetched, and every page before it is on disk as
    page_<n>.html with the source that was fetched for it. *)
Theorem layer_0_saves_pages_until_failure driver_get fuel layer_0 p fs :
  scrape_search_pages driver_get fuel layer_0 = (Stopped, p, fs) ->
  first_page <= p /\ driver_get p = None /\
  forall q, first_page <= q < p ->
    exists page, driver_get q = Some page /\ fs !! layer_0_file q = Some page.
Proof.
  intros H. unfold scrape_search_pages in H.
  destruct (scrape_search_loop_stops _ _ _ _ _ _ H) as (Hle & Hnone & _ & _).
  split; [exact Hle|]. split; [exact Hnone|].
  by eapply scrape_search_loop_saved.
Qed.

Lemma layer_0_saves_pages_until_failure_witness :
  exists page,
    (fun n : Z => if n =? 4093 then None else Some "<html>"%string) 4092 = Some page /\
    ({[ layer_0_file 4092 := "<html>"%string ]} : directory) !! layer_0_file 4092
    = Some page.
Proof.
  destruct (layer_0_saves_pages_until_failure
              (fun n : Z => if n =? 4093 then None else Some "<html>"%string) 2 ∅ 4093
              {[ layer_0_file 4092 := "<html>"%string ]})
    as (_ & _ & H).
  - reflexivity.
  - apply (H 4092). unfold first_page. lia.
Defined.

End CiaLayer0Facts.

(** ** The dialogue of the FRED downloader *)

Module FredAppFacts.
Import FredApp.

Section Dialogue.
Variables strip upper lower : string -> string.
Variable search_fred : nat -> string -> option (list string).
Variable download_returns : nat -> string -> bool.

#[local] Abbreviation main := (main strip upper lower search_fred download_returns).

(** The series ids handed to [download_series_by_id], in order. *)
Definition downloaded (tr : list fred_event) : list string :=
  flat_map (fun ev => match ev with EvDownloadSeries id => [id] | _ => [] end) tr.

(** A line that is not the answer y. *)
Definition declines (line : string) : Prop := lower (strip line) <> "y"%string.

(** At most one download, and only of a series that a search of the
    run has listed; [k] events came before [tr]. *)
Definition listed_from (k : nat) (tr : list fred_event) : Prop :=
  (length (downloaded tr) <= 1)%nat /\
  forall id, id ∈ downloaded tr ->
    exists n t ids, tr !! n = Some (EvSearch t) /\
                    search_fred (k + n) t = Some ids /\ id ∈ ids.

Definition listed_once (tr : list fred_event) : Prop := listed_from 0 tr.

Lemma listed_from_nil (k : nat) : listed_from k [].
Proof. split; [simpl; lia|]. intros id Hid. by apply elem_of_nil in Hid. Qed.

Lemma listed_from_search (k : nat) (t : string) (ext : list fred_event) :
  listed_from (S k) ext -> listed_from k (EvSearch t :: ext).
Proof.
  intros [H1 H2]. split; [exact H1|]. intros id Hid.
  destruct (H2 id Hid) as (n & t' & ids & Ht & Hs & Hin).
  exists (S n), t', ids. split; [exact Ht|]. split; [|exact Hin].
  by rewrite Nat.add_succ_r.
Qed.

Lemma listed_from_no_download (k : nat) (t : string) : listed_from k [EvSearch t].
Proof. split; [simpl; lia|]. intros id Hid. by apply elem_of_nil in Hid. Qed.

Lemma listed_from_download (k : nat) (t id : string) (ids : list string) :
  search_fred k t = Some ids -> id ∈ ids ->
  listed_from k [EvSearch t; EvDownloadSeries id].
Proof.
  intros Hs Hin. split; [simpl; lia|]. intros id' Hid. simpl in Hid.
  apply list_elem_of_singleton in Hid as ->.
  exists 0%nat, t, ids. split; [done|]. split; [|exact Hin].
  by rewrite Nat.add_0_r.
Qed.

Lemma main_declined (n : nat) : forall inputs tr0,
  (length inputs <= n)%nat -> Forall declines inputs ->
  exists ext, (main inputs tr0).2 = tr0 ++ ext /\ listed_from (length tr0) ext.
Proof.
  induction n as [|n IH]; intros inputs tr0 Hlen Hno.
  { destruct inputs; [|simpl in Hlen; lia]. exists []. split; [by rewrite app_nil_r|].
    apply listed_from_nil. }
  assert (Hnil : exists ext, tr0 = tr0 ++ ext /\ listed_from (length tr0) ext).
  { exists []. split; [by rewrite app_nil_r | apply listed_from_nil]. }
  destruct inputs as [|line1 rest1]; [exact Hnil|].
  apply Forall_cons in Hno as [_ Hno1]. simpl in Hlen.
  cbn [FredApp.main].
  destruct (String.eqb (strip line1) ""); [apply IH; [lia | done]|].
  set (t := strip line1). cbv zeta.
  assert (Hrec : forall rest, (length rest <= n)%nat -> Forall declines rest ->
            exists ext, (main rest (tr0 ++ [EvSearch t])).2 = tr0 ++ ext
                        /\ listed_from (length tr0) ext).
  { intros rest Hl Hd. destruct (IH rest (tr0 ++ [EvSearch t]) Hl Hd) as (ext & -> & Hext).
    exists (EvSearch t :: ext). split; [by rewrite <- app_assoc|].
    apply listed_from_search. rewrite length_app, Nat.add_1_r in Hext. exact Hext. }
  assert (Hstop : exists ext, tr0 ++ [EvSearch t] = tr0 ++ ext
                              /\ listed_from (length tr0) ext).
  { exists [EvSearch t]. split; [done | apply listed_from_no_download]. }
  destruct (search_fred (length tr0) t) as [[|id0 ids]|] eqn:Hsearch;
    [apply Hrec; [lia | done] | | exact Hstop].
  destruct rest1 as [|line2 rest2]; [exact Hstop|].
  apply Forall_cons in Hno1 as [_ Hno2]. simpl in Hlen.
  destruct (String.eqb (upper (strip line2)) "EXIT"); [exact Hstop|].
  destruct (String.eqb (upper (strip line2)) "NEW"); [apply Hrec; [lia | done]|].
  set (id := upper (strip line2)).
  case_bool_decide as Hvalid.
  - assert (Hdl : exists ext,
        (tr0 ++ [EvSearch t]) ++ [EvDownloadSeries id] = tr0 ++ ext
        /\ listed_from (length tr0) ext).
    { exists [EvSearch t; EvDownloadSeries id]. split; [by rewrite <- app_assoc|].
      by eapply listed_from_download. }
    cbv zeta. destruct (download_returns _ id); [|exact Hdl].
    destruct rest2 as [|line3 rest3]; [exact Hdl|].
    apply Forall_cons in Hno2 as [Hd3 _].
    destruct (String.eqb_spec (lower (strip line3)) "y"); [done | exact Hdl].
  - destruct rest2 as [|line3 rest3]; [exact Hstop|].
    apply Forall_cons in Hno2 as [Hd3 Hno3]. simpl in Hlen.
    destruct (String.eqb_spec (lower (strip line3)) "y"); [done|].
    destruct rest3 as [|line4 rest4]; [exact Hstop|].
    apply Forall_cons in Hno3 as [Hd4 _].
    destruct (String.eqb_spec (lower (strip line4)) "y"); [done | exact Hstop].
Qed.

End Dialogue.

(** If no line of the input is the answer y, then whatever the searches
    return the script downloads at most one series, and only a series
    whose id is among the results that a search of this run returned: an
    id that was not listed is downloaded only after the user has
    confirmed it. *)
Theorem fred_downloads_listed_series (strip upper lower : string -> string)
    (search_fred : nat -> string -> option (list string))
    (download_returns : nat -> string -> bool) (inputs : list string) :
  Forall (declines strip lower) inputs ->
  listed_once search_fred
    (main strip upper lower search_fred download_returns inputs []).2.
Proof.
  intros Hno.
  destruct (main_declined strip upper lower search_fred download_returns
              (length inputs) inputs [] (le_n _) Hno) as (ext & -> & Hext).
  exact Hext.
Qed.

(** The user searches for gdp, asks for the series GDP, which is listed
    and is downloaded, and leaves. *)
Lemma fred_downloads_listed_series_witness :
  listed_once (fun _ _ => Some ["GDP"; "GDPC1"]%string)
    (main (fun s => s) (fun s => s) (fun s => s)
          (fun _ _ => Some ["GDP"; "GDPC1"]%string) (fun _ _ => true)
          ["gdp"; "GDP"; "n"]%string []).2.
Proof.
  apply fred_downloads_listed_series. repeat constructor; by vm_compute.
Defined.

End FredAppFacts.

(** ** The loop of the JSON consolidater *)

Module JsonCopyFacts.
Import Json EmailSearch JsonCopy FbiVaultFacts MonthSearchFacts.

Section Loop.
Variable decode : string -> option json.
Variable copy2 : string -> copy_result.

#[local] Abbreviation copy_loop := (copy_loop decode copy2).

Definition handled (st : copy_stats) : nat :=
  (copied_count st + skipped_count st + error_count st)%nat.

Lemma copy_loop_counts (json_files : list string) (src : directory) :
  forall dst st all_metadata,
    handled (copy_loop json_files src dst st all_metadata).1.2
    = (handled st + length json_files)%nat.
Proof.
  induction json_files as [|p rest IH]; intros dst st acc; simpl; [unfold handled; lia|].
  destruct (dst !! p); [rewrite IH; unfold handled; simpl; lia|].
  destruct (src !! p), (copy2 p) as [|[partial|]]; rewrite IH; unfold handled; simpl; lia.
Qed.

Lemma copy_loop_keeps (json_files : list string) (src : directory) (p : string)
    (content : string) :
  forall dst st all_metadata,
    dst !! p = Some content ->
    (copy_loop json_files src dst st all_metadata).1.1 !! p = Some content.
Proof.
  induction json_files as [|q rest IH]; intros dst st acc Hp; simpl; [done|].
  destruct (dst !! q) eqn:Hq; [by apply IH|].
  assert (q <> p) as Hne by congruence.
  destruct (src !! q), (copy2 q) as [|[partial|]]; apply IH;
    rewrite ?lookup_insert_ne by done; done.
Qed.

Lemma copy_loop_copies (json_files : list string) (src : directory) (p : string)
    (text : string) :
  p ∈ json_files -> src !! p = Some text -> copy2 p = CopyOk ->
  forall dst st all_metadata,
    dst !! p = None ->
    (copy_loop json_files src dst st all_metadata).1.1 !! p = Some text.
Proof.
  intros Hin Hsrc Hok.
  induction json_files as [|q rest IH]; intros dst st acc Hp; [by apply elem_of_nil in Hin|].
  simpl. destruct (decide (q = p)) as [->|Hne].
  - rewrite Hp, Hsrc, Hok. apply copy_loop_keeps. apply lookup_insert_eq.
  - apply elem_of_cons in Hin as [->|Hin]; [done|].
    destruct (dst !! q) eqn:Hq; [by apply IH|].
    destruct (src !! q), (copy2 q) as [|[partial|]]; apply IH;
      rewrite ?lookup_insert_ne by done; done.
Qed.

(** The metadata that enters the master file for a path. *)
Definition loaded_metadata (src : directory) (rel_path : string) : option json :=
  match load_json_file decode src rel_path with
  | Some metadata => if truthy metadata then Some metadata else None
  | None => None
  end.

Lemma dict_set_keys_nodup (k : string) (v : json) (d : pydict) :
  NoDup (dict_keys d) -> NoDup (dict_keys (dict_set k v d)).
Proof.
  intros Hnd. destruct (decide (k ∈ dict_keys d)) as [Hin|Hnin].
  - by rewrite dict_keys_set.
  - rewrite dict_set_fresh by done. unfold dict_keys in *. rewrite map_app. simpl.
    apply NoDup_app. split; [done|]. split; [set_solver|]. apply NoDup_singleton.
Qed.

Lemma copy_loop_metadata (json_files : list string) (src : directory) (p : string) :
  forall dst st all_metadata,
    NoDup (dict_keys all_metadata) ->
    let result := (copy_loop json_files src dst st all_metadata).2 in
    NoDup (dict_keys result) /\
    dict_get p result
    = match (if bool_decide (p ∈ json_files) then loaded_metadata src p else None) with
      | Some metadata => Some metadata
      | None => dict_get p all_metadata
      end.
Proof.
  induction json_files as [|q rest IH]; intros dst st acc Hnd;
    cbn [JsonCopy.copy_loop]; cbv zeta.
  - split; [done|]. by simpl.
  - set (acc' := match load_json_file decode src q with
                 | Some metadata => if truthy metadata then dict_set q metadata acc else acc
                 | None => acc end).
    assert (Hnd' : NoDup (dict_keys acc')).
    { unfold acc'. destruct (load_json_file decode src q) as [m|]; [|done].
      destruct (truthy m); [by apply dict_set_keys_nodup | done]. }
    assert (Hacc' : dict_get p acc'
                    = if bool_decide (p = q)
                      then match loaded_metadata src p with
                           | Some m => Some m | None => dict_get p acc end
                      else dict_get p acc).
    { unfold acc', loaded_metadata. destruct (decide (p = q)) as [Hpq|Hpq].
      - rewrite bool_decide_eq_true_2 by done. rewrite <- Hpq.
        destruct (load_json_file decode src p) as [m|]; [|done].
        destruct (truthy m); [apply dict_get_set_eq | done].
      - rewrite bool_decide_eq_false_2 by done.
        destruct (load_json_file decode src q) as [m|]; [|done].
        destruct (truthy m); [|done]. apply dict_get_set_ne. congruence. }
    assert (Hgoal : forall dst1 st1,
      NoDup (dict_keys (copy_loop rest src dst1 st1 acc').2) /\
      dict_get p (copy_loop rest src dst1 st1 acc').2
      = match (if bool_decide (p ∈ q :: rest) then loaded_metadata src p else None) with
        | Some metadata => Some metadata
        | None => dict_get p acc
        end).
    { intros dst1 st1. destruct (IH dst1 st1 acc' Hnd') as [H1 H2]. split; [exact H1|].
      rewrite H2, Hacc'. clear.
      repeat case_bool_decide; subst; try (exfalso; set_solver);
        try destruct (loaded_metadata src _); done. }
    destruct (dst !! q); [apply Hgoal|].
    destruct (src !! q), (copy2 q) as [|[partial|]]; apply Hgoal.
Qed.

End Loop.

(** When there are JSON files: every one of them is counted once, as
    copied, skipped or failed; the copy loop leaves every file that was
    in the destination as it is (the master file is written after the
    loop); and a file that was not there and whose copy succeeds is
    there after the loop with the text of the source. *)
Theorem consolidater_copies_missing_files decode copy2 (now : string)
    (json_files : list string) (src dst dst' : directory) (st : copy_stats)
    (master : json) :
  copy_and_consolidate decode copy2 now json_files src dst = Some (dst', st, master) ->
  (copied_count st + skipped_count st + error_count st = length json_files)%nat /\
  (forall p content, dst !! p = Some content -> dst' !! p = Some content) /\
  (forall p text, p ∈ json_files -> dst !! p = None -> src !! p = Some text ->
                  copy2 p = CopyOk -> dst' !! p = Some text).
Proof.
  unfold copy_and_consolidate.
  destruct json_files as [|p0 rest] eqn:Hjf; [discriminate|]. rewrite <- Hjf. clear Hjf.
  pose proof (copy_loop_counts decode copy2 json_files src dst
                {| copied_count := 0; skipped_count := 0; error_count := 0 |} []) as Hc.
  pose proof (fun p content => copy_loop_keeps decode copy2 json_files src p content dst
                {| copied_count := 0; skipped_count := 0; error_count := 0 |} []) as Hk.
  pose proof (fun p text H1 H2 H3 => copy_loop_copies decode copy2 json_files src p text
                H1 H2 H3 dst
                {| copied_count := 0; skipped_count := 0; error_count := 0 |} []) as Hcp.
  destruct (JsonCopy.copy_loop decode copy2 json_files src dst _ []) as [[dst1 st1] acc].
  intros [= <- <- <-].
  simpl in Hc, Hk, Hcp. unfold handled in Hc. simpl in Hc. split; [lia|]. split; [exact Hk|].
  intros p text H1 H2 H3 H4. by apply Hcp.
Qed.

Lemma consolidater_copies_missing_files_witness :
  exists dst' st master,
    copy_and_consolidate (fun _ => None) (fun _ => CopyOk) "2024-02-01T00:00:00"
      ["2024-Jan/2024-Jan_consolidated.json"%string]
      {[ "2024-Jan/2024-Jan_consolidated.json"%string := "{}"%string ]} ∅
    = Some (dst', st, master) /\
    (copied_count st + skipped_count st + error_count st = 1)%nat.
Proof.
  eexists _, _, _. split; [reflexivity|].
  eapply (consolidater_copies_missing_files (fun _ => None) (fun _ => CopyOk)
            "2024-02-01T00:00:00" ["2024-Jan/2024-Jan_consolidated.json"%string]
            {[ "2024-Jan/2024-Jan_consolidated.json"%string := "{}"%string ]} ∅).
  reflexivity.
Defined.

(** When there are JSON files, the master file lists under [files]
    exactly those that could be loaded and whose content is not empty,
    each once under its relative path and with its decoded content, and
    [total_json_files] is their number.  A file that cannot be decoded,
    or that holds an empty object, an empty list, zero, false or null,
    is left out of the master file even when it is copied. *)
Theorem master_lists_loaded_files decode copy2 (now : string)
    (json_files : list string) (src dst : directory) :
  json_files <> [] ->
  exists dst' st files,
    copy_and_consolidate decode copy2 now json_files src dst
    = Some (dst', st,
            JObj [ ("generated", JStr now);
                   ("source_directory", JStr SOURCE_DIR);
                   ("destination_directory", JStr DEST_DIR);
                   ("total_json_files", JNum (Z.of_nat (length files)));
                   ("files", JObj files) ]%string) /\
    NoDup (dict_keys files) /\
    forall p, dict_get p files
              = if bool_decide (p ∈ json_files) then loaded_metadata decode src p
                else None.
Proof.
  intros Hne. unfold copy_and_consolidate.
  destruct json_files as [|p0 rest] eqn:Hjf; [done|]. rewrite <- Hjf. clear Hjf.
  pose proof (fun p => copy_loop_metadata decode copy2 json_files src p dst
                {| copied_count := 0; skipped_count := 0; error_count := 0 |} []
                (NoDup_nil_2 (A:=string))) as Hm.
  destruct (JsonCopy.copy_loop decode copy2 json_files src dst _ []) as [[dst' st] acc].
  simpl in Hm. exists dst', st, acc. unfold create_master_json.
  assert (Hnd : NoDup (dict_keys acc)) by (by destruct (Hm ""%string)).
  rewrite master_files_months by done. split; [done|]. split; [exact Hnd|].
  intros p. destruct (Hm p) as [_ ->].
  by destruct (if bool_decide (p ∈ json_files) then _ else _).
Qed.

(** One month file; [decode] reads it as the month of the sample e-mail. *)
Lemma master_lists_loaded_files_witness :
  exists dst' st files,
    copy_and_consolidate
      (fun _ => Some (month_json "2024-Jan" "2024-01-31T00:00:00"
                        [EmailSearchFacts.entry_json EmailSearchFacts.sample_entry]))
      (fun _ => CopyOk) "2024-02-01T00:00:00"
      ["2024-Jan/2024-Jan_consolidated.json"%string]
      {[ "2024-Jan/2024-Jan_consolidated.json"%string := "{}"%string ]} ∅
    = Some (dst', st,
            JObj [ ("generated", JStr "2024-02-01T00:00:00");
                   ("source_directory", JStr SOURCE_DIR);
                   ("destination_directory", JStr DEST_DIR);
                   ("total_json_files", JNum (Z.of_nat (length files)));
                   ("files", JObj files) ]%string) /\
    NoDup (dict_keys files).
Proof.
  destruct (master_lists_loaded_files
      (fun _ => Some (month_json "2024-Jan" "2024-01-31T00:00:00"
                        [EmailSearchFacts.entry_json EmailSearchFacts.sample_entry]))
      (fun _ => CopyOk) "2024-02-01T00:00:00"
      ["2024-Jan/2024-Jan_consolidated.json"%string]
      {[ "2024-Jan/2024-Jan_consolidated.json"%string := "{}"%string ]} ∅)
    as (dst' & st & files & H1 & H2 & _); [done|].
  exists dst', st, files. by split.
Defined.

End JsonCopyFacts.

(** ** Running the CIA scraper again *)

Module CiaRerunFacts.
Import StrUtil CiaScraper CiaJson StrFacts CiaScraperFacts.

(** For a document id without a dot, the key that [create_cia_json]
    derives from the name of the saved page is the id under which
    [scrape_document_pages] saved it. *)
Theorem cia_doc_id_round_trip (url : string) :
  no_dot (doc_id url) = true ->
  json_doc_id (layer_1_file url) = doc_id url.
Proof.
  intros Hd. unfold json_doc_id, layer_1_file. by apply replace_html_no_dot.
Qed.

Lemma cia_doc_id_round_trip_witness :
  json_doc_id
    (layer_1_file "https://www.cia.gov/readingroom/document/cia-rdp96-00788r001700210016-5")
  = "cia-rdp96-00788r001700210016-5"%string.
Proof.
  apply (cia_doc_id_round_trip
           "https://www.cia.gov/readingroom/document/cia-rdp96-00788r001700210016-5").
  by vm_compute.
Defined.

Lemma downloaded_ids_mono (l0 l1 : directory) :
  dom l0 ⊆ dom l1 -> downloaded_ids l0 ⊆ downloaded_ids l1.
Proof.
  intros Hdom id. unfold downloaded_ids.
  rewrite !elem_of_list_to_set, !list_elem_of_fmap.
  intros (f & -> & Hf). exists f. split; [done|].
  apply list_elem_of_filter in Hf as [Hends Hf]. apply list_elem_of_filter.
  split; [done|]. apply elem_of_elements. apply elem_of_elements in Hf. set_solver.
Qed.

Lemma scrape_loop_dom driver_get urls : forall i layer_1 requested,
  dom layer_1 ⊆ dom (scrape_loop driver_get i urls layer_1 requested).1.
Proof.
  intros i layer_1 requested f Hf. apply elem_of_dom. apply elem_of_dom in Hf.
  by apply scrape_loop_keeps_files.
Qed.

(** A first run in which every page that is requested can be fetched,
    over URLs whose document ids have no dot; then a second run over the
    same URLs, whatever the browser does then, requests no page and
    leaves the directory of saved pages as it is. *)
Theorem cia_second_run_requests_nothing
    (driver_get1 driver_get2 : nat -> string -> option string)
    (urls : list string) (layer_1 : directory) :
  Forall (fun url => no_dot (doc_id url) = true) urls ->
  (forall i url, is_Some (driver_get1 i url)) ->
  scrape_document_pages driver_get2 urls
    (scrape_document_pages driver_get1 urls layer_1).1
  = ((scrape_document_pages driver_get1 urls layer_1).1, []).
Proof.
  intros Hids Hfetch.
  set (l1 := (scrape_document_pages driver_get1 urls layer_1).1).
  assert (Hnone : urls_to_scrape urls l1 = []).
  { unfold urls_to_scrape.
    destruct (filter (fun url => doc_id url ∉ downloaded_ids l1) urls) as [|u rest] eqn:Hf;
      [done|]. exfalso.
    assert (u ∈ filter (fun url => doc_id url ∉ downloaded_ids l1) urls) as Hu
      by (rewrite Hf; set_solver).
    apply list_elem_of_filter in Hu as [Hnot Hu]. apply Hnot.
    destruct (decide (u ∈ urls_to_scrape urls layer_1)) as [Hts|Hts].
    - apply saved_is_downloaded.
      + rewrite Forall_forall in Hids. by apply Hids.
      + apply list_elem_of_lookup_1 in Hts as [k Hk]. destruct (Hfetch k u) as [page Hpage].
        unfold l1, scrape_document_pages. eapply scrape_loop_saves; eauto.
    - assert (doc_id u ∈ downloaded_ids layer_1) as Hin.
      { destruct (decide (doc_id u ∈ downloaded_ids layer_1)) as [|Hnin]; [done|].
        exfalso. apply Hts. unfold urls_to_scrape. by apply list_elem_of_filter. }
      eapply downloaded_ids_mono; [|exact Hin]. apply scrape_loop_dom. }
  unfold scrape_document_pages at 1. fold l1. by rewrite Hnone.
Qed.

Lemma cia_second_run_requests_nothing_witness :
  scrape_document_pages (fun _ _ => None)
    ["https://www.cia.gov/readingroom/document/cia-rdp96-1"%string]
    (scrape_document_pages (fun _ _ => Some "page"%string)
       ["https://www.cia.gov/readingroom/document/cia-rdp96-1"%string] ∅).1
  = ((scrape_document_pages (fun _ _ => Some "page"%string)
        ["https://www.cia.gov/readingroom/document/cia-rdp96-1"%string] ∅).1, []).
Proof.
  apply cia_second_run_requests_nothing.
  - repeat constructor.
  - intros i url. by eexists.
Defined.

End CiaRerunFacts.
